(** * RoboScientist: equation datasets

    A shallow embedding of [roboscientist/datasets/equations_utils.py] and
    [roboscientist/datasets/equations_base.py].

    Python values that can fail are computed in the [result] monad, whose
    error side records the exception the interpreter raises.  SymPy, NumPy
    and NetworkX are libraries the two files call into; their objects are
    modelled by what the code observes of them. *)

From Stdlib Require Import ZArith List String Ascii Lia Floats DecimalString.
From Stdlib Require Import DecimalNat DecimalFacts.
From stdpp Require Import gmap strings list sorting.

Import ListNotations.
Set Warnings "-register-all,-clear-no-such-hyp".
Local Open Scope string_scope.
Local Open Scope list_scope.

(** ** Python outcomes *)

Module Py.

Inductive exn : Type :=
| TypeError
| ValueError
| IndexError
| KeyError
| AttributeError
| OverflowError
| StopIteration
| NetworkXError
| SympifyError.

Inductive result (A : Type) : Type :=
| Ok (a : A)
| Raise (e : exn).

Arguments Ok {A} a.
Arguments Raise {A} e.

Definition bind {A B : Type} (m : result A) (k : A -> result B) : result B :=
  match m with
  | Ok a => k a
  | Raise e => Raise e
  end.

Definition is_ok {A : Type} (m : result A) : bool :=
  match m with Ok _ => true | Raise _ => false end.

(** The few first-class values the wrapper passes around. *)
Inductive value : Type :=
| VNone
| VNotImplemented
| VStr (s : string)
| VFloat (x : float).

(** Calling an object [f]: none of the constants above defines
    [__call__], so the interpreter raises [TypeError]
    ("object is not callable"). *)
Definition call (f : value) (args : list value) : result value :=
  match f with
  | VNone | VNotImplemented | VStr _ | VFloat _ => Raise TypeError
  end.

(** [l.pop()] on a list whose last element is the top. *)
Definition pop {A : Type} (l : list A) : result (A * list A) :=
  match List.rev l with
  | [] => Raise IndexError
  | x :: r => Ok (x, List.rev r)
  end.

(** [l[0]] *)
Definition first {A : Type} (l : list A) : result A :=
  match l with
  | [] => Raise IndexError
  | x :: _ => Ok x
  end.

End Py.

Export Py.

#[export] Instance result_ret : MRet result := @Ok.
#[export] Instance result_bind : MBind result :=
  fun A B k m => Py.bind m k.
#[export] Instance result_fmap : FMap result :=
  fun A B f m => Py.bind m (fun a => Ok (f a)).

(** ** SymPy expressions, as the code observes them *)

Module Sympy.

(** What the two files read off one node of an expression:
    [expr.func.is_symbol], [expr.name], the four class flags,
    [type(expr).__name__], [expr.is_constant()] and [float(expr)]. *)
Record node : Type := {
  func_is_symbol : bool;
  name : string;
  is_Function : bool;
  is_Add : bool;
  is_Mul : bool;
  is_Pow : bool;
  type_name : string;
  is_constant : bool;
  as_float : result float;
}.

(** An expression is a node with its [args]. *)
Inductive expr : Type :=
| Basic (n : node) (args : list expr).

Definition head (e : expr) : node := match e with Basic n _ => n end.
Definition args (e : expr) : list expr := match e with Basic _ a => a end.

(** The usual classes. *)
Definition Symbol (s : string) : expr :=
  Basic {| func_is_symbol := true; name := s;
           is_Function := false; is_Add := false; is_Mul := false;
           is_Pow := false; type_name := "Symbol";
           is_constant := false; as_float := Raise TypeError |} [].

Definition Float (x : float) : expr :=
  Basic {| func_is_symbol := false; name := "";
           is_Function := false; is_Add := false; is_Mul := false;
           is_Pow := false; type_name := "Float";
           is_constant := true; as_float := Ok x |} [].

Definition operator (f a m p : bool) (ty : string) (l : list expr) : expr :=
  Basic {| func_is_symbol := false; name := "";
           is_Function := f; is_Add := a; is_Mul := m; is_Pow := p;
           type_name := ty;
           is_constant := false; as_float := Raise TypeError |} l.

Definition Add (l : list expr) : expr := operator false true false false "Add" l.
Definition Mul (l : list expr) : expr := operator false false true false "Mul" l.
Definition Pow (b e : expr) : expr := operator false false false true "Pow" [b; e].
Definition Function (f : string) (l : list expr) : expr :=
  operator true false false false f l.

(** [UnevaluatedExpr(e)]: an [Expr] that is no symbol, no function, sum,
    product or power, and that is not constant when [e] is a symbol. *)
Definition UnevaluatedExpr (e : expr) : expr :=
  operator false false false false "UnevaluatedExpr" [e].

(** [postorder_traversal] and [preorder_traversal]. *)
Fixpoint postorder_traversal (e : expr) : list expr :=
  match e with
  | Basic n l => flat_map postorder_traversal l ++ [e]
  end.

Fixpoint preorder_traversal (e : expr) : list expr :=
  match e with
  | Basic n l => e :: flat_map preorder_traversal l
  end.

End Sympy.

Export Sympy.

(** ** Loops that can raise *)

Section Loops.
Context {S A : Type}.

(** [for x in l: st = body(st, x)], stopping at the first exception. *)
Fixpoint for_each (body : S -> A -> result S) (st : S) (l : list A) : result S :=
  match l with
  | [] => Ok st
  | x :: l' => st' ← body st x; for_each body st' l'
  end.

End Loops.

(** A list comprehension whose items can raise: the first exception
    wins. *)
Fixpoint collect {A : Type} (l : list (result A)) : result (list A) :=
  match l with
  | [] => Ok []
  | r :: l' => v ← r; vs ← collect l'; Ok (v :: vs)
  end.

(** ** NumPy: integer arrays and the global random generator *)

Module numpy.

(** A 64-bit integer after an operation that may have overflowed. *)
Definition int64 (z : Z) : Z := ((z + 2 ^ 63) mod 2 ^ 64 - 2 ^ 63)%Z.

(** [a ** k] on an integer array and a Python [int]: a negative [k] is
    refused. *)
Definition power (a : list Z) (k : Z) : result (list Z) :=
  if (k <? 0)%Z then Raise ValueError
  else Ok (map (fun x => int64 (x ^ k)) a).

(** [a.sum()] on an integer array. *)
Definition sum (a : list Z) : Z := int64 (fold_left Z.add a 0%Z).

(** [np.unique(l, return_counts=True)], zipped: the sorted distinct
    values, each with the number of its occurrences. *)
Definition unique_counts (l : list nat) : list (nat * nat) :=
  map (fun v => (v, count_occ Nat.eq_dec l v)) (merge_sort le (remove_dups l)).

(** The state of the global generator: the numbers it has yet to give.
    Every sequence of draws is the behaviour of some state. *)
Record RandomState : Type := { stream : nat -> nat; position : nat }.

(** A draw from [0 .. k-1]. *)
Definition random_below (k : nat) (g : RandomState) : nat * RandomState :=
  (stream g (position g) mod k,
   {| stream := stream g; position := Datatypes.S (position g) |}).

(** [np.random.choice(a, p=w / total)], where [total] is [w.sum()].  The
    probabilities have to be numbers that are not negative and that add up
    to one; an entry of probability zero is never drawn. *)
Definition valid_weights (w : list Z) (total : Z) : bool :=
  negb (total =? 0)%Z
  && forallb (fun x => (0 <=? x * total)%Z) w
  && (fold_left Z.add w 0 =? total)%Z.

Definition choice (a : list nat) (w : list Z) (total : Z) (g : RandomState)
  : result (nat * RandomState) :=
  if negb (Nat.eqb (length a) 0) && Nat.eqb (length a) (length w)
     && valid_weights w total then
    let candidates :=
      map fst (filter (fun xw => snd xw ≠ 0%Z) (zip a w)) in
    let '(i, g) := random_below (length candidates) g in
    match candidates !! i with
    | Some x => Ok (x, g)
    | None => Raise ValueError
    end
  else Raise ValueError.

(** [x[i], x[j] = x[j], x[i]] *)
Definition swap (x : list nat) (i j : nat) : list nat :=
  match x !! i, x !! j with
  | Some xi, Some xj => <[j := xi]> (<[i := xj]> x)
  | _, _ => x
  end.

(** [np.random.shuffle(x)]: for [i] from [len(x) - 1] down to 1, swap
    [x[i]] with [x[j]] for a [j] drawn from [0 .. i]. *)
Fixpoint shuffle_from (i : nat) (x : list nat) (g : RandomState)
  : list nat * RandomState :=
  match i with
  | O => (x, g)
  | Datatypes.S i' =>
      let '(j, g) := random_below (Datatypes.S i) g in
      shuffle_from i' (swap x i j) g
  end.

Definition shuffle (x : list nat) (g : RandomState) : list nat * RandomState :=
  shuffle_from (length x - 1) x g.

End numpy.

(** ** NetworkX: graphs, Pruefer decoding, breadth-first trees *)

Module networkx.

(** A graph: its nodes and its edges, both in insertion order.  The same
    record serves [Graph], where an edge joins both ways, and [DiGraph],
    where it points from the first node to the second. *)
Record Graph : Type := { nodes : list nat; edges : list (nat * nat) }.

Definition add_new (l : list nat) (x : nat) : list nat :=
  if decide (x ∈ l) then l else l ++ [x].

Definition add_node (x : nat) (G : Graph) : Graph :=
  {| nodes := add_new (nodes G) x; edges := edges G |}.

Definition add_edge (u v : nat) (G : Graph) : Graph :=
  {| nodes := add_new (add_new (nodes G) u) v; edges := edges G ++ [(u, v)] |}.

Definition add_edges_from (l : list (nat * nat)) (G : Graph) : Graph :=
  fold_left (fun G '(u, v) => add_edge u v G) l G.

Definition empty_graph (n : nat) : Graph := {| nodes := seq 0 n; edges := [] |}.

(** [G.neighbors(a)] of an undirected graph. *)
Definition neighbors (G : Graph) (a : nat) : list nat :=
  fold_left
    (fun acc '(x, y) =>
       if decide (x = a) then add_new acc y
       else if decide (y = a) then add_new acc x
       else acc)
    (edges G) [].

(** *** [from_prufer_sequence] *)

(** [Counter(l)]: absent keys count zero. *)
Definition Counter (l : list nat) : nat -> Z :=
  fun k => Z.of_nat (count_occ Nat.eq_dec l k).

Definition decrement (degree : nat -> Z) (v : nat) : nat -> Z :=
  fun k => if decide (k = v) then (degree k - 1)%Z else degree k.

(** [next(k for k in range(lo, n) if degree[k] == 1)] *)
Definition next_leaf (degree : nat -> Z) (lo n : nat) : result nat :=
  match find (fun k => (degree k =? 1)%Z) (seq lo (n - lo)) with
  | Some k => Ok k
  | None => Raise StopIteration
  end.

Record decoder : Type := {
  T : Graph;
  not_orphaned : gset nat;
  degree : nat -> Z;
  index : nat;
  u : nat;
}.

(** One turn of [for v in sequence]. *)
Definition decode_step (n : nat) (st : decoder) (v : nat) : result decoder :=
  if (Z.of_nat n - 1 <? Z.of_nat v)%Z then Raise NetworkXError
  else
    let T := add_edge (u st) v (T st) in
    let not_orphaned := not_orphaned st ∪ {[u st]} in
    let degree := decrement (degree st) v in
    if (v <? index st)%nat && (degree v =? 1)%Z then
      Ok {| T := T; not_orphaned := not_orphaned; degree := degree;
            index := index st; u := v |}
    else
      k ← next_leaf degree (index st + 1) n;
      Ok {| T := T; not_orphaned := not_orphaned; degree := degree;
            index := k; u := k |}.

Definition from_prufer_sequence (sequence : list nat) : result Graph :=
  let n := length sequence + 2 in
  let degree := Counter (sequence ++ seq 0 n) in
  let T := empty_graph n in
  k ← next_leaf degree 0 n;
  st ← for_each (decode_step n)
        {| T := T; not_orphaned := ∅; degree := degree; index := k; u := k |}
        sequence;
  let orphans := list_to_set (nodes (networkx.T st)) ∖ not_orphaned st in
  match elements orphans with
  | [u; v] => Ok (add_edge u v (networkx.T st))
  | _ => Raise ValueError
  end.

(** *** [bfs_tree] *)

Section BreadthFirst.

Variable G : Graph.

(** The walk through the children of one parent. *)
Definition visit_children (parent : nat) (children : list nat)
  (st : list nat * list (nat * list nat) * list (nat * nat))
  : list nat * list (nat * list nat) * list (nat * nat) :=
  fold_left
    (fun '(seen, next_parents_children, out) child =>
       if decide (child ∈ seen) then (seen, next_parents_children, out)
       else (seen ++ [child],
             next_parents_children ++ [(child, neighbors G child)],
             out ++ [(parent, child)]))
    children st.

(** [for parent, children in this_parents_children] *)
Definition visit_level (this_parents_children : list (nat * list nat))
  (st : list nat * list (nat * list nat) * list (nat * nat))
  : list nat * list (nat * list nat) * list (nat * nat) :=
  fold_left
    (fun st pc => visit_children (fst pc) (snd pc) st)
    this_parents_children st.

(** The levels of the search, at most [depth_limit] of them.  (The early
    exit taken once every node has been seen yields no other edges and is
    left out.) *)
Fixpoint bfs_levels (depth_limit : nat)
  (this_parents_children : list (nat * list nat))
  (seen : list nat) (out : list (nat * nat)) : list (nat * nat) :=
  match depth_limit, this_parents_children with
  | O, _ | _, [] => out
  | Datatypes.S depth_limit', _ =>
      let '(seen, next_parents_children, out) :=
        visit_level this_parents_children (seen, [], out) in
      bfs_levels depth_limit' next_parents_children seen out
  end.

Definition bfs_edges (source : nat) : list (nat * nat) :=
  bfs_levels (length (nodes G)) [(source, neighbors G source)] [source] [].

Definition bfs_tree (source : nat) : Graph :=
  add_edges_from (bfs_edges source) (add_node source {| nodes := []; edges := [] |}).

End BreadthFirst.

(** *** Reading a graph *)

(** [b] is a neighbour of [a]; there is an arc from [a] to [b]. *)
Definition adjacent (G : Graph) (a b : nat) : Prop := b ∈ neighbors G a.
Definition arc (G : Graph) (a b : nat) : Prop := (a, b) ∈ edges G.

(** A list of arcs that grows a tree from [source]: each arc leaves a node
    already reached and enters a node not reached before. *)
Inductive grown (source : nat) : list (nat * nat) -> Prop :=
| grown_nil : grown source []
| grown_snoc out p c :
    grown source out ->
    p ∈ source :: map snd out ->
    c ∉ source :: map snd out ->
    grown source (out ++ [(p, c)]).

(** In a list of edges [(u, a)] followed by the numbers [rest], no [u]
    shows up as an [a] from its own edge on, nor in [rest]. *)
Fixpoint fresh_trace (tr : list (nat * nat)) (rest : list nat) : Prop :=
  match tr with
  | [] => True
  | (u, a) :: tr' => (u ∉ a :: map snd tr' ++ rest) /\ fresh_trace tr' rest
  end.

(** What holds of the search between two children: the arcs grow a tree
    whose nodes are the seen ones, all of them nodes of the graph; an
    entry of a level pairs a seen node with its neighbours; a seen node is
    closed when its neighbours are seen. *)
Definition bfs_state (G : Graph) (source : nat) (seen : list nat)
  (out : list (nat * nat)) : Prop :=
  grown source out /\ seen = source :: map snd out /\
  forall x, x ∈ seen -> x ∈ nodes G.

Definition level_entry (G : Graph) (seen : list nat) (pc : nat * list nat)
  : Prop :=
  snd pc = neighbors G (fst pc) /\ fst pc ∈ seen.

Definition closed (G : Graph) (seen : list nat) (x : nat) : Prop :=
  forall y, adjacent G x y -> y ∈ seen.

(** What holds of the decoder before each number of the sequence, [rest]
    being the numbers still to come and [n] the number of nodes: first of
    the graph and the set of used nodes, then of the counters. *)
Record trace_ok (n : nat) (rest : list nat) (T : Graph) (used : gset nat)
  : Prop := {
  ok_nodes : nodes T = seq 0 n;
  ok_orphaned : used = list_to_set (map fst (edges T));
  ok_NoDup : NoDup (map fst (edges T));
  ok_trace : fresh_trace (edges T) rest;
  ok_range : forall a, a ∈ map snd (edges T) -> a < n;
  ok_length : length (edges T) + length rest + 2 = n;
}.

Record pointer_ok (n : nat) (rest : list nat) (degree : nat -> Z)
  (index u : nat) (used : gset nat) : Prop := {
  ok_degree : forall k, k < n ->
    degree k = (1 + Z.of_nat (count_occ Nat.eq_dec rest k))%Z;
  ok_index : index < n;
  ok_u_le : u <= index;
  ok_index_leaf : degree index = 1%Z;
  ok_u_leaf : degree u = 1%Z;
  ok_u_fresh : u ∉ used;
  ok_leaves : forall k, k <= index -> k <> u -> degree k = 1%Z -> k ∈ used;
  ok_used : forall k, k ∈ used -> k <= index /\ degree k = 1%Z;
}.

Definition decoder_ok (n : nat) (rest : list nat) (st : decoder) : Prop :=
  trace_ok n rest (T st) (not_orphaned st) /\
  pointer_ok n rest (degree st) (index st) (u st) (not_orphaned st).

(** *** Directed graphs with node attributes *)

Module DiGraph.

(** A [DiGraph] whose nodes may carry the attribute [expr]: the nodes and
    the edges in insertion order, and [D.nodes[n]['expr']] where it is
    set. *)
Record t : Type := {
  nodes : list nat;
  attr_expr : gmap nat string;
  edges : list (nat * nat);
}.

(** [nx.DiGraph()] *)
Definition empty : t := {| nodes := []; attr_expr := ∅; edges := [] |}.

(** [D.add_node(n, expr=s)]: a new node is added, a present one keeps
    its place; the attribute is set either way. *)
Definition add_node (n : nat) (s : string) (D : t) : t :=
  {| nodes := add_new (nodes D) n;
     attr_expr := <[n := s]> (attr_expr D);
     edges := edges D |}.

(** [D.add_edge(u, v)]: both ends become nodes, without attributes if
    they are new; an edge that is present is not added again. *)
Definition add_edge (u v : nat) (D : t) : t :=
  {| nodes := add_new (add_new (nodes D) u) v;
     attr_expr := attr_expr D;
     edges := if decide ((u, v) ∈ edges D) then edges D
              else edges D ++ [(u, v)] |}.

(** [D.out_degree(n)] *)
Definition out_degree (D : t) (n : nat) : nat :=
  length (filter (fun p => fst p = n) (edges D)).

End DiGraph.

End networkx.

(** ** equations_settings *)

Module equations_settings.

(** Modelled from the spec: [equations_settings.py] is not part of the
    sources at hand; the constant base name is the literal string
    [const]. *)
Definition CONST_BASE_NAME : string := "const".

End equations_settings.

(** ** equations_utils.py *)

Module equations_utils.

Import equations_settings.

Definition construct_symbol (name : string) : string :=
  "Symbol('" +:+ name +:+ "')".

(** A token of a postfix or infix sequence: a [str] or a [float]. *)
Inductive token : Type :=
| TStr (s : string)
| TNum (x : float).

(** The body of the loop shared by [expr_to_postfix] and
    [expr_to_infix]: the arity is appended first, the token by the first
    branch of the chain that applies. *)
Definition visit (st : list token * list Z) (expr_node : expr)
  : result (list token * list Z) :=
  let '(toks, arities) := st in
  let arities := arities ++ [Z.of_nat (length (args expr_node))] in
  let n := head expr_node in
  if func_is_symbol n then
    Ok (toks ++ [TStr (name n)], arities)
  else if is_Function n || is_Add n || is_Mul n || is_Pow n then
    Ok (toks ++ [TStr (type_name n)], arities)
  else if is_constant n then
    x ← as_float n; Ok (toks ++ [TNum x], arities)
  else
    Ok (toks, arities).

Definition expr_to_postfix (e : expr) : result (list token * list Z) :=
  for_each visit ([], []) (postorder_traversal e).

Definition expr_to_infix (e : expr) : result (list token * list Z) :=
  for_each visit ([], []) (preorder_traversal e).

Section PostfixToExpr.

(** [str(x)] on a float and [sympy.sympify] on a string. *)
Variable str_float : float -> string.
Variable sympify : string -> result expr.

Definition symbol_or_constant (x : token) : string :=
  match x with
  | TStr s => "Symbol('" +:+ s +:+ "')"
  | TNum v => str_float v
  end.

(** [for _ in range(k): stack_temporary.append(stack.pop())] *)
Fixpoint pop_into (k : nat) (stack stack_temporary : list string)
  : result (list string * list string) :=
  match k with
  | O => Ok (stack, stack_temporary)
  | Datatypes.S k' =>
      '(x, stack') ← pop stack;
      pop_into k' stack' (stack_temporary ++ [x])
  end.

(** One turn of the loop over [zip(post, post_arity)]. *)
Definition reduce_step (stack : list string) (p : token * Z)
  : result (list string) :=
  let '(arg, arg_arity) := p in
  if (arg_arity =? 0)%Z then
    Ok (stack ++ [symbol_or_constant arg])
  else
    '(stack, stack_temporary) ← pop_into (Z.to_nat arg_arity) stack [];
    match arg with
    | TStr f =>
        Ok (stack ++ [f +:+ "(" +:+ String.concat "," (List.rev stack_temporary) +:+ ")"])
    | TNum _ => Raise TypeError
    end.

Definition reduce (post : list token) (post_arity : list Z)
  : result (list string) :=
  for_each reduce_step [] (combine post post_arity).

Definition postfix_to_expr (post : list token) (post_arity : list Z)
  : result expr :=
  stack ← reduce post post_arity;
  s ← first stack;
  sympify s.

End PostfixToExpr.

(** *** The text of an expression

    What the reduction of a postfix sequence is expected to rebuild: the
    call text of an expression whose nodes are symbols, operators with
    arguments and numbers, [plain] expressions for short. *)

Definition is_operator (n : node) : bool :=
  is_Function n || is_Add n || is_Mul n || is_Pow n.

Definition covered (n : node) : bool :=
  func_is_symbol n || is_operator n || is_constant n.

Definition is_nil {A : Type} (l : list A) : bool :=
  match l with [] => true | _ => false end.

Fixpoint plain (e : expr) : bool :=
  match e with
  | Basic n l =>
      forallb plain l &&
      (if func_is_symbol n then is_nil l
       else if is_operator n then negb (is_nil l)
       else is_constant n && is_nil l && is_ok (as_float n))
  end.

Definition token_of (n : node) : token :=
  if func_is_symbol n then TStr (name n)
  else if is_operator n then TStr (type_name n)
  else match as_float n with
       | Ok x => TNum x
       | Raise _ => TStr ""
       end.

Fixpoint postfix_pairs (e : expr) : list (token * Z) :=
  match e with
  | Basic n l =>
      flat_map postfix_pairs l ++ [(token_of n, Z.of_nat (length l))]
  end.

Fixpoint serialize (str_float : float -> string) (e : expr) : string :=
  match e with
  | Basic n l =>
      match l with
      | [] => symbol_or_constant str_float (token_of n)
      | _ =>
          type_name n +:+ "(" +:+
          String.concat "," (map (serialize str_float) l) +:+ ")"
      end
  end.

(** *** Random trees *)

(** The two passes over [np.unique(prufer_sequence, return_counts=True)]
    in the body of the loop. *)
Definition delete_saturated (max_degree : nat) (prufer_sequence nums : list nat)
  : list nat :=
  fold_left
    (fun nums '(val, count) =>
       if (max_degree <=? count)%nat then filter (fun x => x ≠ val) nums
       else nums)
    (numpy.unique_counts prufer_sequence) nums.

Definition add_counts (prufer_sequence nums : list nat) (proba : list Z)
  : list Z :=
  fold_left
    (fun proba '(val, count) =>
       zip_with (fun x p => if decide (x = val) then (p + Z.of_nat count)%Z else p)
         nums proba)
    (numpy.unique_counts prufer_sequence) proba.

(** [while len(prufer_sequence) < n]: every turn appends one number, so
    [n] turns are enough; [None] stands for a loop cut short. *)
Fixpoint sample_sequence (turns : nat) (n max_degree : nat) (degreeness : Z)
  (nums prufer_sequence : list nat) (g : numpy.RandomState)
  : option (result (list nat * numpy.RandomState)) :=
  if (length prufer_sequence <? n)%nat then
    match turns with
    | O => None
    | Datatypes.S turns' =>
        let nums := delete_saturated max_degree prufer_sequence nums in
        let proba := map (fun _ => 1%Z) nums in
        let proba := add_counts prufer_sequence nums proba in
        match numpy.power proba degreeness with
        | Raise e => Some (Raise e)
        | Ok proba =>
            match numpy.choice nums proba (numpy.sum proba) g with
            | Raise e => Some (Raise e)
            | Ok (num, g) =>
                sample_sequence turns' n max_degree degreeness nums
                  (prufer_sequence ++ [num]) g
            end
        end
    end
  else Some (Ok (prufer_sequence, g)).

(** [n] and [max_degree] are taken as natural numbers, [degreeness] as any
    integer; [g] is the state of the global generator at the call. *)
Definition generate_random_tree_with_prior_on_arity (n max_degree : nat)
  (degreeness : Z) (g : numpy.RandomState) : option (result networkx.Graph) :=
  let nums := seq 1 n in
  let prufer_sequence := [0] in
  match sample_sequence n n max_degree degreeness nums prufer_sequence g with
  | None => None
  | Some (Raise e) => Some (Raise e)
  | Some (Ok (prufer_sequence, g)) =>
      let '(prufer_sequence, g) := numpy.shuffle prufer_sequence g in
      let prufer_sequence := take n prufer_sequence in
      Some (T ← networkx.from_prufer_sequence prufer_sequence;
            Ok (networkx.bfs_tree T 0))
  end.

(** *** Text scanning

    [re.sub] with a pattern that denotes one literal text, and
    [str.replace], both scan left to right and never look again at text
    that was part of a match.  [skip] counts the characters of the current
    match still to be dropped. *)

Fixpoint contains (pat s : string) : bool :=
  String.prefix pat s ||
  match s with
  | EmptyString => false
  | String _ s' => contains pat s'
  end.

Fixpoint sub_literal {S : Type} (pat : string) (repl : S -> string * S)
  (skip : nat) (st : S) (s : string) : string :=
  match s with
  | EmptyString => EmptyString
  | String c s' =>
      match skip with
      | Datatypes.S k => sub_literal pat repl k st s'
      | O =>
          if String.prefix pat s then
            let '(r, st') := repl st in
            r +:+ sub_literal pat repl (String.length pat - 1) st' s'
          else String c (sub_literal pat repl 0 st s')
      end
  end.

(** [s.replace(old, new)] for a non-empty [old]. *)
Definition str_replace (old new s : string) : string :=
  sub_literal old (fun _ : unit => (new, tt)) 0 tt s.

(** [str(n)] on a non-negative [int]. *)
Definition str_nat (n : nat) : string :=
  NilEmpty.string_of_uint (Nat.to_uint n).

(** The capture of [(.*?)\)]: the text up to the first closing
    parenthesis, if one comes before the end of the line. *)
Fixpoint until_paren (s : string) : option string :=
  match s with
  | EmptyString => None
  | String c s' =>
      if Ascii.eqb c ")" then Some EmptyString
      else if Ascii.eqb c "010" then None
      else String c <$> until_paren s'
  end.

(** [re.findall(r'Symbol\((.*?)\)', s)] *)
Fixpoint findall_symbol (skip : nat) (s : string) : list string :=
  match s with
  | EmptyString => []
  | String c s' =>
      match skip with
      | Datatypes.S k => findall_symbol k s'
      | O =>
          if String.prefix "Symbol(" s then
            match until_paren (String.substring 7 (String.length s - 7) s) with
            | Some g => g :: findall_symbol (7 + String.length g) s'
            | None => findall_symbol 0 s'
            end
          else findall_symbol 0 s'
      end
  end.

(** *** Constant enumeration *)

Record _EnumerateConstant : Type := { const_counter : nat }.

Definition _EnumerateConstant__init__ : _EnumerateConstant :=
  {| const_counter := 0 |}.

(** [__call__]; the match object is not looked at. *)
Definition _EnumerateConstant__call__ (self : _EnumerateConstant)
  : string * _EnumerateConstant :=
  let const := construct_symbol (CONST_BASE_NAME +:+ str_nat (const_counter self)) in
  (const, {| const_counter := const_counter self + 1 |}).

(** The text matched by [r"Symbol\('{}'\)".format(CONST_BASE_NAME)]. *)
Definition const_pattern : string := "Symbol('" +:+ CONST_BASE_NAME +:+ "')".

Definition enumerate_constants_in_expression (expr : string) : string :=
  let enumerate_constants := _EnumerateConstant__init__ in
  sub_literal const_pattern _EnumerateConstant__call__ 0 enumerate_constants expr.

(** [Symbol('const{i}')] *)
Definition numbered (i : nat) : string :=
  construct_symbol (CONST_BASE_NAME +:+ str_nat i).

(** A text cut at occurrences of the pattern: [t0 pat t1 pat ... tk], and
    the same pieces with the numbered symbols [i], [i+1], ... in
    between. *)
Fixpoint join_pattern (t0 : string) (ts : list string) : string :=
  match ts with
  | [] => t0
  | t :: ts' => t0 +:+ const_pattern +:+ join_pattern t ts'
  end.

Fixpoint join_numbered (i : nat) (t0 : string) (ts : list string) : string :=
  match ts with
  | [] => t0
  | t :: ts' => t0 +:+ numbered i +:+ join_numbered (Datatypes.S i) t ts'
  end.

(** The offsets, counted from [i], at which [pat] occurs in [s], and the
    offsets of the cuts of [join_pattern t0 ts]. *)
Fixpoint occurrences (pat s : string) (i : nat) : list nat :=
  (if String.prefix pat s then [i] else []) ++
  match s with
  | EmptyString => []
  | String _ s' => occurrences pat s' (Datatypes.S i)
  end.

Fixpoint seams (i : nat) (t0 : string) (ts : list string) : list nat :=
  match ts with
  | [] => []
  | t :: ts' =>
      (i + String.length t0) ::
      seams (i + String.length t0 + String.length const_pattern) t ts'
  end.

(** *** Labelled trees *)

(** A tree-shaped [DiGraph] whose nodes carry the attribute [expr]:
    the node, [D.nodes[node]['expr']] and the subtrees of [D[node]] in
    edge order. *)
Inductive tree : Type :=
| Tree (node : Z) (expr : string) (children : list tree).

Definition tree_node (t : tree) : Z := match t with Tree n _ _ => n end.
Definition tree_expr (t : tree) : string := match t with Tree _ l _ => l end.
Definition tree_children (t : tree) : list tree := match t with Tree _ _ c => c end.

(** The nodes of a tree, the root first. *)
Fixpoint node_numbers (t : tree) : list Z :=
  match t with
  | Tree n _ c => n :: flat_map node_numbers c
  end.

(** What a call returns: a string below the root, an expression at it. *)
Inductive str_or_expr : Type :=
| OfStr (s : string)
| OfExpr (e : Sympy.expr).

Section GraphToExpression.

(** [sympy.sympify] (on a string, or on an expression, which it gives
    back), [sympy.simplify] and [sympy.srepr]. *)
Variable sympify : string -> result Sympy.expr.
Variable simplify : Sympy.expr -> Sympy.expr.
Variable srepr : Sympy.expr -> string.

(** An item of [",".join(...)] has to be a [str]. *)
Definition join_item (v : str_or_expr) : result string :=
  match v with
  | OfStr s => Ok s
  | OfExpr _ => Raise TypeError
  end.

Fixpoint join_items (l : list str_or_expr) : result (list string) :=
  match l with
  | [] => Ok []
  | v :: l' => s ← join_item v; ss ← join_items l'; Ok (s :: ss)
  end.

Definition sympify_any (v : str_or_expr) : result Sympy.expr :=
  match v with
  | OfStr s => sympify s
  | OfExpr e => Ok e
  end.

(** The rewriting of a freshly built call: if it mentions symbols and
    all of them are constants, it becomes the one constant. *)
Definition fold_constants (expr : string) : string :=
  let symbols := findall_symbol 0 expr in
  if negb (Nat.eqb (length symbols) 0)
     && forallb (fun symbol => contains CONST_BASE_NAME symbol) symbols
  then construct_symbol CONST_BASE_NAME
  else expr.

(** The steps taken at [node == 0]. *)
Definition at_root (expr : str_or_expr) : result Sympy.expr :=
  e ← sympify_any expr;
  let expr := simplify e in
  let expr := enumerate_constants_in_expression (srepr expr) in
  e' ← sympify expr;
  Ok (simplify e').

Fixpoint graph_to_expression (D : tree) : result str_or_expr :=
  match D with
  | Tree node label children =>
      expr ←
        match children with
        | [] => Ok (OfStr label)
        | first_child :: _ =>
            if negb (String.eqb label "") then
              vals ← collect (map graph_to_expression children);
              subs ← join_items vals;
              let expr := label +:+ "(" +:+ String.concat "," subs +:+ ")" in
              Ok (OfStr (fold_constants expr))
            else graph_to_expression first_child
        end;
      if (node =? 0)%Z then OfExpr <$> at_root expr else Ok expr
  end.

End GraphToExpression.

(** *** [expr_to_tree] *)

Section ExprToTree.

Import networkx.

(** [str] on an expression, and the call [expr.is_constant()].  The
    method belongs to [Expr]: on a node that is a [Basic] but no [Expr]
    (an equation, a set, a truth value) the attribute is missing and the
    call raises [AttributeError].  What it returns is used as a truth
    value. *)
Variable str : expr -> string.
Variable expr_is_constant : expr -> result bool.

(** The call with [D] and [node] given, as the recursive calls give
    them; [node] is a number that is not negative.  The pair returned is
    the graph and the last node used. *)
Fixpoint expr_to_tree_at (expr : expr) (D : DiGraph.t) (node : nat)
  : result (DiGraph.t * nat) :=
  match expr with
  | Basic n args =>
      D ←
        (if func_is_symbol n then
           Ok (DiGraph.add_node node ("Symbol('" +:+ name n +:+ "')") D)
         else if is_Function n || is_Add n || is_Mul n || is_Pow n then
           Ok (DiGraph.add_node node (type_name n) D)
         else
           c ← expr_is_constant expr;
           if (c : bool) then Ok (DiGraph.add_node node (str expr) D) else Ok D);
      let parent_node := node in
      for_each
        (fun (st : DiGraph.t * nat) child =>
           let '(D, node) := st in
           expr_to_tree_at child
             (DiGraph.add_edge parent_node (node + 1) D) (node + 1))
        (D, node) args
  end.

(** The call with the defaults, [D=None] and [node=None]. *)
Definition expr_to_tree (expr : expr) : result (DiGraph.t * nat) :=
  expr_to_tree_at expr DiGraph.empty 0.

(** One turn of the loop over the arguments, and the chain before it. *)
Definition visit_child (parent_node : nat) (st : DiGraph.t * nat)
  (child : expr) : result (DiGraph.t * nat) :=
  let '(D, node) := st in
  expr_to_tree_at child (DiGraph.add_edge parent_node (node + 1) D) (node + 1).

Definition set_label (e : expr) (D : DiGraph.t) (node : nat)
  : result DiGraph.t :=
  let n := head e in
  if func_is_symbol n then
    Ok (DiGraph.add_node node ("Symbol('" +:+ name n +:+ "')") D)
  else if is_Function n || is_Add n || is_Mul n || is_Pow n then
    Ok (DiGraph.add_node node (type_name n) D)
  else
    c ← expr_is_constant e;
    if (c : bool) then Ok (DiGraph.add_node node (str e) D) else Ok D.

(** The attribute that the chain of [expr_to_tree] gives a node, if any
    of its branches applies, and whether the chain gets through the node
    without an exception. *)
Definition tree_label (e : expr) : option string :=
  let n := head e in
  if func_is_symbol n then Some ("Symbol('" +:+ name n +:+ "')")
  else if is_operator n then Some (type_name n)
  else match expr_is_constant e with
       | Ok true => Some (str e)
       | _ => None
       end.

Definition chain_returns (e : expr) : bool :=
  let n := head e in
  func_is_symbol n || is_operator n || is_ok (expr_is_constant e).

End ExprToTree.

(** The number of nodes of an expression. *)
Definition node_count (e : expr) : nat := length (preorder_traversal e).

End equations_utils.

(** ** equations_base.py *)

Module equations_base.

Import equations_settings equations_utils.

(** *** NumPy values *)

(** A Python float, or a one-dimensional array of floats. *)
Inductive ndarray : Type :=
| Scalar (x : float)
| Array (l : list float).

(** A two-dimensional array: [X.shape[1]] and the rows. *)
Record matrix : Type := { n_cols : nat; rows : list (list float) }.

(** [l[i]] with Python's negative indices. *)
Definition getitem {A : Type} (l : list A) (i : Z) : result A :=
  let n := Z.of_nat (length l) in
  let j := if (i <? 0)%Z then (i + n)%Z else i in
  if ((0 <=? j) && (j <? n))%Z then
    match l !! Z.to_nat j with
    | Some x => Ok x
    | None => Raise IndexError
    end
  else Raise IndexError.

(** [X[:, i]] *)
Definition column (X : matrix) (i : Z) : result ndarray :=
  let n := Z.of_nat (n_cols X) in
  let j := if (i <? 0)%Z then (i + n)%Z else i in
  if ((0 <=? j) && (j <? n))%Z then
    Array <$> collect (map (fun row => getitem row j) (rows X))
  else Raise IndexError.

(** [constants[i]], where [constants] may be [None]. *)
Definition constants_getitem (constants : option (list float)) (i : Z)
  : result float :=
  match constants with
  | None => Raise TypeError
  | Some l => getitem l i
  end.

(** Elementwise arithmetic with broadcasting. *)
Definition broadcast (op : float -> float -> float) (a b : ndarray)
  : result ndarray :=
  match a, b with
  | Scalar x, Scalar y => Ok (Scalar (op x y))
  | Scalar x, Array l => Ok (Array (map (op x) l))
  | Array l, Scalar y => Ok (Array (map (fun x => op x y) l))
  | Array l1, Array l2 =>
      if Nat.eqb (length l1) (length l2) then Ok (Array (zip_with op l1 l2))
      else match l1, l2 with
           | [x], _ => Ok (Array (map (op x) l2))
           | _, [y] => Ok (Array (map (fun x => op x y) l1))
           | _, _ => Raise ValueError
           end
  end.

(** *** [int(s)] *)

Definition is_space (c : ascii) : bool :=
  match c with
  | "009" | "010" | "011" | "012" | "013" | "028" | "029" | "030" | "031"
  | " " => true
  | _ => false
  end%char.

Fixpoint lstrip (l : list ascii) : list ascii :=
  match l with
  | c :: l' => if is_space c then lstrip l' else l
  | [] => []
  end.

Definition strip (l : list ascii) : list ascii :=
  List.rev (lstrip (List.rev (lstrip l))).

(** Decimal digits, single underscores allowed between two digits. *)
Fixpoint digits (acc : Z) (after_digit : bool) (l : list ascii) : option Z :=
  match l with
  | [] => if after_digit then Some acc else None
  | c :: l' =>
      match Ascii.is_nat c with
      | Some d => digits (10 * acc + Z.of_nat d) true l'
      | None =>
          if Ascii.eqb c "_" && after_digit then digits acc false l' else None
      end
  end.

Definition int (s : string) : result Z :=
  let l := strip (String.list_ascii_of_string s) in
  let parsed :=
    match l with
    | "-"%char :: l' => Z.opp <$> digits 0 false l'
    | "+"%char :: l' => digits 0 false l'
    | _ => digits 0 false l
    end in
  match parsed with
  | Some z => Ok z
  | None => Raise ValueError
  end.

(** *** Symbols of an expression *)

(** [expr.atoms()]: the leaves, here in traversal order. *)
Fixpoint atoms (e : expr) : list node :=
  match e with
  | Basic n [] => [n]
  | Basic n l => flat_map atoms l
  end.

(** Symbols are compared by name; a set holds each once. *)
Definition symbol_names (keep : node -> bool) (e : expr) : list string :=
  remove_dups (map name (filter (fun x => keep x = true) (atoms e))).

Section Wrapper.

(** [snp.Derivative(expr, symbol, evaluate=True)], the NumPy function
    that the generated code calls for a node that is neither a sum nor a
    product, and the re-evaluation of a node that [subs] performs
    where an argument has changed. *)
Variable Derivative : expr -> string -> expr.
Variable numpy_function : string -> list ndarray -> result ndarray.
Variable rebuild : node -> list expr -> expr.

(** [lambdify(args, expr)]: the parameter names and the body. *)
Record lambdified : Type := { params : list string; body : expr }.

Definition lambdify (args : list string) (e : expr) : lambdified :=
  {| params := args; body := e |}.

Record BaseEquation : Type := {
  _expr : expr;
  _lambdified_expr : lambdified;
  _const_derivatives : gmap string lambdified;
  _free_variable_derivatives : gmap string lambdified;
}.

Definition free_variables_of (e : expr) : list string :=
  symbol_names (fun x => func_is_symbol x && negb (contains CONST_BASE_NAME (name x))) e.

Definition variables_of (e : expr) : list string :=
  symbol_names (fun x => func_is_symbol x) e.

Definition constants_of (e : expr) : list string :=
  symbol_names (fun x => func_is_symbol x && contains CONST_BASE_NAME (name x)) e.

Definition free_variables (self : BaseEquation) : list string :=
  free_variables_of (_expr self).
Definition variables (self : BaseEquation) : list string :=
  variables_of (_expr self).
Definition constants (self : BaseEquation) : list string :=
  constants_of (_expr self).

Definition derivatives (e : expr) (wrt : list string) : gmap string lambdified :=
  fold_left
    (fun d v => <[v := lambdify (variables_of e) (Derivative e v)]> d)
    wrt ∅.

Definition __init__ (e : expr) : BaseEquation :=
  {| _expr := e;
     _lambdified_expr := lambdify (variables_of e) e;
     _const_derivatives := derivatives e (constants_of e);
     _free_variable_derivatives := derivatives e (free_variables_of e) |}.

Definition numpy_to_sympy_array (X : matrix) (equation : BaseEquation)
  : result (gmap string ndarray) :=
  for_each
    (fun X_sympy variable =>
       i ← int (str_replace "x" "" variable);
       col ← column X i;
       Ok (<[variable := col]> X_sympy))
    ∅ (free_variables equation).

Definition numpy_to_sympy_constants (constants_arg : option (list float))
  (equation : BaseEquation) : result (gmap string float) :=
  for_each
    (fun constants_sympy constant =>
       i ← int (str_replace CONST_BASE_NAME "" constant);
       c ← constants_getitem constants_arg i;
       Ok (<[constant := c]> constants_sympy))
    ∅ (constants equation).

(** The generated function, on the values bound to its parameters. *)
Fixpoint evaluate (env : gmap string ndarray) (e : expr) : result ndarray :=
  match e with
  | Basic n l =>
      let vals :=
        (fix go (l : list expr) : result (list ndarray) :=
           match l with
           | [] => Ok []
           | a :: l' => v ← evaluate env a; vs ← go l'; Ok (v :: vs)
           end) l in
      if func_is_symbol n then
        match env !! name n with
        | Some v => Ok v
        | None => Raise KeyError
        end
      else if is_Add n then
        vs ← vals;
        match vs with
        | [] => Ok (Scalar 0%float)
        | v :: vs' => for_each (broadcast PrimFloat.add) v vs'
        end
      else if is_Mul n then
        vs ← vals;
        match vs with
        | [] => Ok (Scalar 1%float)
        | v :: vs' => for_each (broadcast PrimFloat.mul) v vs'
        end
      else
        match l with
        | [] => Scalar <$> as_float n
        | _ => vs ← vals; numpy_function (type_name n) vs
        end
  end.

(** The call with both dicts as keyword arguments: a name given twice,
    a parameter left without a value and a name that is no parameter are
    errors. *)
Definition call_lambdified (f : lambdified) (X_sympy : gmap string ndarray)
  (constants_sympy : gmap string float) : result ndarray :=
  let kwargs := X_sympy ∪ (Scalar <$> constants_sympy) in
  if bool_decide (dom X_sympy ∩ dom constants_sympy = (∅ : gset string))
     && bool_decide (dom kwargs = list_to_set (params f))
  then evaluate kwargs (body f)
  else Raise TypeError.

(** [expr.subs(d)] for a dict from names to numbers. *)
Fixpoint subs_rec (d : gmap string float) (e : expr) : expr * bool :=
  match e with
  | Basic n l =>
      if func_is_symbol n then
        match d !! name n with
        | Some v => (Float v, true)
        | None => (e, false)
        end
      else
        let rs := map (subs_rec d) l in
        if existsb snd rs then (rebuild n (map fst rs), true) else (e, false)
  end.

Definition expr_subs (e : expr) (d : gmap string float) : expr :=
  fst (subs_rec d e).

Definition subs (self : BaseEquation) (constants_arg : option (list float))
  : result expr :=
  constants_sympy ← numpy_to_sympy_constants constants_arg self;
  Ok (expr_subs (_expr self) constants_sympy).

Definition derivative_wrt_constants (self : BaseEquation) (X : matrix)
  (constants_arg : option (list float)) : result (list ndarray) :=
  X_sympy ← numpy_to_sympy_array X self;
  constants_sympy ← numpy_to_sympy_constants constants_arg self;
  for_each
    (fun derivatives const =>
       match _const_derivatives self !! const with
       | Some f =>
           v ← call_lambdified f X_sympy constants_sympy;
           Ok (derivatives ++ [v])
       | None => Raise KeyError
       end)
    [] (constants self).

(** [return NotImplemented("")] *)
Definition derivative_wrt_x (self : BaseEquation) (X : matrix)
  (constants_arg : option (list float)) : result value :=
  call VNotImplemented [VStr ""].

Definition func (self : BaseEquation) (X : matrix)
  (constants_arg : option (list float)) : result ndarray :=
  X_sympy ← numpy_to_sympy_array X self;
  constants_sympy ← numpy_to_sympy_constants constants_arg self;
  call_lambdified (_lambdified_expr self) X_sympy constants_sympy.

End Wrapper.

End equations_base.

(** * Properties *)

(** ** Loops and expressions *)

Section LoopFacts.
Context {S A : Type}.

Lemma for_each_app (body : S -> A -> result S) st l1 l2 :
  for_each body st (l1 ++ l2) =
  st' ← for_each body st l1; for_each body st' l2.
Proof.
  revert st; induction l1 as [|x l1 IH]; intros st; simpl; [reflexivity|].
  destruct (body st x) as [st'|e]; simpl; [apply IH | reflexivity].
Qed.

End LoopFacts.

Lemma bind_Ok {A B : Type} (a : A) (k : A -> result B) : (Ok a ≫= k) = k a.
Proof. reflexivity. Qed.

(** Induction over an expression and all its arguments. *)
Lemma expr_rect' (P : expr -> Prop) :
  (forall n l, Forall P l -> P (Basic n l)) -> forall e, P e.
Proof.
  intros step. fix IH 1. intros [n l]. apply step.
  induction l as [|a l IHl]; constructor; [apply IH | exact IHl].
Qed.

(** ** Token sequences *)

Section PostfixFacts.

Import equations_utils.

Variable str_float : float -> string.
Variable sympify : string -> result expr.

(** The visit of one node adds one arity, and one token exactly when one
    of the three branches of the chain applies. *)
Lemma visit_lengths toks arities e toks' arities' :
  visit (toks, arities) e = Ok (toks', arities') ->
  length arities' = Datatypes.S (length arities) /\
  length toks' = if covered (head e) then Datatypes.S (length toks) else length toks.
Proof.
  unfold visit, covered, is_operator.
  destruct (func_is_symbol (head e)); simpl.
  { intros [= <- <-]. rewrite !length_app; simpl; lia. }
  destruct (is_Function (head e) || is_Add (head e) || is_Mul (head e)
            || is_Pow (head e)); simpl.
  { intros [= <- <-]. rewrite !length_app; simpl; lia. }
  destruct (is_constant (head e)); simpl.
  - destruct (as_float (head e)); simpl; [|discriminate].
    intros [= <- <-]. rewrite !length_app; simpl; lia.
  - intros [= <- <-]. rewrite !length_app; simpl; lia.
Qed.

(** Over nodes that all fall under the chain, both sequences grow
    together. *)
Lemma for_each_visit_lengths l : forall toks arities toks' arities',
  Forall (fun e => covered (head e) = true) l ->
  for_each visit (toks, arities) l = Ok (toks', arities') ->
  length toks = length arities ->
  length toks' = length arities'.
Proof.
  induction l as [|e l IH]; intros toks arities toks' arities' Hall;
    cbn [for_each].
  - intros [= <- <-]; auto.
  - inversion Hall as [|? ? He Hl]; subst.
    destruct (visit (toks, arities) e) as [[t1 a1]|] eqn:Hv; simpl; [|discriminate].
    intros Hrun Hlen. apply visit_lengths in Hv as [Ha Ht].
    rewrite He in Ht. eapply IH; eauto. lia.
Qed.

(** *** What the reduction rebuilds

    For a plain expression the postfix sequence has a token per arity and
    reduces to exactly one stack item, the call text of the expression;
    [postfix_to_expr] then hands that text to the parser. *)

Lemma visit_plain toks arities n l :
  (if func_is_symbol n then is_nil l
   else if is_operator n then negb (is_nil l)
   else is_constant n && is_nil l && is_ok (as_float n)) = true ->
  visit (toks, arities) (Basic n l) =
  Ok (toks ++ [token_of n], arities ++ [Z.of_nat (length l)]).
Proof.
  unfold visit, token_of, is_operator. cbn [head args].
  destruct (func_is_symbol n); [reflexivity|].
  destruct (is_Function n || is_Add n || is_Mul n || is_Pow n); [reflexivity|].
  intros H. apply andb_true_iff in H as [H Hok].
  apply andb_true_iff in H as [Hc _]. rewrite Hc.
  destruct (as_float n); [reflexivity | discriminate].
Qed.

Lemma traverse_plain e :
  plain e = true ->
  forall toks arities,
    for_each visit (toks, arities) (postorder_traversal e) =
    Ok (toks ++ map fst (postfix_pairs e), arities ++ map snd (postfix_pairs e)).
Proof.
  induction e as [n l IH] using expr_rect'. intros Hp toks arities.
  cbn [plain] in Hp. apply andb_true_iff in Hp as [Hl Hn].
  cbn [postorder_traversal postfix_pairs]. rewrite for_each_app.
  assert (Hargs : forall toks arities,
    for_each visit (toks, arities) (flat_map postorder_traversal l) =
    Ok (toks ++ map fst (flat_map postfix_pairs l),
        arities ++ map snd (flat_map postfix_pairs l))).
  { clear Hn. induction IH as [|a l Ha _ IHl]; intros t r; cbn [flat_map].
    - cbn [map for_each]. rewrite !app_nil_r. reflexivity.
    - cbn [forallb] in Hl. apply andb_true_iff in Hl as [Hpa Hl].
      rewrite for_each_app, (Ha Hpa), bind_Ok, (IHl Hl), !map_app, !app_assoc.
      reflexivity. }
  rewrite Hargs, bind_Ok. cbn [for_each]. rewrite (visit_plain _ _ _ _ Hn), bind_Ok.
  rewrite !map_app, !app_assoc. reflexivity.
Qed.

Lemma pop_snoc {A : Type} (l : list A) x : pop (l ++ [x]) = Ok (x, l).
Proof. unfold pop. rewrite rev_app_distr. cbn. rewrite rev_involutive. reflexivity. Qed.

Lemma pop_into_all xs : forall stack stack_temporary,
  pop_into (length xs) (stack ++ xs) stack_temporary =
  Ok (stack, stack_temporary ++ List.rev xs).
Proof.
  induction xs as [|x xs IH] using rev_ind; intros stack tmp.
  - cbn. rewrite !app_nil_r. reflexivity.
  - rewrite length_app, Nat.add_1_r. cbn [pop_into length].
    rewrite app_assoc, pop_snoc, bind_Ok, IH, rev_app_distr, <- app_assoc.
    reflexivity.
Qed.

Lemma reduce_plain e :
  plain e = true ->
  forall stack,
    for_each (reduce_step str_float) stack (postfix_pairs e) =
    Ok (stack ++ [serialize str_float e]).
Proof.
  induction e as [n l IH] using expr_rect'. intros Hp stack.
  cbn [plain] in Hp. apply andb_true_iff in Hp as [Hl Hn].
  cbn [postfix_pairs]. rewrite for_each_app.
  assert (Hargs : forall stack,
    for_each (reduce_step str_float) stack (flat_map postfix_pairs l) =
    Ok (stack ++ map (serialize str_float) l)).
  { clear Hn. induction IH as [|a l Ha _ IHl]; intros st; cbn [flat_map map].
    - cbn [for_each]. rewrite app_nil_r. reflexivity.
    - cbn [forallb] in Hl. apply andb_true_iff in Hl as [Hpa Hl].
      rewrite for_each_app, (Ha Hpa), bind_Ok, (IHl Hl), <- app_assoc.
      reflexivity. }
  rewrite Hargs, bind_Ok. cbn [for_each]. unfold reduce_step.
  destruct l as [|a l].
  - cbn [length map serialize]. rewrite app_nil_r. reflexivity.
  - destruct (Z.eqb_spec (Z.of_nat (length (a :: l))) 0) as [E|_];
      [cbn [length] in E; lia|].
    rewrite Nat2Z.id, <- (length_map (serialize str_float) (a :: l)).
    rewrite pop_into_all, bind_Ok. cbn [app]. rewrite rev_involutive.
    assert (Etok : token_of n = TStr (type_name n)).
    { unfold token_of. cbn [is_nil negb] in Hn.
      destruct (func_is_symbol n); [discriminate|].
      destruct (is_operator n); [reflexivity|].
      rewrite andb_false_r in Hn. discriminate. }
    rewrite Etok. reflexivity.
Qed.

Lemma combine_fst_snd {A B : Type} (p : list (A * B)) :
  combine (map fst p) (map snd p) = p.
Proof. induction p as [|[a b] p IH]; cbn; [reflexivity | now rewrite IH]. Qed.

Theorem postfix_rebuilds_text e :
  plain e = true ->
  exists post post_arity,
    expr_to_postfix e = Ok (post, post_arity) /\
    length post = length post_arity /\
    reduce str_float post post_arity = Ok [serialize str_float e] /\
    postfix_to_expr str_float sympify post post_arity =
    sympify (serialize str_float e).
Proof.
  intros Hp. exists (map fst (postfix_pairs e)), (map snd (postfix_pairs e)).
  assert (Hred : reduce str_float (map fst (postfix_pairs e))
                   (map snd (postfix_pairs e)) = Ok [serialize str_float e]).
  { unfold reduce. rewrite combine_fst_snd. apply (reduce_plain e Hp []). }
  split; [apply (traverse_plain e Hp [] [])|].
  split; [rewrite !length_map; reflexivity|].
  split; [exact Hred|].
  unfold postfix_to_expr. rewrite Hred. reflexivity.
Qed.

(** C6, at an expression with a node that no branch of the chain covers:
    [UnevaluatedExpr(Symbol('x0'))] yields one token and two arities, in
    postfix and in infix order alike. *)
Theorem expr_to_postfix_unevaluated_lengths_differ :
  expr_to_postfix (UnevaluatedExpr (Symbol "x0")) = Ok ([TStr "x0"], [0; 1]%Z) /\
  expr_to_infix (UnevaluatedExpr (Symbol "x0")) = Ok ([TStr "x0"], [1; 0]%Z).
Proof. split; reflexivity. Qed.

(** C10: when the reduction of a token/arity sequence ends with more than
    one item on the stack, [postfix_to_expr] is the parse of the bottom
    item, the one pushed earliest, and the items above it play no part. *)
Theorem postfix_to_expr_surplus_items post post_arity stack :
  reduce str_float post post_arity = Ok stack ->
  (1 < length stack)%nat ->
  exists s rest,
    stack = s :: rest /\ rest <> [] /\
    postfix_to_expr str_float sympify post post_arity = sympify s.
Proof.
  intros Hred Hlen. destruct stack as [|s rest]; simpl in Hlen; [lia|].
  exists s, rest. split; [reflexivity|]. split.
  - destruct rest; simpl in Hlen; [lia | discriminate].
  - unfold postfix_to_expr. rewrite Hred. reflexivity.
Qed.

End PostfixFacts.

Lemma postfix_to_expr_surplus_items_witness :
  exists s rest,
    ["Symbol('x0')"; "Symbol('x1')"] = s :: rest /\ rest <> [] /\
    equations_utils.postfix_to_expr (fun _ => "") (fun s => Ok (Symbol s))
      [equations_utils.TStr "x0"; equations_utils.TStr "x1"] [0; 0]%Z
    = Ok (Symbol s).
Proof.
  apply (postfix_to_expr_surplus_items (fun _ => "") (fun s => Ok (Symbol s))
           [equations_utils.TStr "x0"; equations_utils.TStr "x1"] [0; 0]%Z);
    [reflexivity | simpl; lia].
Defined.

(** ** The tree-to-expression conversion *)

Section GraphFacts.

Import equations_utils.

Variable sympify : string -> result expr.
Variable simplify : expr -> expr.
Variable srepr : expr -> string.

Abbreviation graph_to_expression := (graph_to_expression sympify simplify srepr).
Abbreviation at_root := (at_root sympify simplify srepr).

(** Induction over a tree and all its subtrees. *)
Lemma tree_rect' (P : tree -> Prop) :
  (forall n label c, Forall P c -> P (Tree n label c)) -> forall t, P t.
Proof.
  intros step. fix IH 1. intros [n label c]. apply step.
  induction c as [|a c IHc]; constructor; [apply IH | exact IHc].
Qed.

Lemma join_items_strings ss : join_items (map OfStr ss) = Ok ss.
Proof.
  induction ss as [|x ss IH]; [reflexivity|].
  cbn [map join_items join_item]. rewrite bind_Ok, IH. reflexivity.
Qed.

(** A subtree in which no node is numbered 0 is converted without any
    call into SymPy and without an exception: the result is a string. *)
Lemma below_root_returns D :
  0%Z ∉ node_numbers D -> exists s, graph_to_expression D = Ok (OfStr s).
Proof.
  induction D as [n label c IH] using tree_rect'.
  cbn [node_numbers]. rewrite not_elem_of_cons. intros [Hn Hc].
  assert (Hvals : exists ss,
    collect (map graph_to_expression c) = Ok (map OfStr ss)).
  { clear Hn. induction IH as [|a c Ha _ IHc].
    - exists []. reflexivity.
    - cbn [flat_map] in Hc. rewrite not_elem_of_app in Hc.
      destruct Hc as [Hna Hnc].
      destruct (Ha Hna) as [x Hx]. destruct (IHc Hnc) as [ss Hss].
      exists (x :: ss). cbn [map collect]. rewrite Hx, bind_Ok, Hss.
      reflexivity. }
  cbn [equations_utils.graph_to_expression].
  destruct (Z.eqb_spec n 0) as [E|_]; [congruence|].
  destruct c as [|first_child c]; [eexists; reflexivity|].
  destruct (negb (String.eqb label "")).
  - destruct Hvals as [ss Hss]. rewrite Hss, bind_Ok.
    rewrite join_items_strings, !bind_Ok. eexists. reflexivity.
  - inversion IH as [|? ? Hfirst _]; subst.
    cbn [flat_map] in Hc. rewrite not_elem_of_app in Hc.
    destruct (Hfirst (proj1 Hc)) as [x Hx]. rewrite Hx, bind_Ok.
    eexists. reflexivity.
Qed.

(** C9: at a node with the empty label and two or more children, the
    first child, in which no node is numbered 0, is converted to a string
    without an exception, and the node yields this string (put through
    the root steps when the node is 0).  The other children are never
    visited: whatever they hold, including subtrees whose conversion
    would raise, they make no difference and no exception comes from
    them. *)
Theorem graph_to_expression_empty_label node first_child second others :
  0%Z ∉ node_numbers first_child ->
  exists s,
    graph_to_expression first_child = Ok (OfStr s) /\
    graph_to_expression (Tree node "" (first_child :: second :: others)) =
    (if (node =? 0)%Z then OfExpr <$> at_root (OfStr s) else Ok (OfStr s)).
Proof.
  intros Hfirst. destruct (below_root_returns first_child Hfirst) as [s Hs].
  exists s. split; [exact Hs|].
  cbn [equations_utils.graph_to_expression String.eqb negb].
  rewrite Hs, bind_Ok. reflexivity.
Qed.

(** Below the root this is the first child's string itself. *)
Lemma empty_label_below_root node first_child others :
  node <> 0%Z ->
  graph_to_expression (Tree node "" (first_child :: others)) =
  graph_to_expression first_child.
Proof.
  intros Hnode. cbn [equations_utils.graph_to_expression].
  destruct (Z.eqb_spec node 0) as [?|_]; [contradiction|].
  cbn. destruct (graph_to_expression first_child); reflexivity.
Qed.

End GraphFacts.

Lemma graph_to_expression_empty_label_witness :
  exists s,
    equations_utils.graph_to_expression
      (fun s => Ok (Symbol s)) (fun e => e) (fun _ => "")
      (equations_utils.Tree 2 "Symbol('x0')" [])
    = Ok (equations_utils.OfStr s) /\
    equations_utils.graph_to_expression
      (fun s => Ok (Symbol s)) (fun e => e) (fun _ => "")
      (equations_utils.Tree 1 ""
         [equations_utils.Tree 2 "Symbol('x0')" [];
          equations_utils.Tree 3 "Symbol('x1')" [];
          equations_utils.Tree 4 "Symbol('x2')" []])
    = (if (1 =? 0)%Z
       then equations_utils.OfExpr <$>
            equations_utils.at_root
              (fun s => Ok (Symbol s)) (fun e => e) (fun _ => "")
              (equations_utils.OfStr s)
       else Ok (equations_utils.OfStr s)).
Proof.
  apply (graph_to_expression_empty_label
           (fun s => Ok (Symbol s)) (fun e => e) (fun _ => "") 1
           (equations_utils.Tree 2 "Symbol('x0')" [])).
  cbn. intros H. apply list_elem_of_singleton in H. discriminate H.
Defined.

(** ** The equation wrapper *)

Section WrapperFacts.

Import equations_settings equations_utils equations_base.

Variable Derivative : expr -> string -> expr.
Variable numpy_function : string -> list ndarray -> result ndarray.
Variable rebuild : node -> list expr -> expr.

(** Substituting nothing leaves every node as it is. *)
Lemma subs_rec_empty e : subs_rec rebuild ∅ e = (e, false).
Proof.
  induction e as [n l IH] using expr_rect'. cbn [subs_rec].
  destruct (func_is_symbol n).
  - rewrite lookup_empty. reflexivity.
  - assert (Hex : existsb snd (map (subs_rec rebuild ∅) l) = false).
    { induction IH as [|a l Ha _ IHl]; [reflexivity|].
      cbn. rewrite Ha. exact IHl. }
    rewrite Hex. reflexivity.
Qed.

Lemma expr_subs_empty e : expr_subs rebuild e ∅ = e.
Proof. unfold expr_subs. rewrite subs_rec_empty. reflexivity. Qed.

(** C7, amended: on a wrapper whose expression holds no constant symbol,
    [subs] without constants returns the wrapped expression itself. *)
Theorem subs_absent_without_constants (self : BaseEquation) :
  constants self = [] ->
  subs rebuild self None = Ok (_expr self).
Proof.
  intros Hnone. unfold subs, numpy_to_sympy_constants. rewrite Hnone.
  cbn. rewrite expr_subs_empty. reflexivity.
Qed.

(** With a constant symbol in the expression the same call raises: the
    loop indexes [None] (or fails earlier, in [int], on a name without an
    index). *)
Lemma subs_absent_with_constants (self : BaseEquation) :
  constants self <> [] ->
  subs rebuild self None = Raise TypeError \/
  subs rebuild self None = Raise ValueError.
Proof.
  intros Hsome. unfold subs, numpy_to_sympy_constants.
  destruct (constants self) as [|c cs]; [contradiction|].
  cbn [for_each]. unfold int.
  match goal with |- context [match ?p with Some _ => _ | None => _ end] =>
    destruct p end; cbn; auto.
Qed.

(** C8: whatever the wrapper and the arguments, [derivative_wrt_x] ends
    in the [TypeError] of calling [NotImplemented]; no value is
    returned. *)
Theorem derivative_wrt_x_raises_TypeError (self : BaseEquation) X constants_arg :
  derivative_wrt_x self X constants_arg = Raise TypeError.
Proof. reflexivity. Qed.

(** C4: [const0*x0 + const1] at [X = [[2.0]]], [constants = [3.0, 5.0]]
    evaluates to 11.0, the one entry of the array over the one row. *)
Theorem func_const0_x0_const1 :
  func numpy_function
    (__init__ Derivative
       (Add [Mul [Symbol "const0"; Symbol "x0"]; Symbol "const1"]))
    {| n_cols := 1; rows := [[2%float]] |}
    (Some [3%float; 5%float])
  = Ok (Array [11%float]).
Proof. vm_compute. reflexivity. Qed.

End WrapperFacts.

Lemma subs_absent_without_constants_witness :
  equations_base.subs (fun n l => Basic n l)
    (equations_base.__init__ (fun e _ => e) (Symbol "x0")) None
  = Ok (Symbol "x0").
Proof.
  apply (subs_absent_without_constants (fun n l => Basic n l)
           (equations_base.__init__ (fun e _ => e) (Symbol "x0"))).
  reflexivity.
Defined.

(** C7 as stated fails: the wrapper of [const0] has a constant symbol, and
    [subs] without constants raises instead of returning [const0]. *)
Lemma subs_absent_not_noop :
  equations_base.subs (fun n l => Basic n l)
    (equations_base.__init__ (fun e _ => e) (Symbol "const0")) None
  = Raise TypeError.
Proof. vm_compute. reflexivity. Qed.

(** ** Constant enumeration *)

Section ScanFacts.

Import equations_settings equations_utils.

Lemma append_cons c (a b : string) : String c a +:+ b = String c (a +:+ b).
Proof. reflexivity. Qed.

Lemma append_nil (b : string) : "" +:+ b = b.
Proof. reflexivity. Qed.

Lemma append_assoc (a b c : string) : (a +:+ b) +:+ c = a +:+ (b +:+ c).
Proof.
  induction a as [|x a IH]; [reflexivity|].
  rewrite !append_cons, IH. reflexivity.
Qed.

Lemma prefix_split p : forall s,
  String.prefix p s = true -> exists r, s = p +:+ r.
Proof.
  induction p as [|c p IH]; intros s H.
  - exists s. reflexivity.
  - destruct s as [|d s]; cbn in H; [discriminate|].
    destruct (ascii_dec c d) as [->|]; [|discriminate].
    destruct (IH s H) as [r ->]. exists r. reflexivity.
Qed.

Lemma prefix_append p r : String.prefix p (p +:+ r) = true.
Proof.
  induction p as [|c p IH]; [now destruct r|].
  rewrite append_cons. cbn [String.prefix].
  destruct (ascii_dec c c); [exact IH | contradiction].
Qed.

Lemma prefix_append_r p : forall s r,
  String.prefix p s = true -> String.prefix p (s +:+ r) = true.
Proof.
  intros s r H. destruct (prefix_split p s H) as [q ->].
  rewrite append_assoc. apply prefix_append.
Qed.

Context {S : Type}.
Variable repl : S -> string * S.

(** Text that belongs to a match is dropped, whatever it is. *)
Lemma sub_literal_skip pat p : forall st s,
  sub_literal pat repl (String.length p) st (p +:+ s) =
  sub_literal pat repl 0 st s.
Proof.
  induction p as [|c p IH]; intros st s; [reflexivity|].
  rewrite append_cons. cbn [String.length sub_literal]. apply IH.
Qed.

Lemma sub_literal_match pat st r :
  pat <> "" ->
  sub_literal pat repl 0 st (pat +:+ r) =
  fst (repl st) +:+ sub_literal pat repl 0 (snd (repl st)) r.
Proof.
  intros Hpat.
  assert (Hp : String.prefix pat (pat +:+ r) = true) by apply prefix_append.
  destruct pat as [|c p]; [contradiction|].
  rewrite append_cons in *. cbn [sub_literal]. rewrite Hp.
  destruct (repl st) as [x st']. cbn [fst snd]. f_equal.
  cbn [String.length]. rewrite Nat.sub_1_r. cbn [Nat.pred].
  apply sub_literal_skip.
Qed.

Lemma sub_literal_no_match pat st c s :
  String.prefix pat (String c s) = false ->
  sub_literal pat repl 0 st (String c s) =
  String c (sub_literal pat repl 0 st s).
Proof. intros H. cbn [sub_literal]. rewrite H. reflexivity. Qed.

End ScanFacts.

Section EnumerateFacts.

Import equations_settings equations_utils.

Lemma append_nil_r (a : string) : a +:+ "" = a.
Proof.
  induction a as [|c a IH]; [reflexivity|]. rewrite append_cons, IH. reflexivity.
Qed.

Lemma length_append (a b : string) :
  String.length (a +:+ b) = String.length a + String.length b.
Proof.
  induction a as [|c a IH]; [reflexivity|].
  rewrite append_cons. cbn [String.length]. rewrite IH. reflexivity.
Qed.

Lemma join_pattern_cons c t0 ts :
  join_pattern (String c t0) ts = String c (join_pattern t0 ts).
Proof. destruct ts; reflexivity. Qed.

Lemma join_numbered_cons i c t0 ts :
  join_numbered i (String c t0) ts = String c (join_numbered i t0 ts).
Proof. destruct ts; reflexivity. Qed.

Lemma join_pattern_head t0 ts : exists r, join_pattern t0 ts = t0 +:+ r.
Proof.
  destruct ts as [|t ts]; cbn [join_pattern].
  - exists "". now rewrite append_nil_r.
  - eexists. reflexivity.
Qed.

(** A piece that starts no match and whose tail holds none holds none. *)
Lemma contains_cons_false pat c t r :
  String.prefix pat (String c (t +:+ r)) = false ->
  contains pat t = false ->
  contains pat (String c t) = false.
Proof.
  intros Hp Ht. cbn [contains]. rewrite Ht, orb_false_r.
  destruct (String.prefix pat (String c t)) eqn:E; [|reflexivity].
  apply (prefix_append_r _ _ r) in E. rewrite append_cons in E. congruence.
Qed.

Lemma enumerate_from n : forall s,
  String.length s <= n ->
  exists t0 ts,
    s = join_pattern t0 ts /\
    contains const_pattern t0 = false /\
    Forall (fun t => contains const_pattern t = false) ts /\
    forall i,
      sub_literal const_pattern _EnumerateConstant__call__ 0
        {| const_counter := i |} s
      = join_numbered i t0 ts.
Proof.
  induction n as [|n IH]; intros s Hlen.
  - destruct s; [|cbn in Hlen; lia].
    exists "", []. repeat split; auto.
  - destruct s as [|c s].
    { exists "", []. repeat split; auto. }
    destruct (String.prefix const_pattern (String c s)) eqn:Hp.
    + destruct (prefix_split _ _ Hp) as [r Hr].
      assert (Hr_len : String.length r <= n).
      { rewrite Hr, length_append in Hlen.
        change (String.length const_pattern) with 15 in Hlen. lia. }
      destruct (IH r Hr_len) as (t0 & ts & Hjoin & Ht0 & Hts & Hsub).
      exists "", (t0 :: ts). split; [|split; [|split]].
      * rewrite Hr, Hjoin. reflexivity.
      * reflexivity.
      * constructor; assumption.
      * intros i. rewrite Hr, sub_literal_match by discriminate.
        cbn [_EnumerateConstant__call__ fst snd const_counter join_numbered].
        rewrite Nat.add_1_r, Hsub. reflexivity.
    + cbn [String.length] in Hlen.
      destruct (IH s ltac:(lia)) as (t0 & ts & Hjoin & Ht0 & Hts & Hsub).
      exists (String c t0), ts. split; [|split; [|split]].
      * rewrite join_pattern_cons, Hjoin. reflexivity.
      * destruct (join_pattern_head t0 ts) as [r Hr].
        apply (contains_cons_false _ _ _ r); [|assumption].
        rewrite <- Hr, <- Hjoin. exact Hp.
      * assumption.
      * intros i. rewrite sub_literal_no_match by exact Hp.
        rewrite join_numbered_cons, Hsub. reflexivity.
Qed.

(** *** Where the pattern occurs

    The first character of the pattern does not come back inside it, so
    two occurrences never overlap and none straddles a cut. *)

Lemma clean_occurrences pat t :
  contains pat t = false -> forall i, occurrences pat t i = [].
Proof.
  induction t as [|c t IH]; cbn [contains occurrences]; intros H i.
  - apply orb_false_iff in H as [-> _]. reflexivity.
  - apply orb_false_iff in H as [-> H]. cbn [app]. apply IH, H.
Qed.

Lemma prefix_within a q : forall t r,
  Forall (fun c => c <> a) (String.list_ascii_of_string q) ->
  String.prefix q (t +:+ String a r) = true -> String.prefix q t = true.
Proof.
  induction q as [|b q IH]; intros t r Hq H; [now destruct t|].
  cbn [String.list_ascii_of_string] in Hq.
  inversion Hq as [|? ? Hb Hq']; subst.
  destruct t as [|c t].
  - rewrite append_nil in H. cbn [String.prefix] in H.
    destruct (ascii_dec b a); [contradiction | discriminate].
  - rewrite append_cons in H. cbn [String.prefix] in *.
    destruct (ascii_dec b c); [|discriminate]. eapply IH; eassumption.
Qed.

Lemma prefix_straddle a p c t rest :
  Forall (fun c => c <> a) (String.list_ascii_of_string p) ->
  String.prefix (String a p) (String c t +:+ String a p +:+ rest) = true ->
  String.prefix (String a p) (String c t) = true.
Proof.
  intros Hp H. rewrite !append_cons in H. cbn [String.prefix] in *.
  destruct (ascii_dec a c); [|discriminate].
  eapply prefix_within; eassumption.
Qed.

Lemma occurrences_skip a p q : forall rest j,
  Forall (fun c => c <> a) (String.list_ascii_of_string q) ->
  occurrences (String a p) (q +:+ rest) j =
  occurrences (String a p) rest (j + String.length q).
Proof.
  induction q as [|b q IH]; intros rest j Hq.
  - rewrite append_nil. cbn [String.length]. rewrite Nat.add_0_r. reflexivity.
  - cbn [String.list_ascii_of_string] in Hq.
    inversion Hq as [|? ? Hb Hq']; subst.
    rewrite append_cons. cbn [occurrences String.prefix String.length].
    destruct (ascii_dec a b) as [->|_]; [contradiction|].
    cbn [app]. rewrite IH by exact Hq'. f_equal. lia.
Qed.

Lemma occurrences_match a p rest i :
  Forall (fun c => c <> a) (String.list_ascii_of_string p) ->
  occurrences (String a p) (String a p +:+ rest) i =
  i :: occurrences (String a p) rest (i + String.length (String a p)).
Proof.
  intros Hp.
  assert (Hpre : String.prefix (String a p) (String a p +:+ rest) = true)
    by apply prefix_append.
  rewrite append_cons in *. cbn [occurrences]. rewrite Hpre. cbn [app].
  f_equal. rewrite occurrences_skip by exact Hp.
  cbn [String.length]. f_equal. lia.
Qed.

Lemma const_pattern_head :
  const_pattern = String "S" "ymbol('const')" /\
  Forall (fun c => c <> "S"%char)
    (String.list_ascii_of_string "ymbol('const')").
Proof. split; [reflexivity|]. repeat constructor; discriminate. Qed.

Lemma join_pattern_occurrences : forall ts t0 i,
  contains const_pattern t0 = false ->
  Forall (fun t => contains const_pattern t = false) ts ->
  occurrences const_pattern (join_pattern t0 ts) i = seams i t0 ts.
Proof.
  destruct const_pattern_head as [Epat Hp].
  induction ts as [|t ts IH]; intros t0 i Ht0 Hts.
  - cbn [join_pattern seams]. apply clean_occurrences, Ht0.
  - inversion Hts as [|? ? Ht Hts']; subst. cbn [join_pattern seams].
    revert i. induction t0 as [|c t0 IH0]; intros i.
    + rewrite append_nil. rewrite Epat at 1 2.
      rewrite occurrences_match by exact Hp. rewrite <- Epat.
      cbn [String.length]. rewrite Nat.add_0_r. f_equal.
      apply IH; assumption.
    + cbn [contains] in Ht0. apply orb_false_iff in Ht0 as [Hpre Ht0].
      assert (Hno : String.prefix const_pattern
                (String c t0 +:+ const_pattern +:+ join_pattern t ts) = false).
      { destruct (String.prefix const_pattern
                    (String c t0 +:+ const_pattern +:+ join_pattern t ts)) eqn:E;
          [|reflexivity].
        rewrite Epat in E. apply prefix_straddle in E; [|exact Hp].
        rewrite <- Epat in E. congruence. }
      rewrite append_cons in *. cbn [occurrences]. rewrite Hno. cbn [app].
      rewrite (IH0 Ht0). cbn [String.length]. f_equal; [lia|].
      f_equal. lia.
Qed.

(** C5: every input text is a sequence of pieces free of the pattern
    [Symbol('const')], separated by its occurrences, which are all the
    occurrences there are; the result keeps the pieces as they are and
    puts [Symbol('const0')], [Symbol('const1')], ... in place of the
    occurrences, counting from the left, one number per occurrence. *)
Theorem enumerate_constants_in_expression_spec (expr : string) :
  exists t0 ts,
    expr = join_pattern t0 ts /\
    contains const_pattern t0 = false /\
    Forall (fun t => contains const_pattern t = false) ts /\
    occurrences const_pattern expr 0 = seams 0 t0 ts /\
    enumerate_constants_in_expression expr = join_numbered 0 t0 ts.
Proof.
  destruct (enumerate_from (String.length expr) expr (le_n _))
    as (t0 & ts & Hjoin & Ht0 & Hts & Hsub).
  exists t0, ts. split; [exact Hjoin|]. split; [exact Ht0|].
  split; [exact Hts|]. split; [|apply Hsub].
  rewrite Hjoin. apply join_pattern_occurrences; assumption.
Qed.

Example enumerate_constants_three :
  enumerate_constants_in_expression
    "Add(Symbol('const'), Pow(Symbol('x0'), Symbol('const')), Symbol('const'))"
  = "Add(Symbol('const0'), Pow(Symbol('x0'), Symbol('const1')), Symbol('const2'))".
Proof. reflexivity. Qed.

End EnumerateFacts.

(** ** Breadth-first trees *)

Section ListFacts.

Context {A B : Type}.

Lemma elem_of_map (f : A -> B) (l : list A) (y : B) :
  y ∈ map f l <-> exists x, y = f x /\ x ∈ l.
Proof.
  rewrite list_elem_of_In, in_map_iff. split.
  - intros (x & <- & Hx). exists x. split; [reflexivity|].
    now apply list_elem_of_In.
  - intros (x & -> & Hx). exists x. split; [reflexivity|].
    now apply list_elem_of_In.
Qed.

Lemma NoDup_incl_le `{EqDecision A} (l k : list A) :
  NoDup l -> (forall x, x ∈ l -> x ∈ k) -> length l <= length k.
Proof.
  intros Hnd Hincl. apply submseteq_length, NoDup_submseteq; assumption.
Qed.

End ListFacts.

Section AddNew.

Import networkx.

Lemma elem_of_add_new l x y : y ∈ add_new l x <-> y ∈ l \/ y = x.
Proof.
  unfold add_new. destruct (decide (x ∈ l)) as [Hin|Hout].
  - split; [auto|]. intros [?| ->]; assumption.
  - rewrite elem_of_app, list_elem_of_singleton. reflexivity.
Qed.

Lemma add_new_present l x : x ∈ l -> add_new l x = l.
Proof. intros H. unfold add_new. destruct (decide (x ∈ l)); [reflexivity|contradiction]. Qed.

Lemma add_new_absent l x : x ∉ l -> add_new l x = l ++ [x].
Proof. intros H. unfold add_new. destruct (decide (x ∈ l)); [contradiction|reflexivity]. Qed.

End AddNew.

Section GrownFacts.

Import networkx.

Variable source : nat.

Lemma grown_NoDup out : grown source out -> NoDup (source :: map snd out).
Proof.
  induction 1 as [|out p c _ IH _ Hc].
  - apply NoDup_singleton.
  - rewrite map_app. cbn [map snd].
    change (NoDup ((source :: map snd out) ++ [c])).
    apply NoDup_app. split; [exact IH|]. split; [|apply NoDup_singleton].
    intros x Hx Hx'. apply list_elem_of_singleton in Hx'. subst x. auto.
Qed.

Lemma grown_graph out :
  grown source out ->
  add_edges_from out (add_node source {| nodes := []; edges := [] |}) =
  {| nodes := source :: map snd out; edges := out |}.
Proof.
  induction 1 as [|out p c _ IH Hp Hc].
  - reflexivity.
  - unfold add_edges_from in *. rewrite fold_left_app, IH.
    cbn [fold_left]. unfold add_edge. cbn [nodes edges].
    rewrite (add_new_present _ p) by exact Hp.
    rewrite (add_new_absent _ c) by exact Hc.
    rewrite map_app. reflexivity.
Qed.

Lemma grown_reach out :
  grown source out ->
  forall w, w ∈ source :: map snd out ->
    rtc (fun a b => (a, b) ∈ out) source w.
Proof.
  induction 1 as [|out p c _ IH Hp Hc]; intros w Hw.
  - apply list_elem_of_singleton in Hw. subst w. apply rtc_refl.
  - assert (Hlift : forall v, rtc (fun a b => (a, b) ∈ out) source v ->
                      rtc (fun a b => (a, b) ∈ out ++ [(p, c)]) source v).
    { intros v. apply rtc_subrel. intros a b Hab.
      apply elem_of_app. left. exact Hab. }
    rewrite map_app in Hw. cbn [map snd] in Hw.
    change (w ∈ (source :: map snd out) ++ [c]) in Hw.
    apply elem_of_app in Hw as [Hw|Hw].
    + apply Hlift, IH, Hw.
    + apply list_elem_of_singleton in Hw. subst w.
      eapply rtc_r; [apply Hlift, IH, Hp|].
      apply elem_of_app. right. apply list_elem_of_singleton. reflexivity.
Qed.

Lemma grown_no_arc_into_source out :
  grown source out -> forall p, (p, source) ∉ out.
Proof.
  induction 1 as [|out q c _ IH _ Hc]; intros p Hin.
  - inversion Hin.
  - apply elem_of_app in Hin as [Hin|Hin]; [exact (IH p Hin)|].
    apply list_elem_of_singleton in Hin. injection Hin as -> ->.
    apply Hc. left.
Qed.

End GrownFacts.

Section BfsFacts.

Import networkx.

Variable G : Graph.
Variable source : nat.
Hypothesis Hwf : forall a b, adjacent G a b -> b ∈ nodes G.

Lemma visit_children_spec parent : forall children seen next out,
  bfs_state G source seen out ->
  parent ∈ seen ->
  (forall c, c ∈ children -> c ∈ nodes G) ->
  exists seen' next' out' new,
    visit_children G parent children (seen, next, out) = (seen', next', out') /\
    bfs_state G source seen' out' /\
    next' = next ++ new /\
    seen' = seen ++ map fst new /\
    Forall (fun pc => snd pc = neighbors G (fst pc)) new /\
    forall c, c ∈ children -> c ∈ seen'.
Proof.
  induction children as [|c cs IH]; intros seen next out Hst Hp Hnodes.
  - exists seen, next, out, []. rewrite !app_nil_r.
    split; [reflexivity|]. split; [exact Hst|].
    split; [reflexivity|]. split; [reflexivity|]. split; [constructor|].
    intros c Hc. inversion Hc.
  - assert (Hcs : forall x, x ∈ cs -> x ∈ nodes G).
    { intros x Hx. apply Hnodes. now right. }
    unfold visit_children. cbn [fold_left].
    destruct (decide (c ∈ seen)) as [Hin|Hout].
    + destruct (IH seen next out Hst Hp Hcs)
        as (s' & n' & o' & new & E & Hst' & Hn & Hs & Hnew & Hin').
      exists s', n', o', new. split; [exact E|]. split; [exact Hst'|].
      split; [exact Hn|]. split; [exact Hs|]. split; [exact Hnew|].
      intros x Hx. apply elem_of_cons in Hx as [->|Hx]; [|auto].
      rewrite Hs. apply elem_of_app. now left.
    + destruct Hst as (Hg & Hseen & Hsub).
      assert (Hst1 : bfs_state G source (seen ++ [c]) (out ++ [(parent, c)])).
      { split; [|split].
        - apply grown_snoc; [exact Hg | rewrite <- Hseen; exact Hp
                            | rewrite <- Hseen; exact Hout].
        - rewrite map_app, Hseen. reflexivity.
        - intros x Hx. apply elem_of_app in Hx as [Hx|Hx]; [auto|].
          apply list_elem_of_singleton in Hx. subst x. apply Hnodes. left. }
      assert (Hp1 : parent ∈ seen ++ [c]) by (apply elem_of_app; now left).
      destruct (IH _ (next ++ [(c, neighbors G c)]) _ Hst1 Hp1 Hcs)
        as (s' & n' & o' & new & E & Hst' & Hn & Hs & Hnew & Hin').
      exists s', n', o', ((c, neighbors G c) :: new).
      split; [exact E|]. split; [exact Hst'|].
      split; [rewrite Hn, <- app_assoc; reflexivity|].
      split; [rewrite Hs, <- app_assoc; reflexivity|].
      split; [constructor; [reflexivity | exact Hnew]|].
      intros x Hx. apply elem_of_cons in Hx as [->|Hx]; [|auto].
      rewrite Hs. apply elem_of_app. left. apply elem_of_app. right.
      now left.
Qed.

Lemma closed_mono seen seen' x :
  (forall y, y ∈ seen -> y ∈ seen') -> closed G seen x -> closed G seen' x.
Proof. intros Hsub Hc y Hy. apply Hsub, Hc, Hy. Qed.

Lemma visit_level_spec : forall this seen next out,
  bfs_state G source seen out ->
  Forall (level_entry G seen) this ->
  exists seen' next' out' new,
    visit_level G this (seen, next, out) = (seen', next', out') /\
    bfs_state G source seen' out' /\
    next' = next ++ new /\
    seen' = seen ++ map fst new /\
    Forall (fun pc => snd pc = neighbors G (fst pc)) new /\
    Forall (fun pc => closed G seen' (fst pc)) this.
Proof.
  induction this as [|[p cs] this IH]; intros seen next out Hst Hthis.
  - exists seen, next, out, []. rewrite !app_nil_r.
    split; [reflexivity|]. split; [exact Hst|].
    split; [reflexivity|]. split; [reflexivity|]. split; constructor.
  - inversion Hthis as [|? ? [Hcs Hp] Hrest]; subst. cbn [fst snd] in Hcs, Hp.
    assert (Hcs' : forall c, c ∈ cs -> c ∈ nodes G).
    { intros c Hc. apply (Hwf p). unfold adjacent. rewrite <- Hcs. exact Hc. }
    destruct (visit_children_spec p cs seen next out Hst Hp Hcs')
      as (s1 & n1 & o1 & new1 & E1 & Hst1 & Hn1 & Hs1 & Hnew1 & Hin1).
    assert (Hrest1 : Forall (level_entry G s1) this).
    { eapply Forall_impl; [exact Hrest|]. intros [q qs] [Hq1 Hq2].
      split; [exact Hq1|]. cbn [fst] in *. rewrite Hs1.
      apply elem_of_app. now left. }
    destruct (IH s1 n1 o1 Hst1 Hrest1)
      as (s2 & n2 & o2 & new2 & E2 & Hst2 & Hn2 & Hs2 & Hnew2 & Hcl2).
    exists s2, n2, o2, (new1 ++ new2).
    split. { unfold visit_level in *. cbn [fold_left fst snd]. rewrite E1. exact E2. }
    split; [exact Hst2|].
    split; [rewrite Hn2, Hn1, <- app_assoc; reflexivity|].
    split; [rewrite Hs2, Hs1, map_app, <- app_assoc; reflexivity|].
    split; [apply Forall_app; split; assumption|].
    constructor; [|exact Hcl2]. cbn [fst].
    intros y Hy. unfold adjacent in Hy. rewrite <- Hcs in Hy.
    rewrite Hs2. apply elem_of_app. left. apply Hin1, Hy.
Qed.

Lemma bfs_levels_spec : forall depth this seen out,
  bfs_state G source seen out ->
  Forall (level_entry G seen) this ->
  (forall x, x ∈ seen -> x ∈ map fst this \/ closed G seen x) ->
  (this <> [] -> length (nodes G) + 1 <= depth + length seen) ->
  bfs_state G source
    (source :: map snd (bfs_levels G depth this seen out))
    (bfs_levels G depth this seen out) /\
  ((forall x, x ∈ source :: map snd (bfs_levels G depth this seen out) ->
      closed G (source :: map snd (bfs_levels G depth this seen out)) x) \/
   length (nodes G) + 1 <=
     length (source :: map snd (bfs_levels G depth this seen out))).
Proof.
  assert (Hstop : forall depth (this : list (nat * list nat)) seen out,
    bfs_state G source seen out ->
    (forall x, x ∈ seen -> x ∈ map fst this \/ closed G seen x) ->
    (this <> [] -> length (nodes G) + 1 <= depth + length seen) ->
    depth = 0 \/ this = [] ->
    bfs_state G source (source :: map snd out) out /\
    ((forall x, x ∈ source :: map snd out -> closed G (source :: map snd out) x) \/
     length (nodes G) + 1 <= length (source :: map snd out))).
  { intros depth this seen out Hst Hcl Hdepth Hend.
    pose proof Hst as (Hg & Hseen & Hsub). rewrite <- Hseen.
    split; [exact Hst|].
    destruct this as [|pc this].
    - left. intros x Hx. destruct (Hcl x Hx) as [Hin|Hc]; [inversion Hin|exact Hc].
    - right. destruct Hend as [->|?]; [|discriminate].
      apply Hdepth. discriminate. }
  induction depth as [|d IH]; intros this seen out Hst Hthis Hcl Hdepth.
  - cbn [bfs_levels]. eapply Hstop; eauto.
  - destruct this as [|pc this].
    { cbn [bfs_levels]. eapply Hstop; eauto. }
    cbn [bfs_levels].
    destruct (visit_level_spec (pc :: this) seen [] out Hst Hthis)
      as (s' & n' & o' & new & E & Hst' & Hn & Hs & Hnew & Hclosed).
    rewrite E. cbn [app] in Hn. subst n'.
    apply IH.
    + exact Hst'.
    + apply Forall_forall. intros qc Hqc. split.
      * rewrite Forall_forall in Hnew. apply Hnew, Hqc.
      * rewrite Hs. apply elem_of_app. right. apply elem_of_map.
        exists qc. split; [reflexivity | exact Hqc].
    + intros x Hx. rewrite Hs in Hx. apply elem_of_app in Hx as [Hx|Hx].
      * right. destruct (Hcl x Hx) as [Hin|Hc].
        -- apply elem_of_map in Hin as (qc & -> & Hqc).
           rewrite Forall_forall in Hclosed. apply Hclosed, Hqc.
        -- eapply closed_mono; [|exact Hc]. intros y Hy. rewrite Hs.
           apply elem_of_app. now left.
      * left. exact Hx.
    + intros Hne. rewrite Hs, length_app, length_map.
      assert (length new <> 0) by (destruct new; [contradiction | discriminate]).
      assert (length (nodes G) + 1 <= Datatypes.S d + length seen)
        by (apply Hdepth; discriminate).
      lia.
Qed.

(** The breadth-first tree of a graph all of whose nodes can be reached
    from [source]: it has the nodes of the graph, no arc into [source], a
    path from [source] to each node, and one arc less than nodes. *)
Theorem bfs_tree_spec :
  source ∈ nodes G ->
  NoDup (nodes G) ->
  (forall w, w ∈ nodes G -> rtc (adjacent G) source w) ->
  length (nodes (bfs_tree G source)) = length (nodes G) /\
  NoDup (nodes (bfs_tree G source)) /\
  (forall p, ~ arc (bfs_tree G source) p source) /\
  (forall w, w ∈ nodes (bfs_tree G source) ->
     rtc (arc (bfs_tree G source)) source w) /\
  length (edges (bfs_tree G source)) + 1 = length (nodes (bfs_tree G source)).
Proof.
  intros Hsource Hnd Hconn.
  destruct (bfs_levels_spec (length (nodes G)) [(source, neighbors G source)]
              [source] []) as [(Hg & _ & Hsub) Hend].
  - split; [constructor|]. split; [reflexivity|].
    intros x Hx. apply list_elem_of_singleton in Hx. subst x. exact Hsource.
  - constructor; [|constructor]. split; [reflexivity|]. cbn. left.
  - intros x Hx. left. apply list_elem_of_singleton in Hx. subst x. cbn. left.
  - intros _. cbn [length]. lia.
  - fold (bfs_edges G source) in *.
    unfold bfs_tree. rewrite (grown_graph _ _ Hg). cbn [nodes edges].
    set (S := source :: map snd (bfs_edges G source)) in *.
    assert (HndS : NoDup S) by (apply grown_NoDup, Hg).
    assert (Hle : length S <= length (nodes G)) by (apply NoDup_incl_le; assumption).
    destruct Hend as [Hclosed|Hbig]; [|lia].
    assert (Hall : forall w, rtc (adjacent G) source w -> w ∈ S).
    { apply (rtc_ind_r (fun w => w ∈ S)).
      - left.
      - intros y z _ Hyz IHw. apply (Hclosed y IHw z Hyz). }
    assert (Hge : length (nodes G) <= length S).
    { apply NoDup_incl_le; [exact Hnd|]. intros x Hx. apply Hall, Hconn, Hx. }
    split; [lia|]. split; [exact HndS|].
    split; [intros p; apply (grown_no_arc_into_source _ _ Hg)|].
    split; [intros w Hw; apply (grown_reach _ _ Hg w Hw)|].
    subst S. cbn [length]. rewrite length_map. lia.
Qed.

End BfsFacts.

(** ** Pruefer decoding *)

Section NeighborFacts.

Import networkx.

Lemma neighbors_fold a b : forall es acc,
  b ∈ fold_left
        (fun acc '(x, y) =>
           if decide (x = a) then add_new acc y
           else if decide (y = a) then add_new acc x
           else acc) es acc
  <-> b ∈ acc \/ (a, b) ∈ es \/ (b, a) ∈ es.
Proof.
  induction es as [|[x y] es IH]; intros acc; cbn [fold_left].
  - split; [auto|]. intros [H|[H|H]]; [exact H | inversion H | inversion H].
  - rewrite IH, !elem_of_cons.
    destruct (decide (x = a)) as [->|Hx].
    + rewrite elem_of_add_new. naive_solver.
    + destruct (decide (y = a)) as [->|Hy].
      * rewrite elem_of_add_new. naive_solver.
      * naive_solver.
Qed.

Lemma adjacent_spec G a b :
  adjacent G a b <-> (a, b) ∈ edges G \/ (b, a) ∈ edges G.
Proof.
  unfold adjacent, neighbors. rewrite neighbors_fold.
  split; [intros [H|H]; [inversion H | exact H] | auto].
Qed.

Lemma adjacent_sym G a b : adjacent G a b -> adjacent G b a.
Proof. rewrite !adjacent_spec. tauto. Qed.

Lemma rtc_adjacent_sym G a b :
  rtc (adjacent G) a b -> rtc (adjacent G) b a.
Proof.
  induction 1 as [|x y z Hxy _ IH]; [apply rtc_refl|].
  eapply rtc_r; [exact IH | apply adjacent_sym, Hxy].
Qed.

End NeighborFacts.

Section CountFacts.

Lemma count_occ_seq n k : k < n -> count_occ Nat.eq_dec (seq 0 n) k = 1.
Proof.
  intros Hk. apply NoDup_count_occ'; [apply seq_NoDup|].
  apply in_seq. lia.
Qed.

Lemma count_occ_zero (l : list nat) k :
  count_occ Nat.eq_dec l k = 0 <-> k ∉ l.
Proof.
  rewrite list_elem_of_In. symmetry. apply count_occ_not_In.
Qed.

(** The first number from [lo] on that passes a test. *)
Lemma find_seq_Some (f : nat -> bool) : forall len lo k,
  find f (seq lo len) = Some k ->
  lo <= k < lo + len /\ f k = true /\ forall j, lo <= j < k -> f j = false.
Proof.
  induction len as [|len IH]; intros lo k; cbn [seq find]; [discriminate|].
  destruct (f lo) eqn:Hlo.
  - intros [= <-]. split; [lia|]. split; [exact Hlo|]. intros j Hj. lia.
  - intros Hfind. destruct (IH _ _ Hfind) as (Hk & Hfk & Hbelow).
    split; [lia|]. split; [exact Hfk|]. intros j Hj.
    destruct (decide (j = lo)) as [->|Hne]; [exact Hlo|]. apply Hbelow. lia.
Qed.

Lemma find_seq_None (f : nat -> bool) len lo :
  find f (seq lo len) = None -> forall j, lo <= j < lo + len -> f j = false.
Proof.
  intros Hfind j Hj. apply (find_none f _ Hfind). apply in_seq. lia.
Qed.

End CountFacts.

Section DecodeFacts.

Import networkx.

Variable n : nat.

Lemma next_leaf_Ok degree lo k :
  next_leaf degree lo n = Ok k ->
  lo <= k < n /\ degree k = 1%Z /\ forall j, lo <= j < k -> degree j <> 1%Z.
Proof.
  unfold next_leaf.
  destruct (find _ _) as [k'|] eqn:E; [|discriminate]. intros [= <-].
  apply find_seq_Some in E as (H1 & H2 & H3).
  split; [lia|]. split; [apply Z.eqb_eq, H2|].
  intros j Hj. apply Z.eqb_neq, H3, Hj.
Qed.

Lemma next_leaf_exists degree lo j :
  lo <= j < n -> degree j = 1%Z -> exists k, next_leaf degree lo n = Ok k.
Proof.
  intros Hj Hd. unfold next_leaf.
  destruct (find _ _) as [k|] eqn:E; [eauto|].
  apply find_seq_None with (j := j) in E; [|lia].
  apply Z.eqb_neq in E. contradiction.
Qed.

(** Fewer than [n] numbers leave one of [lo .. lo+n-1] out. *)
Lemma missing_number lo (l : list nat) :
  length l < n -> exists j, lo <= j < lo + n /\ j ∉ l.
Proof.
  intros Hlen.
  destruct (decide (Exists (fun j => j ∉ l) (seq lo n))) as [Hex|Hno].
  - apply Exists_exists in Hex as (j & Hj & Hout). exists j.
    apply elem_of_seq in Hj. split; [lia | exact Hout].
  - exfalso. apply not_Exists_Forall in Hno; [|intros x; apply _].
    rewrite Forall_forall in Hno.
    assert (Hle : length (seq lo n) <= length l).
    { apply NoDup_incl_le; [apply NoDup_seq|].
      intros x Hx. specialize (Hno x Hx). cbn in Hno.
      destruct (decide (x ∈ l)); [assumption | contradiction]. }
    rewrite length_seq in Hle. lia.
Qed.

Lemma missing_node (l : list nat) :
  length l < n -> exists j, j < n /\ j ∉ l.
Proof.
  intros Hlen. destruct (missing_number 0 l Hlen) as (j & Hj & Hout).
  exists j. split; [lia | exact Hout].
Qed.

Lemma fresh_trace_snoc tr u v rest :
  fresh_trace tr (v :: rest) -> u ∉ v :: rest ->
  fresh_trace (tr ++ [(u, v)]) rest.
Proof.
  intros Htr Hu. induction tr as [|[x a] tr IH]; cbn [fresh_trace app] in *.
  - split; [|exact I]. cbn [map app snd]. exact Hu.
  - destruct Htr as [Hx Htr]. split; [|apply IH, Htr].
    rewrite map_app. cbn [map snd]. rewrite <- app_assoc. exact Hx.
Qed.

Lemma trace_step v rest T used u :
  trace_ok n (v :: rest) T used ->
  u ∉ used -> u < n -> v < n -> u ∉ v :: rest ->
  trace_ok n rest (add_edge u v T) (used ∪ {[u]}).
Proof.
  intros [Hnodes Hused Hnd Htr Hrange Hlen] Hu Hun Hvn Hfresh.
  split; cbn [add_edge nodes edges].
  - rewrite Hnodes. rewrite !add_new_present; [reflexivity| |];
      rewrite ?add_new_present; apply elem_of_seq; lia.
  - rewrite map_app. cbn [map fst]. rewrite list_to_set_snoc_L, Hused.
    reflexivity.
  - rewrite map_app. cbn [map fst]. apply NoDup_app.
    split; [exact Hnd|]. split; [|apply NoDup_singleton].
    intros x Hx Hx'. apply list_elem_of_singleton in Hx'. subst x.
    apply Hu. rewrite Hused. apply elem_of_list_to_set. exact Hx.
  - apply fresh_trace_snoc; assumption.
  - intros a. rewrite map_app. cbn [map snd]. rewrite elem_of_app.
    intros [Ha|Ha]; [auto|]. apply list_elem_of_singleton in Ha. lia.
  - rewrite length_app. cbn [length] in *. lia.
Qed.

Lemma degree_leaf_absent rest (degree : nat -> Z) k :
  (forall k, k < n ->
     degree k = (1 + Z.of_nat (count_occ Nat.eq_dec rest k))%Z) ->
  k < n -> degree k = 1%Z -> k ∉ rest.
Proof.
  intros Hd Hk H1. apply count_occ_zero. specialize (Hd k Hk). lia.
Qed.

Lemma degree_decrement v rest (degree : nat -> Z) :
  (forall k, k < n ->
     degree k = (1 + Z.of_nat (count_occ Nat.eq_dec (v :: rest) k))%Z) ->
  forall k, k < n ->
    decrement degree v k = (1 + Z.of_nat (count_occ Nat.eq_dec rest k))%Z.
Proof.
  intros Hd k Hk. unfold decrement. specialize (Hd k Hk).
  destruct (decide (k = v)) as [->|Hne].
  - rewrite count_occ_cons_eq in Hd by reflexivity. lia.
  - rewrite count_occ_cons_neq in Hd by congruence. exact Hd.
Qed.

Lemma decrement_other (degree : nat -> Z) v k :
  k <> v -> decrement degree v k = degree k.
Proof.
  intros Hne. unfold decrement. destruct (decide (k = v)); [contradiction|reflexivity].
Qed.

Lemma pointer_step_same v rest degree index u used :
  pointer_ok n (v :: rest) degree index u used ->
  v < index -> decrement degree v v = 1%Z ->
  pointer_ok n rest (decrement degree v) index v (used ∪ {[u]}).
Proof.
  intros [Hd Hi Hule Hil Hul Huf Hlv Hus] Hvi Hv1.
  assert (Hleaf : forall k, k < n -> degree k = 1%Z -> k <> v).
  { intros k Hk Hk1 ->. apply (degree_leaf_absent _ _ _ Hd Hk Hk1). left. }
  split.
  - apply degree_decrement, Hd.
  - exact Hi.
  - lia.
  - rewrite decrement_other; [exact Hil|]. apply Hleaf; [lia | exact Hil].
  - exact Hv1.
  - intros Hin. apply elem_of_union in Hin as [Hin|Hin].
    + destruct (Hus v Hin) as [_ Hv]. apply (Hleaf v); [lia | exact Hv | reflexivity].
    + apply elem_of_singleton in Hin. subst u.
      apply (Hleaf v); [lia | exact Hul | reflexivity].
  - intros k Hk Hkv Hdk. rewrite decrement_other in Hdk by exact Hkv.
    apply elem_of_union. destruct (decide (k = u)) as [->|Hku].
    + right. apply elem_of_singleton. reflexivity.
    + left. apply Hlv; assumption.
  - intros k Hk. apply elem_of_union in Hk as [Hk|Hk].
    + destruct (Hus k Hk) as [Hki Hk1]. split; [exact Hki|].
      rewrite decrement_other; [exact Hk1|]. apply Hleaf; [lia | exact Hk1].
    + apply elem_of_singleton in Hk. subst k. split; [exact Hule|].
      rewrite decrement_other; [exact Hul|]. apply Hleaf; [lia | exact Hul].
Qed.

(** A leaf at or below [index] after the step was used or is [u], unless
    it is [v] itself and the first branch applies. *)
Lemma leaf_below_index v rest degree index u used j :
  pointer_ok n (v :: rest) degree index u used ->
  ~ (v < index /\ decrement degree v v = 1%Z) ->
  j <= index -> decrement degree v j = 1%Z -> j ∈ used ∪ {[u]}.
Proof.
  intros [Hd Hi Hule Hil Hul Huf Hlv Hus] Hbranch Hj Hj1.
  assert (Hleaf : forall k, k < n -> degree k = 1%Z -> k <> v).
  { intros k Hk Hk1 ->. apply (degree_leaf_absent _ _ _ Hd Hk Hk1). left. }
  destruct (decide (j = v)) as [->|Hjv].
  - exfalso. apply Hbranch. split; [|exact Hj1].
    assert (index <> v) by (apply Hleaf; [lia | exact Hil]). lia.
  - rewrite decrement_other in Hj1 by exact Hjv.
    apply elem_of_union. destruct (decide (j = u)) as [->|Hju].
    + right. apply elem_of_singleton. reflexivity.
    + left. apply Hlv; assumption.
Qed.

Lemma pointer_step_next v rest degree index u used k :
  pointer_ok n (v :: rest) degree index u used ->
  ~ (v < index /\ decrement degree v v = 1%Z) ->
  next_leaf (decrement degree v) (index + 1) n = Ok k ->
  pointer_ok n rest (decrement degree v) k k (used ∪ {[u]}).
Proof.
  intros Hok Hbranch Hnext.
  pose proof (leaf_below_index v rest degree index u used) as Hbelow_index.
  specialize (fun j => Hbelow_index j Hok Hbranch).
  destruct Hok as [Hd Hi Hule Hil Hul Huf Hlv Hus].
  apply next_leaf_Ok in Hnext as (Hk & Hk1 & Hbelow).
  assert (Hleaf : forall k, k < n -> degree k = 1%Z -> k <> v).
  { intros j Hj Hj1 ->. apply (degree_leaf_absent _ _ _ Hd Hj Hj1). left. }
  assert (Hold : forall j, j ∈ used ∪ {[u]} -> j <= index /\ degree j = 1%Z).
  { intros j Hj. apply elem_of_union in Hj as [Hj|Hj]; [apply Hus, Hj|].
    apply elem_of_singleton in Hj. subst j. split; assumption. }
  split.
  - apply degree_decrement, Hd.
  - lia.
  - lia.
  - exact Hk1.
  - exact Hk1.
  - intros Hin. apply Hold in Hin. lia.
  - intros j Hj Hjk Hj1. destruct (decide (j <= index)) as [Hle|Hgt].
    + apply Hbelow_index; assumption.
    + exfalso. apply (Hbelow j); [lia | exact Hj1].
  - intros j Hj. destruct (Hold j Hj) as [Hji Hj1]. split; [lia|].
    rewrite decrement_other; [exact Hj1|]. apply Hleaf; [lia | exact Hj1].
Qed.

Lemma next_leaf_after_step v rest T degree index u used :
  trace_ok n (v :: rest) T used ->
  pointer_ok n (v :: rest) degree index u used ->
  ~ (v < index /\ decrement degree v v = 1%Z) ->
  exists k, next_leaf (decrement degree v) (index + 1) n = Ok k.
Proof.
  intros Htr Hok Hbranch.
  pose proof (leaf_below_index v rest degree index u used) as Hbelow_index.
  specialize (fun j => Hbelow_index j Hok Hbranch).
  destruct Htr as [Hnodes Hused Hnd _ Hrange Hlen].
  destruct Hok as [Hd Hi Hule Hil Hul Huf Hlv Hus].
  destruct (missing_node ((u :: map fst (edges T)) ++ rest)) as (j & Hj & Hout).
  { rewrite length_app. cbn [length] in *. rewrite length_map. lia. }
  assert (Hj1 : decrement degree v j = 1%Z).
  { rewrite (degree_decrement v rest degree Hd j Hj).
    assert (Hc : count_occ Nat.eq_dec rest j = 0).
    { apply count_occ_zero. intros Hin. apply Hout, elem_of_app. now right. }
    rewrite Hc. reflexivity. }
  apply (next_leaf_exists _ _ j); [|exact Hj1].
  split; [|exact Hj].
  destruct (decide (j <= index)) as [Hle|Hgt]; [|lia].
  exfalso. apply Hout, elem_of_app. left.
  specialize (Hbelow_index j Hle Hj1).
  apply elem_of_union in Hbelow_index as [Hin|Hin].
  - right. rewrite Hused in Hin. apply elem_of_list_to_set in Hin. exact Hin.
  - apply elem_of_singleton in Hin. subst j. left.
Qed.

Lemma decode_step_ok v rest st :
  decoder_ok n (v :: rest) st -> v < n ->
  exists st', decode_step n st v = Ok st' /\ decoder_ok n rest st'.
Proof.
  intros [Htr Hok] Hv. unfold decode_step.
  assert (Hrange : (Z.of_nat n - 1 <? Z.of_nat v)%Z = false)
    by (apply Z.ltb_ge; lia).
  rewrite Hrange.
  assert (Hu : u st ∉ v :: rest).
  { destruct Hok as [Hd Hi Hule _ Hul _ _ _].
    apply (degree_leaf_absent _ _ _ Hd); [lia | exact Hul]. }
  assert (Htr' : trace_ok n rest (add_edge (u st) v (T st))
                   (not_orphaned st ∪ {[u st]})).
  { apply trace_step; try assumption.
    - apply Hok.
    - destruct Hok. lia. }
  destruct ((v <? index st)%nat && (decrement (degree st) v v =? 1)%Z) eqn:Hb.
  - apply andb_true_iff in Hb as [Hb1 Hb2].
    apply Nat.ltb_lt in Hb1. apply Z.eqb_eq in Hb2.
    eexists. split; [reflexivity|]. split; cbn; [exact Htr'|].
    apply pointer_step_same; assumption.
  - assert (Hbranch : ~ (v < index st /\ decrement (degree st) v v = 1%Z)).
    { intros [H1 H2]. apply Nat.ltb_lt in H1. apply Z.eqb_eq in H2.
      rewrite H1, H2 in Hb. discriminate. }
    destruct (next_leaf_after_step _ _ _ _ _ _ _ Htr Hok Hbranch) as [k Hk].
    rewrite Hk. eexists. split; [reflexivity|]. split; cbn; [exact Htr'|].
    eapply pointer_step_next; eassumption.
Qed.

Lemma decode_loop_ok : forall rest st,
  decoder_ok n rest st -> Forall (fun v => v < n) rest ->
  exists st', for_each (decode_step n) st rest = Ok st' /\ decoder_ok n [] st'.
Proof.
  induction rest as [|v rest IH]; intros st Hok Hrest.
  - exists st. split; [reflexivity | exact Hok].
  - inversion Hrest as [|? ? Hv Hrest']; subst.
    destruct (decode_step_ok v rest st Hok Hv) as (st1 & E1 & Hok1).
    destruct (IH st1 Hok1 Hrest') as (st2 & E2 & Hok2).
    exists st2. split; [|exact Hok2]. cbn [for_each]. rewrite E1. exact E2.
Qed.

End DecodeFacts.

Section PruferFacts.

Import networkx.

Lemma decode_init sequence :
  Forall (fun v => v < length sequence + 2) sequence ->
  exists k,
    next_leaf (Counter (sequence ++ seq 0 (length sequence + 2))) 0
      (length sequence + 2) = Ok k /\
    decoder_ok (length sequence + 2) sequence
      {| T := empty_graph (length sequence + 2); not_orphaned := ∅;
         degree := Counter (sequence ++ seq 0 (length sequence + 2));
         index := k; u := k |}.
Proof.
  intros Hvalid. set (n := length sequence + 2).
  assert (Hd : forall k, k < n ->
            Counter (sequence ++ seq 0 n) k =
            (1 + Z.of_nat (count_occ Nat.eq_dec sequence k))%Z).
  { intros k Hk. unfold Counter. rewrite count_occ_app, count_occ_seq by exact Hk. lia. }
  destruct (missing_node n sequence) as (j & Hj & Hout); [unfold n; lia|].
  destruct (next_leaf_exists n (Counter (sequence ++ seq 0 n)) 0 j) as [k Hk].
  { lia. }
  { rewrite Hd by exact Hj. apply count_occ_zero in Hout. rewrite Hout. reflexivity. }
  exists k. split; [exact Hk|].
  apply next_leaf_Ok in Hk as (Hkn & Hk1 & Hbelow).
  split; cbn [T not_orphaned degree index u].
  - split; cbn [empty_graph nodes edges map].
    + reflexivity.
    + reflexivity.
    + constructor.
    + exact I.
    + intros a Ha. inversion Ha.
    + cbn [length]. unfold n. lia.
  - split.
    + exact Hd.
    + lia.
    + lia.
    + exact Hk1.
    + exact Hk1.
    + apply not_elem_of_empty.
    + intros i Hi Hik Hi1. exfalso. apply (Hbelow i); [lia | exact Hi1].
    + intros i Hi. exfalso. revert Hi. apply not_elem_of_empty.
Qed.

Lemma orphans_two n st :
  decoder_ok n [] st ->
  exists x y,
    elements (list_to_set (nodes (T st)) ∖ not_orphaned st : gset nat) = [x; y] /\
    x <> y /\ x < n /\ y < n /\
    forall w, w < n -> w = x \/ w = y \/ w ∈ map fst (edges (T st)).
Proof.
  intros [[Hnodes Hused Hnd _ _ Hlen] [_ Hi _ _ _ _ _ Hus]].
  set (O := (list_to_set (nodes (T st)) ∖ not_orphaned st : gset nat)).
  assert (Hsub : not_orphaned st ⊆ list_to_set (nodes (T st))).
  { intros k Hk. apply elem_of_list_to_set. rewrite Hnodes.
    apply elem_of_seq. destruct (Hus k Hk). lia. }
  assert (Hsize : size O = 2).
  { unfold O. rewrite size_difference by exact Hsub.
    rewrite size_list_to_set by (rewrite Hnodes; apply NoDup_seq).
    rewrite Hused, size_list_to_set by exact Hnd.
    rewrite Hnodes, length_seq, length_map. cbn [length] in Hlen. lia. }
  assert (HO : forall w, w ∈ O <-> w < n /\ w ∉ not_orphaned st).
  { intros w. unfold O. rewrite elem_of_difference, elem_of_list_to_set, Hnodes,
      elem_of_seq. intuition lia. }
  unfold size, set_size in Hsize. cbn in Hsize.
  pose proof (NoDup_elements O) as HndO.
  assert (Hel : forall w, w ∈ elements O <-> w ∈ O) by (intros; apply elem_of_elements).
  destruct (elements O) as [|x [|y [|z l]]] eqn:E; try discriminate.
  exists x, y. split; [reflexivity|].
  assert (Hx : x ∈ O) by (apply Hel; left).
  assert (Hy : y ∈ O) by (apply Hel; right; left).
  apply HO in Hx as [Hx _]. apply HO in Hy as [Hy _].
  split.
  { intros ->. inversion HndO as [|? ? Hnotin _]; subst. apply Hnotin. left. }
  split; [exact Hx|]. split; [exact Hy|].
  intros w Hw. destruct (decide (w ∈ not_orphaned st)) as [Hin|Hout].
  - right. right. rewrite Hused in Hin. apply elem_of_list_to_set in Hin. exact Hin.
  - assert (Hw' : w ∈ [x; y]) by (apply Hel, HO; split; assumption).
    apply elem_of_cons in Hw' as [->|Hw']; [now left|].
    apply list_elem_of_singleton in Hw'. right. now left.
Qed.

Lemma trace_connected (E : Graph) x y :
  (x, y) ∈ edges E ->
  forall tr,
    (forall e, e ∈ tr -> e ∈ edges E) ->
    fresh_trace tr [] ->
    (forall a, a ∈ map snd tr -> a ∈ x :: y :: map fst tr) ->
    forall w, w ∈ x :: y :: map fst tr -> rtc (adjacent E) w x.
Proof.
  intros Hxy. induction tr as [|[u a] tr IH]; intros Hsub Hfresh Hatt w Hw.
  - cbn [map] in Hw. apply elem_of_cons in Hw as [->|Hw]; [apply rtc_refl|].
    apply list_elem_of_singleton in Hw. subst w.
    apply rtc_once, adjacent_spec. now right.
  - cbn [fresh_trace] in Hfresh. destruct Hfresh as [Hu Hfresh].
    rewrite app_nil_r in Hu.
    assert (Hatt' : forall b, b ∈ map snd tr -> b ∈ x :: y :: map fst tr).
    { intros b Hb.
      assert (Hb' : b ∈ map snd ((u, a) :: tr)) by (now right).
      apply Hatt in Hb'. cbn [map fst] in Hb'.
      rewrite !elem_of_cons in Hb'. rewrite !elem_of_cons.
      destruct Hb' as [?|[?|[->|?]]]; auto.
      exfalso. apply Hu. now right. }
    assert (IH' : forall w, w ∈ x :: y :: map fst tr -> rtc (adjacent E) w x).
    { apply IH; [|exact Hfresh|exact Hatt'].
      intros e He. apply Hsub. now right. }
    cbn [map fst] in Hw. rewrite !elem_of_cons in Hw.
    destruct Hw as [->|[->|[->|Hw]]].
    + apply rtc_refl.
    + apply IH'. right. left.
    + assert (Ha : a ∈ x :: y :: map fst tr).
      { assert (Ha' : a ∈ map snd ((u, a) :: tr)) by (now left).
        apply Hatt in Ha'. cbn [map fst] in Ha'.
        rewrite !elem_of_cons in Ha'. rewrite !elem_of_cons.
        destruct Ha' as [?|[?|[->|?]]]; auto.
        exfalso. apply Hu. now left. }
      eapply rtc_l; [|apply IH', Ha].
      apply adjacent_spec. left. apply Hsub. left.
    + apply IH'. right. right. exact Hw.
Qed.

(** Decoding a sequence of numbers below its length plus two gives a
    graph on the nodes [0 .. len+1] in which every node can be reached
    from node 0. *)
Theorem from_prufer_sequence_spec sequence :
  Forall (fun v => v < length sequence + 2) sequence ->
  exists G,
    from_prufer_sequence sequence = Ok G /\
    nodes G = seq 0 (length sequence + 2) /\
    (forall a b, adjacent G a b -> b ∈ nodes G) /\
    forall w, w ∈ nodes G -> rtc (adjacent G) 0 w.
Proof.
  intros Hvalid. unfold from_prufer_sequence. cbn zeta.
  destruct (decode_init sequence Hvalid) as (k & Hk & Hinit).
  rewrite Hk, bind_Ok.
  destruct (decode_loop_ok _ _ _ Hinit Hvalid) as (st & Hloop & Hok).
  rewrite Hloop, bind_Ok.
  destruct (orphans_two _ _ Hok) as (x & y & Hel & Hxy & Hx & Hy & Hall).
  rewrite Hel. eexists. split; [reflexivity|].
  set (n := length sequence + 2) in *.
  destruct Hok as [[Hnodes Hused Hnd Htrace Hrange Hlen] [_ Hi _ _ _ _ _ Hus]].
  assert (HN : nodes (add_edge x y (T st)) = seq 0 n).
  { cbn [add_edge nodes]. rewrite Hnodes.
    rewrite !add_new_present; [reflexivity| |];
      rewrite ?add_new_present; apply elem_of_seq; lia. }
  assert (Hfst : forall a, a ∈ map fst (edges (T st)) -> a < n).
  { intros a Ha. assert (a ∈ not_orphaned st)
      by (rewrite Hused; apply elem_of_list_to_set, Ha).
    destruct (Hus a); [assumption | lia]. }
  assert (Hedge : forall a b, (a, b) ∈ edges (add_edge x y (T st)) -> a < n /\ b < n).
  { intros a b. cbn [add_edge edges]. rewrite elem_of_app.
    intros [Hab|Hab].
    - split.
      + apply Hfst, elem_of_map. exists (a, b). split; [reflexivity | exact Hab].
      + apply Hrange, elem_of_map. exists (a, b). split; [reflexivity | exact Hab].
    - apply list_elem_of_singleton in Hab. injection Hab as -> ->. split; assumption. }
  split; [exact HN|]. split.
  - intros a b Hab. rewrite HN. apply elem_of_seq.
    apply adjacent_spec in Hab as [Hab|Hab]; apply Hedge in Hab; lia.
  - assert (Hconn : forall w, w < n -> rtc (adjacent (add_edge x y (T st))) w x).
    { intros w Hw.
      apply (trace_connected _ x y) with (tr := edges (T st)).
      - cbn [add_edge edges]. apply elem_of_app. right. left.
      - intros e He. cbn [add_edge edges]. apply elem_of_app. now left.
      - exact Htrace.
      - intros a Ha. rewrite !elem_of_cons.
        destruct (Hall a (Hrange a Ha)) as [?|[?|?]]; auto.
      - rewrite !elem_of_cons. destruct (Hall w Hw) as [?|[?|?]]; auto. }
    intros w Hw. rewrite HN in Hw. apply elem_of_seq in Hw.
    transitivity x.
    + apply Hconn. lia.
    + apply rtc_adjacent_sym, Hconn. lia.
Qed.

End PruferFacts.

(** ** The random Pruefer sequence *)

Section UniqueFacts.

Import numpy equations_utils.

Lemma elem_of_unique_counts (l : list nat) val count :
  (val, count) ∈ unique_counts l <->
  val ∈ l /\ count = count_occ Nat.eq_dec l val.
Proof.
  unfold unique_counts. rewrite elem_of_map. split.
  - intros (v & [= -> ->] & Hv). split; [|reflexivity].
    rewrite merge_sort_Permutation in Hv. apply elem_of_remove_dups, Hv.
  - intros [Hv ->]. exists val. split; [reflexivity|].
    rewrite merge_sort_Permutation. apply elem_of_remove_dups, Hv.
Qed.

Lemma unique_counts_NoDup (l : list nat) :
  NoDup (map fst (unique_counts l)).
Proof.
  unfold unique_counts. rewrite map_map. cbn [fst]. rewrite map_id.
  rewrite merge_sort_Permutation. apply NoDup_remove_dups.
Qed.

(** Deleting the saturated values keeps exactly the numbers that do not
    occur [max_degree] times. *)
Lemma elem_of_delete_saturated max_degree prufer_sequence nums x :
  x ∈ delete_saturated max_degree prufer_sequence nums <->
  x ∈ nums /\ count_occ Nat.eq_dec prufer_sequence x < Nat.max 1 max_degree.
Proof.
  unfold delete_saturated.
  assert (Hfold : forall (uc : list (nat * nat)) (nums : list nat),
    x ∈ fold_left
          (fun nums '(val, count) =>
             if (max_degree <=? count)%nat then filter (fun x => x ≠ val) nums
             else nums) uc nums
    <-> x ∈ nums /\
        forall val count, (val, count) ∈ uc -> max_degree <= count -> x <> val).
  { induction uc as [|[val count] uc IH]; intros l; cbn [fold_left].
    - split; [|tauto]. intros Hx. split; [exact Hx|]. intros ? ? H. inversion H.
    - rewrite IH. destruct (Nat.leb_spec max_degree count) as [Hle|Hgt].
      + rewrite list_elem_of_filter. split.
        * intros [[Hne Hx] Hrest]. split; [exact Hx|].
          intros v c Hvc Hc. apply elem_of_cons in Hvc as [[= -> ->]|Hvc]; eauto.
        * intros [Hx Hall]. split; [split; [|exact Hx]|].
          -- apply (Hall val count); [left | exact Hle].
          -- intros v c Hvc. apply Hall. now right.
      + split.
        * intros [Hx Hrest]. split; [exact Hx|].
          intros v c Hvc Hc. apply elem_of_cons in Hvc as [[= -> ->]|Hvc]; [lia|eauto].
        * intros [Hx Hall]. split; [exact Hx|].
          intros v c Hvc. apply Hall. now right. }
  rewrite Hfold. split; intros [Hx Hall]; (split; [exact Hx|]).
  - destruct (decide (x ∈ prufer_sequence)) as [Hin|Hout].
    + destruct (Nat.le_gt_cases max_degree (count_occ Nat.eq_dec prufer_sequence x))
        as [Hle|Hgt]; [|lia].
      exfalso.
      apply (Hall x (count_occ Nat.eq_dec prufer_sequence x));
        [|exact Hle|reflexivity].
      apply elem_of_unique_counts. split; [exact Hin | reflexivity].
    + apply count_occ_zero in Hout. lia.
  - intros val count Hvc Hle ->. apply elem_of_unique_counts in Hvc as [Hin ->].
    assert (count_occ Nat.eq_dec prufer_sequence val > 0); [|lia].
    apply count_occ_In, list_elem_of_In, Hin.
Qed.

Lemma delete_saturated_NoDup max_degree prufer_sequence nums :
  NoDup nums -> NoDup (delete_saturated max_degree prufer_sequence nums).
Proof.
  unfold delete_saturated. generalize (unique_counts prufer_sequence).
  intros uc. revert nums. induction uc as [|[val count] uc IH]; intros nums Hnd;
    cbn [fold_left]; [exact Hnd|].
  apply IH. destruct (max_degree <=? count)%nat; [|exact Hnd].
  apply NoDup_filter, Hnd.
Qed.

(** After the second pass every weight is one plus the number of
    occurrences of its value. *)
Lemma add_counts_spec prufer_sequence nums :
  Forall2 (fun x p => p = (1 + Z.of_nat (count_occ Nat.eq_dec prufer_sequence x))%Z)
    nums (add_counts prufer_sequence nums (map (fun _ => 1%Z) nums)).
Proof.
  unfold add_counts.
  pose proof (unique_counts_NoDup prufer_sequence) as Hnd.
  assert (Hcnt : forall val count, (val, count) ∈ unique_counts prufer_sequence ->
                   val ∈ prufer_sequence /\ count = count_occ Nat.eq_dec prufer_sequence val)
    by (intros; now apply elem_of_unique_counts).
  assert (Hall : forall x, x ∈ prufer_sequence -> x ∈ map fst (unique_counts prufer_sequence)).
  { intros x Hx. apply elem_of_map. exists (x, count_occ Nat.eq_dec prufer_sequence x).
    split; [reflexivity|]. apply elem_of_unique_counts. auto. }
  cut (Forall2
         (fun x p => p = (1 + if decide (x ∈ map fst (unique_counts prufer_sequence))
                              then Z.of_nat (count_occ Nat.eq_dec prufer_sequence x)
                              else 0)%Z)
         nums
         (fold_left
            (fun proba '(val, count) =>
               zip_with (fun x p => if decide (x = val) then (p + Z.of_nat count)%Z else p)
                 nums proba)
            (unique_counts prufer_sequence) (map (fun _ => 1%Z) nums))).
  { intros H. eapply Forall2_impl; [exact H|]. cbn beta.
    intros x p ->. destruct (decide _) as [Hin|Hout]; [reflexivity|].
    assert (Hx : x ∉ prufer_sequence) by (intros Hx; apply Hout, Hall, Hx).
    apply count_occ_zero in Hx. rewrite Hx. reflexivity. }
  revert Hnd Hcnt. generalize (unique_counts prufer_sequence). clear Hall.
  induction l as [|[val count] uc IH] using rev_ind; intros Hnd Hcnt.
  - cbn [fold_left map]. induction nums as [|x nums IHn]; constructor; auto.
  - rewrite fold_left_app. cbn [fold_left].
    rewrite map_app in Hnd. cbn [map fst] in Hnd.
    apply NoDup_app in Hnd as (Hnd & Hdisj & _).
    assert (Hval : val ∉ map fst uc).
    { intros Hin. apply (Hdisj val Hin). left. }
    destruct (Hcnt val count) as [_ ->]; [apply elem_of_app; right; left|].
    specialize (IH Hnd (fun v c H => Hcnt v c (proj2 (elem_of_app _ _ _) (or_introl H)))).
    revert IH. generalize (fold_left
            (fun proba '(val, count) =>
               zip_with (fun x p => if decide (x = val) then (p + Z.of_nat count)%Z else p)
                 nums proba) uc (map (fun _ => 1%Z) nums)).
    intros proba IH. induction IH as [|x p xs ps Hp _ IHxs]; cbn [zip_with]; constructor.
    + subst p. rewrite map_app. cbn [map fst].
      destruct (decide (x = val)) as [->|Hne].
      * destruct (decide (val ∈ map fst uc)); [contradiction|].
        destruct (decide (val ∈ map fst uc ++ [val])) as [_|Hout]; [lia|].
        exfalso. apply Hout, elem_of_app. right. left.
      * destruct (decide (x ∈ map fst uc)) as [Hin|Hout];
          destruct (decide (x ∈ map fst uc ++ [val])) as [Hin'|Hout']; try reflexivity.
        -- exfalso. apply Hout', elem_of_app. now left.
        -- exfalso. apply elem_of_app in Hin' as [?|Hin']; [contradiction|].
           apply list_elem_of_singleton in Hin'. contradiction.
    + exact IHxs.
Qed.

End UniqueFacts.

Section ChoiceFacts.

Import numpy.

Lemma int64_small z : (- 2 ^ 63 <= z < 2 ^ 63)%Z -> int64 z = z.
Proof.
  intros H. unfold int64.
  change (2 ^ 64)%Z with (2 * 2 ^ 63)%Z. rewrite Z.mod_small; lia.
Qed.

Lemma fold_add_bounds (B : Z) (w : list Z) :
  Forall (fun x => 1 <= x <= B)%Z w ->
  forall acc,
    (acc + Z.of_nat (length w) <= fold_left Z.add w acc
     <= acc + Z.of_nat (length w) * B)%Z.
Proof.
  induction 1 as [|x w Hx _ IH]; intros acc; cbn [fold_left length].
  - lia.
  - specialize (IH (acc + x)%Z). rewrite Nat2Z.inj_succ, Z.mul_succ_l. lia.
Qed.

Lemma power_ok (M d : Z) (proba : list Z) :
  (0 <= d)%Z -> (M ^ d < 2 ^ 63)%Z ->
  Forall (fun p => 1 <= p <= M)%Z proba ->
  exists w, power proba d = Ok w /\ length w = length proba /\
            Forall (fun x => 1 <= x <= M ^ d)%Z w.
Proof.
  intros Hd HM Hp. unfold power.
  destruct (Z.ltb_spec d 0) as [?|_]; [lia|].
  eexists. split; [reflexivity|]. split; [apply length_map|].
  apply Forall_forall. intros x Hx. apply elem_of_map in Hx as (p & -> & Hin).
  rewrite Forall_forall in Hp. specialize (Hp p Hin).
  assert (H1 : (1 <= p ^ d)%Z).
  { rewrite <- (Z.pow_1_l d) by exact Hd. apply Z.pow_le_mono_l. lia. }
  assert (H2 : (p ^ d <= M ^ d)%Z) by (apply Z.pow_le_mono_l; lia).
  rewrite int64_small; lia.
Qed.

Lemma choice_ok (a : list nat) (w : list Z) (B : Z) g :
  a <> [] -> length a = length w ->
  Forall (fun x => 1 <= x <= B)%Z w ->
  (Z.of_nat (length a) * B < 2 ^ 63)%Z ->
  exists x g', choice a w (sum w) g = Ok (x, g') /\ x ∈ a.
Proof.
  intros Ha Hlen Hw HB.
  pose proof (fold_add_bounds B w Hw 0) as Hsum. rewrite <- Hlen in Hsum.
  assert (Hpos : (1 <= Z.of_nat (length a))%Z) by (destruct a; [contradiction | cbn; lia]).
  assert (Etotal : sum w = fold_left Z.add w 0%Z).
  { unfold sum. apply int64_small. lia. }
  unfold choice. rewrite Etotal.
  assert (Hvalid : valid_weights w (fold_left Z.add w 0%Z) = true).
  { unfold valid_weights. rewrite !andb_true_iff. split; [split|].
    - apply negb_true_iff, Z.eqb_neq. lia.
    - apply forallb_forall. intros x Hx. apply Z.leb_le.
      rewrite Forall_forall in Hw. apply list_elem_of_In, Hw in Hx.
      apply Z.mul_nonneg_nonneg; lia.
    - apply Z.eqb_refl. }
  rewrite Hvalid, <- Hlen, Nat.eqb_refl.
  assert (Hne : Nat.eqb (length a) 0 = false) by (apply Nat.eqb_neq; lia).
  rewrite Hne. cbn [negb andb].
  set (candidates := map fst (filter (fun xw => snd xw ≠ 0%Z) (zip a w))).
  assert (Hcand : length candidates <> 0).
  { unfold candidates. destruct a as [|x a]; [contradiction|].
    destruct w as [|y w]; [discriminate|].
    inversion Hw as [|? ? Hy _]; subst. cbn [zip_with].
    rewrite filter_cons_True by (cbn; lia). cbn. discriminate. }
  unfold random_below.
  destruct (lookup_lt_is_Some_2 candidates (stream g (position g) mod length candidates))
    as [x Hx]; [apply Nat.mod_upper_bound, Hcand|].
  rewrite Hx. eexists _, _. split; [reflexivity|].
  apply list_elem_of_lookup_2 in Hx. unfold candidates in Hx.
  apply elem_of_map in Hx as ([x' y] & -> & Hin).
  apply list_elem_of_filter in Hin as [_ Hin].
  apply elem_of_zip_l in Hin. exact Hin.
Qed.

(** The shuffle keeps the length and brings in no new number. *)
Lemma swap_spec (P : nat -> Prop) x i j :
  Forall P x -> Forall P (swap x i j) /\ length (swap x i j) = length x.
Proof.
  intros HP. unfold swap.
  destruct (x !! i) as [xi|] eqn:Ei; [|auto].
  destruct (x !! j) as [xj|] eqn:Ej; [|auto].
  rewrite !length_insert. split; [|reflexivity].
  rewrite Forall_forall in HP.
  apply Forall_insert; [apply Forall_insert|].
  - apply Forall_forall, HP.
  - apply HP. eapply list_elem_of_lookup_2, Ej.
  - apply HP. eapply list_elem_of_lookup_2, Ei.
Qed.

Lemma shuffle_spec (P : nat -> Prop) x g :
  Forall P x ->
  Forall P (fst (shuffle x g)) /\ length (fst (shuffle x g)) = length x.
Proof.
  unfold shuffle. generalize (length x - 1). intros i. revert x g.
  induction i as [|i IH]; intros x g HP; cbn [shuffle_from].
  - auto.
  - unfold random_below. destruct (swap_spec P x (Datatypes.S i)
      (stream g (position g) mod Datatypes.S (Datatypes.S i)) HP) as [HP' Hlen].
    destruct (IH _ {| stream := stream g; position := Datatypes.S (position g) |} HP')
      as [H1 H2].
    split; [exact H1 | rewrite H2; exact Hlen].
Qed.

End ChoiceFacts.

Section GeneratorFacts.

Import numpy networkx equations_utils.

Variables (n max_degree : nat) (degreeness : Z).
Hypothesis Hn : 1 <= n.
Hypothesis HM : 2 <= max_degree.
Hypothesis Hd : (0 <= degreeness)%Z.
Hypothesis Hbound :
  (Z.of_nat n * Z.of_nat max_degree ^ degreeness < 2 ^ 63)%Z.

(** The loop runs to the end: a number of [1 .. n] that the sequence
    lacks is never deleted, and the weights stay within 64 bits. *)
Lemma sample_sequence_ok : forall turns nums prufer_sequence g,
  n - length prufer_sequence <= turns ->
  length prufer_sequence <= n ->
  NoDup nums ->
  (forall x, x ∈ nums -> 1 <= x <= n) ->
  (forall x, 1 <= x <= n -> x ∉ prufer_sequence -> x ∈ nums) ->
  (forall x, x ∈ prufer_sequence -> x <= n) ->
  exists seq' g',
    sample_sequence turns n max_degree degreeness nums prufer_sequence g
    = Some (Ok (seq', g')) /\
    length seq' = n /\ forall x, x ∈ seq' -> x <= n.
Proof.
  assert (Hpow : (0 <= Z.of_nat max_degree ^ degreeness)%Z)
    by (apply Z.pow_nonneg; lia).
  induction turns as [|turns IH];
    intros nums prufer_sequence g Hturns Hlen Hnd Hrange Habsent Hseq;
    cbn [sample_sequence];
    destruct (Nat.ltb_spec (length prufer_sequence) n) as [Hlt|Hge];
    try (exists prufer_sequence, g; split; [reflexivity|]; split; [lia | exact Hseq]).
  - lia.
  - cbn zeta.
    set (nums' := delete_saturated max_degree prufer_sequence nums).
    assert (Hin' : forall x, x ∈ nums' <->
              x ∈ nums /\ count_occ Nat.eq_dec prufer_sequence x < max_degree).
    { intros x. unfold nums'. rewrite elem_of_delete_saturated.
      replace (Nat.max 1 max_degree) with max_degree by lia. reflexivity. }
    assert (Hnd' : NoDup nums') by (apply delete_saturated_NoDup, Hnd).
    assert (Hrange' : forall x, x ∈ nums' -> 1 <= x <= n).
    { intros x Hx. apply Hrange, Hin', Hx. }
    assert (Habsent' : forall x, 1 <= x <= n -> x ∉ prufer_sequence -> x ∈ nums').
    { intros x Hx Hout. apply Hin'. split; [apply Habsent; assumption|].
      apply count_occ_zero in Hout. lia. }
    assert (Hne : nums' <> []).
    { destruct (missing_number n 1 prufer_sequence Hlt) as (x & Hx & Hout).
      intros E. assert (Hx' : x ∈ nums') by (apply Habsent'; [lia | exact Hout]).
      rewrite E in Hx'. inversion Hx'. }
    assert (Hlen' : length nums' <= n).
    { assert (Hle : length nums' <= length (seq 1 n)).
      { apply NoDup_incl_le; [exact Hnd'|].
        intros x Hx. apply elem_of_seq. specialize (Hrange' x Hx). lia. }
      rewrite length_seq in Hle. exact Hle. }
    pose proof (add_counts_spec prufer_sequence nums') as Hproba.
    set (proba := add_counts prufer_sequence nums' (map (fun _ => 1%Z) nums')) in *.
    assert (Hplen : length nums' = length proba) by (eapply Forall2_length, Hproba).
    assert (Hp : Forall (fun p => 1 <= p <= Z.of_nat max_degree)%Z proba).
    { eapply Forall2_Forall_r; [exact Hproba|]. apply Forall_forall.
      intros x Hx p ->. apply Hin' in Hx as [_ Hx]. lia. }
    destruct (power_ok (Z.of_nat max_degree) degreeness proba Hd) as (w & Ew & Hwlen & Hw);
      [nia | exact Hp |].
    rewrite Ew.
    destruct (choice_ok nums' w (Z.of_nat max_degree ^ degreeness) g) as (num & g' & Ec & Hnum);
      [exact Hne | lia | exact Hw | nia |].
    rewrite Ec.
    apply IH.
    + rewrite length_app. cbn [length]. lia.
    + rewrite length_app. cbn [length]. lia.
    + exact Hnd'.
    + exact Hrange'.
    + intros x Hx Hout. apply Habsent'; [exact Hx|].
      intros Hin. apply Hout, elem_of_app. now left.
    + intros x Hx. apply elem_of_app in Hx as [Hx|Hx]; [auto|].
      apply list_elem_of_singleton in Hx. subst x.
      specialize (Hrange' num Hnum). lia.
Qed.

(** C2, amended: for [n >= 1], [max_degree >= 2] and an exponent
    [degreeness >= 0] whose weights fit 64-bit integers, every run of the
    generator returns a directed graph with [n + 2] distinct nodes and
    [n + 1] arcs, none of them into node 0, in which every node is reached
    from node 0. *)
Theorem generate_random_tree_spec (g : RandomState) :
  exists D,
    generate_random_tree_with_prior_on_arity n max_degree degreeness g
    = Some (Ok D) /\
    length (nodes D) = n + 2 /\
    NoDup (nodes D) /\
    (forall p, ~ arc D p 0) /\
    (forall w, w ∈ nodes D -> rtc (arc D) 0 w) /\
    length (edges D) = n + 1.
Proof.
  unfold generate_random_tree_with_prior_on_arity. cbn zeta.
  destruct (sample_sequence_ok n (seq 1 n) [0] g) as (s & g' & Es & Hslen & Hsrange).
  - cbn [length]. lia.
  - cbn [length]. lia.
  - apply NoDup_seq.
  - intros x Hx. apply elem_of_seq in Hx. lia.
  - intros x Hx _. apply elem_of_seq. lia.
  - intros x Hx. apply list_elem_of_singleton in Hx. lia.
  - rewrite Es.
    destruct (shuffle_spec (fun x => x <= n) s g') as [Hsh Hshlen];
      [apply Forall_forall, Hsrange|].
    destruct (shuffle s g') as [s' g'']. cbn [fst] in Hsh, Hshlen.
    assert (Hlen : length (take n s') = n) by (apply length_take_le; lia).
    destruct (from_prufer_sequence_spec (take n s')) as (G & EG & HN & Hwf & Hconn).
    { rewrite Hlen. eapply Forall_impl; [apply Forall_take, Hsh|].
      cbn beta. intros x Hx. lia. }
    rewrite EG, bind_Ok. rewrite Hlen in HN.
    destruct (bfs_tree_spec G 0 Hwf) as (H1 & H2 & H3 & H4 & H5).
    { rewrite HN. apply elem_of_seq. lia. }
    { rewrite HN. apply NoDup_seq. }
    { exact Hconn. }
    eexists. split; [reflexivity|].
    rewrite HN, length_seq in H1.
    split; [exact H1|]. split; [exact H2|]. split; [exact H3|].
    split; [exact H4|]. lia.
Qed.

End GeneratorFacts.

Lemma generate_random_tree_spec_witness :
  exists D,
    equations_utils.generate_random_tree_with_prior_on_arity 3 2 1
      {| numpy.stream := fun k => k; numpy.position := 0 |}
    = Some (Ok D) /\
    length (networkx.nodes D) = 3 + 2 /\
    NoDup (networkx.nodes D) /\
    (forall p, ~ networkx.arc D p 0) /\
    (forall w, w ∈ networkx.nodes D -> rtc (networkx.arc D) 0 w) /\
    length (networkx.edges D) = 3 + 1.
Proof.
  apply (generate_random_tree_spec 3 2 1); [lia | lia | lia | reflexivity].
Defined.

(** C2 as stated fails on a negative exponent: NumPy refuses to raise the
    integer weights to the power -1, so the call ends in [ValueError]
    instead of returning a tree. *)
Lemma generate_random_tree_negative_degreeness :
  equations_utils.generate_random_tree_with_prior_on_arity 2 2 (-1)
    {| numpy.stream := fun k => k; numpy.position := 0 |}
  = Some (Raise ValueError).
Proof. vm_compute. reflexivity. Qed.

(** An exponent that makes a weight overflow fails as well. *)
Example generate_random_tree_overflow :
  equations_utils.generate_random_tree_with_prior_on_arity 3 2 63
    {| numpy.stream := fun k => k; numpy.position := 0 |}
  = Some (Raise ValueError).
Proof. vm_compute. reflexivity. Qed.

Example generate_random_tree_five :
  equations_utils.generate_random_tree_with_prior_on_arity 5 3 1
    {| numpy.stream := fun k => 3 * k + 1; numpy.position := 0 |}
  = Some (Ok {| networkx.nodes := [0; 2; 3; 1; 6; 5; 4];
                networkx.edges := [(0, 2); (0, 3); (2, 1); (3, 6); (1, 5); (5, 4)] |}).
Proof. vm_compute. reflexivity. Qed.

Example postfix_of_linear :
  equations_utils.expr_to_postfix
    (Add [Mul [Symbol "const0"; Symbol "x0"]; Symbol "const1"])
  = Ok ([equations_utils.TStr "const0"; equations_utils.TStr "x0";
         equations_utils.TStr "Mul"; equations_utils.TStr "const1";
         equations_utils.TStr "Add"],
        [0; 0; 2; 0; 2]%Z)
  /\ equations_utils.reduce (fun _ => "")
       [equations_utils.TStr "const0"; equations_utils.TStr "x0";
        equations_utils.TStr "Mul"; equations_utils.TStr "const1";
        equations_utils.TStr "Add"]
       [0; 0; 2; 0; 2]%Z
     = Ok ["Add(Mul(Symbol('const0'),Symbol('x0')),Symbol('const1'))"].
Proof. split; reflexivity. Qed.

(** * Further properties *)

(** ** Traversals and their sequences *)

Section TraversalFacts.

Import equations_utils.

Lemma flat_map_Permutation {A B : Type} (f g : A -> list B) (l : list A) :
  Forall (fun a => f a ≡ₚ g a) l -> flat_map f l ≡ₚ flat_map g l.
Proof.
  induction 1 as [|a l Ha _ IH]; cbn [flat_map]; [reflexivity|].
  now rewrite Ha, IH.
Qed.

Lemma preorder_postorder e : preorder_traversal e ≡ₚ postorder_traversal e.
Proof.
  induction e as [n l IH] using expr_rect'.
  cbn [preorder_traversal postorder_traversal].
  rewrite (flat_map_Permutation _ _ l IH). apply Permutation_cons_append.
Qed.

(** The arities written for a list of nodes, whatever the tokens. *)
Lemma visit_arities l : forall toks arities toks' arities',
  for_each visit (toks, arities) l = Ok (toks', arities') ->
  arities' = arities ++ map (fun x => Z.of_nat (length (args x))) l /\
  length toks' <= length toks + length l.
Proof.
  induction l as [|x l IH]; intros toks arities toks' arities'; cbn [for_each].
  - intros [= <- <-]. rewrite app_nil_r. cbn. split; [reflexivity | lia].
  - destruct (visit (toks, arities) x) as [[t1 a1]|] eqn:Hv; [|discriminate].
    rewrite bind_Ok. intros Hrun.
    destruct (IH _ _ _ _ Hrun) as [-> Hlen].
    pose proof (visit_lengths _ _ _ _ _ Hv) as [_ Ht].
    assert (Ea : a1 = arities ++ [Z.of_nat (length (args x))]).
    { revert Hv. unfold visit.
      destruct (func_is_symbol (head x)); [now intros [= _ <-]|].
      destruct (is_Function (head x) || is_Add (head x) || is_Mul (head x)
                || is_Pow (head x)); [now intros [= _ <-]|].
      destruct (is_constant (head x)); [|now intros [= _ <-]].
      destruct (as_float (head x)); [now intros [= _ <-] | discriminate]. }
    subst a1. cbn [map length]. rewrite <- app_assoc. split; [reflexivity|].
    destruct (covered (head x)); lia.
Qed.

Lemma sum_arities_app (a b : list Z) :
  fold_right Z.add 0%Z (a ++ b) =
  (fold_right Z.add 0 a + fold_right Z.add 0 b)%Z.
Proof. induction a as [|x a IH]; cbn; [reflexivity | rewrite IH; lia]. Qed.

(** Every node but the root is the argument of exactly one node. *)
Lemma sum_arities_postorder e :
  (fold_right Z.add 0
     (map (fun x => Z.of_nat (length (args x))) (postorder_traversal e)) + 1 =
   Z.of_nat (length (postorder_traversal e)))%Z.
Proof.
  induction e as [n l IH] using expr_rect'. cbn [postorder_traversal].
  rewrite map_app, sum_arities_app, length_app. cbn [map fold_right length args].
  assert (Hl : (fold_right Z.add 0
                  (map (fun x => Z.of_nat (length (args x)))
                     (flat_map postorder_traversal l)) + Z.of_nat (length l) =
                Z.of_nat (length (flat_map postorder_traversal l)))%Z).
  { induction IH as [|a l Ha _ IHl]; cbn [flat_map length]; [reflexivity|].
    rewrite map_app, sum_arities_app, length_app. lia. }
  lia.
Qed.

Lemma sum_Permutation (a b : list Z) :
  a ≡ₚ b -> fold_right Z.add 0%Z a = fold_right Z.add 0%Z b.
Proof. induction 1; cbn; lia. Qed.

(** Whatever the expression, a returned postfix or infix pair has one
    arity per node, at most as many tokens, and arities that add up to
    the number of nodes less one. *)
Theorem arities_count_nodes e toks arities :
  expr_to_postfix e = Ok (toks, arities) \/ expr_to_infix e = Ok (toks, arities) ->
  length arities = length (postorder_traversal e) /\
  length toks <= length arities /\
  (fold_right Z.add 0 arities + 1 = Z.of_nat (length arities))%Z.
Proof.
  pose proof (preorder_postorder e) as Hperm.
  pose proof (sum_arities_postorder e) as Hsum.
  intros [H|H]; apply visit_arities in H as [-> Hlen]; cbn [app length] in *;
    rewrite length_map.
  - split; [reflexivity|]. split; [lia|]. exact Hsum.
  - rewrite (Permutation_length Hperm). split; [reflexivity|]. split.
    + rewrite (Permutation_length Hperm) in Hlen. lia.
    + rewrite (sum_Permutation _ _ (Permutation_map _ Hperm)). exact Hsum.
Qed.

(** When every node falls under one branch of the chain, a returned pair
    has as many tokens as arities, in postfix and in infix order. *)
Theorem covered_lengths_equal e toks arities :
  Forall (fun x => covered (head x) = true) (postorder_traversal e) ->
  expr_to_postfix e = Ok (toks, arities) \/ expr_to_infix e = Ok (toks, arities) ->
  length toks = length arities.
Proof.
  intros Hcov [H|H].
  - eapply for_each_visit_lengths; [exact Hcov | exact H | reflexivity].
  - eapply for_each_visit_lengths; [|exact H | reflexivity].
    rewrite (preorder_postorder e). exact Hcov.
Qed.

End TraversalFacts.

Lemma covered_lengths_equal_witness :
  length [equations_utils.TStr "x0"; equations_utils.TNum 2%float;
          equations_utils.TStr "Pow"] = length [0; 0; 2]%Z.
Proof.
  apply (covered_lengths_equal (Pow (Symbol "x0") (Float 2%float))).
  - repeat constructor.
  - left. reflexivity.
Defined.

Lemma arities_count_nodes_witness :
  length [0; 0; 2]%Z = 3 /\
  length [equations_utils.TStr "x0"; equations_utils.TNum 2%float;
          equations_utils.TStr "Pow"] <= length [0; 0; 2]%Z /\
  (fold_right Z.add 0 [0; 0; 2] + 1 = Z.of_nat (length [0; 0; 2]%Z))%Z.
Proof.
  apply (arities_count_nodes (Pow (Symbol "x0") (Float 2%float))).
  left. reflexivity.
Defined.

Section PairFacts.

Import equations_utils.

Variable str_float : float -> string.
Variable sympify : string -> result expr.

Lemma traverse_shaped l : forall toks arities,
  Forall (fun x =>
            (if func_is_symbol (head x) then is_nil (args x)
             else if is_operator (head x) then negb (is_nil (args x))
             else is_constant (head x) && is_nil (args x)
                  && is_ok (as_float (head x))) = true) l ->
  for_each visit (toks, arities) l =
  Ok (toks ++ map (fun x => token_of (head x)) l,
      arities ++ map (fun x => Z.of_nat (length (args x))) l).
Proof.
  induction l as [|[n a] l IH]; intros toks arities Hall; cbn [for_each map].
  - rewrite !app_nil_r. reflexivity.
  - inversion Hall as [|? ? Hx Hl]; subst. cbn [head args] in *.
    rewrite (visit_plain _ _ _ _ Hx), bind_Ok, (IH _ _ Hl), <- !app_assoc.
    reflexivity.
Qed.

Lemma plain_shaped e :
  plain e = true ->
  Forall (fun x =>
            (if func_is_symbol (head x) then is_nil (args x)
             else if is_operator (head x) then negb (is_nil (args x))
             else is_constant (head x) && is_nil (args x)
                  && is_ok (as_float (head x))) = true)
    (postorder_traversal e).
Proof.
  induction e as [n l IH] using expr_rect'. intros Hp.
  cbn [plain] in Hp. apply andb_true_iff in Hp as [Hl Hn].
  cbn [postorder_traversal]. apply Forall_app. split.
  - clear Hn. induction IH as [|a l Ha _ IHl]; cbn [flat_map]; [constructor|].
    cbn [forallb] in Hl. apply andb_true_iff in Hl as [Hpa Hl].
    apply Forall_app. split; [apply Ha, Hpa | apply IHl, Hl].
  - constructor; [exact Hn | constructor].
Qed.

Lemma combine_map_same {A B C : Type} (f : A -> B) (g : A -> C) (l : list A) :
  combine (map f l) (map g l) = map (fun x => (f x, g x)) l.
Proof. induction l as [|x l IH]; cbn; [reflexivity | now rewrite IH]. Qed.

(** The infix sequence of a plain expression pairs the same tokens with
    the same arities as its postfix sequence, in another order: it starts
    with the token of the root, with which the postfix sequence ends. *)
Theorem infix_postfix_same_pairs e :
  plain e = true ->
  exists post post_arity pre pre_arity,
    expr_to_postfix e = Ok (post, post_arity) /\
    expr_to_infix e = Ok (pre, pre_arity) /\
    combine pre pre_arity ≡ₚ combine post post_arity /\
    (exists rest, pre = token_of (head e) :: rest) /\
    (exists rest, post = rest ++ [token_of (head e)]).
Proof.
  intros Hp. pose proof (plain_shaped e Hp) as Hpost.
  assert (Hpre := Hpost). rewrite <- (preorder_postorder e) in Hpre.
  eexists _, _, _, _.
  split; [apply (traverse_shaped _ [] [] Hpost)|].
  split; [apply (traverse_shaped _ [] [] Hpre)|].
  cbn [app]. split; [|split].
  - rewrite !combine_map_same. apply Permutation_map, preorder_postorder.
  - destruct e as [n l]. cbn [preorder_traversal map]. eauto.
  - destruct e as [n l]. cbn [postorder_traversal]. rewrite map_app. cbn [map]. eauto.
Qed.

(** *** Malformed sequences *)

(** No tokens or no arities: nothing is pushed and [stack[0]] fails. *)
Theorem postfix_to_expr_empty post post_arity :
  post = [] \/ post_arity = [] ->
  postfix_to_expr str_float sympify post post_arity = Raise IndexError.
Proof.
  intros [-> | ->]; unfold postfix_to_expr, reduce; [reflexivity|].
  destruct post; reflexivity.
Qed.

Lemma pop_into_underflow k : forall stack stack_temporary,
  length stack < k -> pop_into k stack stack_temporary = Raise IndexError.
Proof.
  induction k as [|k IH]; intros stack tmp Hlen; [lia|].
  cbn [pop_into]. destruct stack as [|x stack _] using rev_ind.
  - reflexivity.
  - rewrite pop_snoc, bind_Ok. apply IH.
    rewrite length_app in Hlen. cbn [length] in Hlen. lia.
Qed.

Lemma for_each_raise {S A : Type} (body : S -> A -> result S) l1 x l2 st st' e :
  for_each body st l1 = Ok st' -> body st' x = Raise e ->
  for_each body st (l1 ++ x :: l2) = Raise e.
Proof.
  intros H1 Hx. rewrite for_each_app, H1, bind_Ok. cbn [for_each].
  rewrite Hx. reflexivity.
Qed.

Lemma combine_app_eq {A B : Type} (a a' : list A) (b b' : list B) :
  length a = length b ->
  combine (a ++ a') (b ++ b') = combine a b ++ combine a' b'.
Proof.
  revert b. induction a as [|x a IH]; intros [|y b] Hlen; try discriminate.
  - reflexivity.
  - cbn. f_equal. apply IH. now injection Hlen.
Qed.

(** A token that asks for more operands than the stack holds ends the
    call in [IndexError], whatever follows it. *)
Theorem postfix_to_expr_underflow post post_arity stack tok k post' post_arity' :
  length post = length post_arity ->
  reduce str_float post post_arity = Ok stack ->
  length stack < Z.to_nat k ->
  postfix_to_expr str_float sympify (post ++ tok :: post') (post_arity ++ k :: post_arity')
  = Raise IndexError.
Proof.
  intros Hlen Hred Hk. unfold postfix_to_expr, reduce in *.
  rewrite combine_app_eq by exact Hlen. cbn [combine].
  rewrite (for_each_raise _ _ _ _ _ stack IndexError Hred); [reflexivity|].
  unfold reduce_step. destruct (Z.eqb_spec k 0) as [->|_]; [cbn in Hk; lia|].
  rewrite pop_into_underflow by exact Hk. reflexivity.
Qed.

(** A number in the place of an operator: once its operands are popped,
    the join of the call text fails with [TypeError]. *)
Theorem postfix_to_expr_number_as_operator post post_arity stack x k post' post_arity' :
  length post = length post_arity ->
  reduce str_float post post_arity = Ok stack ->
  k <> 0%Z -> Z.to_nat k <= length stack ->
  postfix_to_expr str_float sympify (post ++ TNum x :: post') (post_arity ++ k :: post_arity')
  = Raise TypeError.
Proof.
  intros Hlen Hred Hk0 Hk. unfold postfix_to_expr, reduce in *.
  rewrite combine_app_eq by exact Hlen. cbn [combine].
  rewrite (for_each_raise _ _ _ _ _ stack TypeError Hred); [reflexivity|].
  unfold reduce_step. destruct (Z.eqb_spec k 0) as [?|_]; [contradiction|].
  rewrite <- (firstn_skipn (length stack - Z.to_nat k) stack).
  assert (El : Z.to_nat k = length (skipn (length stack - Z.to_nat k) stack)).
  { rewrite length_skipn. lia. }
  rewrite El at 1. rewrite pop_into_all, bind_Ok. reflexivity.
Qed.

(** The two sequences are zipped: tokens beyond the arities, or arities
    beyond the tokens, are never looked at. *)
Theorem postfix_to_expr_surplus_ignored post post_arity extra extra_arity :
  length post = length post_arity ->
  postfix_to_expr str_float sympify (post ++ extra) post_arity =
    postfix_to_expr str_float sympify post post_arity /\
  postfix_to_expr str_float sympify post (post_arity ++ extra_arity) =
    postfix_to_expr str_float sympify post post_arity.
Proof.
  intros Hlen. unfold postfix_to_expr, reduce.
  assert (H1 : combine (post ++ extra) post_arity = combine post post_arity).
  { rewrite <- (app_nil_r post_arity) at 1.
    rewrite combine_app_eq by exact Hlen. destruct extra; cbn; apply app_nil_r. }
  assert (H2 : combine post (post_arity ++ extra_arity) = combine post post_arity).
  { rewrite <- (app_nil_r post) at 1.
    rewrite combine_app_eq by exact Hlen. cbn. apply app_nil_r. }
  rewrite H1, H2. split; reflexivity.
Qed.

Lemma pop_into_zero stack : pop_into 0 stack [] = Ok (stack, []).
Proof. reflexivity. Qed.

(** A negative arity pops nothing: the token is pushed as a call without
    arguments. *)
Theorem reduce_negative_arity post post_arity stack f k :
  length post = length post_arity ->
  reduce str_float post post_arity = Ok stack ->
  (k < 0)%Z ->
  reduce str_float (post ++ [TStr f]) (post_arity ++ [k]) =
  Ok (stack ++ [f +:+ "()"]).
Proof.
  intros Hlen Hred Hk. unfold reduce in *.
  rewrite combine_app_eq by exact Hlen. cbn [combine].
  rewrite for_each_app, Hred, bind_Ok. cbn [for_each]. unfold reduce_step.
  destruct (Z.eqb_spec k 0) as [?|_]; [lia|].
  replace (Z.to_nat k) with 0 by lia. reflexivity.
Qed.

End PairFacts.

Lemma postfix_rebuilds_text_witness :
  exists post post_arity,
    equations_utils.expr_to_postfix (Pow (Symbol "x0") (Float 2%float))
    = Ok (post, post_arity) /\
    length post = length post_arity /\
    equations_utils.reduce (fun _ => "2.0") post post_arity
    = Ok [equations_utils.serialize (fun _ => "2.0")
            (Pow (Symbol "x0") (Float 2%float))] /\
    equations_utils.postfix_to_expr (fun _ => "2.0") (fun s => Ok (Symbol s))
      post post_arity
    = Ok (Symbol (equations_utils.serialize (fun _ => "2.0")
                    (Pow (Symbol "x0") (Float 2%float)))).
Proof.
  apply (postfix_rebuilds_text (fun _ => "2.0") (fun s => Ok (Symbol s))
           (Pow (Symbol "x0") (Float 2%float))).
  reflexivity.
Defined.

Lemma infix_postfix_same_pairs_witness :
  exists post post_arity pre pre_arity,
    equations_utils.expr_to_postfix (Pow (Symbol "x0") (Float 2%float))
    = Ok (post, post_arity) /\
    equations_utils.expr_to_infix (Pow (Symbol "x0") (Float 2%float))
    = Ok (pre, pre_arity) /\
    combine pre pre_arity ≡ₚ combine post post_arity /\
    (exists rest, pre = equations_utils.TStr "Pow" :: rest) /\
    (exists rest, post = rest ++ [equations_utils.TStr "Pow"]).
Proof.
  apply (infix_postfix_same_pairs (Pow (Symbol "x0") (Float 2%float))).
  reflexivity.
Defined.

Lemma postfix_to_expr_empty_witness :
  equations_utils.postfix_to_expr (fun _ => "2.0") (fun s => Ok (Symbol s))
    [] [0%Z] = Raise IndexError.
Proof.
  apply (postfix_to_expr_empty (fun _ => "2.0") (fun s => Ok (Symbol s)) [] [0%Z]).
  left. reflexivity.
Defined.

Lemma postfix_to_expr_underflow_witness :
  equations_utils.postfix_to_expr (fun _ => "2.0") (fun s => Ok (Symbol s))
    ([equations_utils.TStr "x0"] ++ equations_utils.TStr "Add" :: [])
    ([0%Z] ++ 2%Z :: [])
  = Raise IndexError.
Proof.
  apply (postfix_to_expr_underflow (fun _ => "2.0") (fun s => Ok (Symbol s))
           [equations_utils.TStr "x0"] [0%Z] ["Symbol('x0')"]);
    [reflexivity | reflexivity | cbn; lia].
Defined.

Lemma postfix_to_expr_number_as_operator_witness :
  equations_utils.postfix_to_expr (fun _ => "2.0") (fun s => Ok (Symbol s))
    ([equations_utils.TStr "x0"] ++ equations_utils.TNum 2%float :: [])
    ([0%Z] ++ 1%Z :: [])
  = Raise TypeError.
Proof.
  apply (postfix_to_expr_number_as_operator (fun _ => "2.0")
           (fun s => Ok (Symbol s))
           [equations_utils.TStr "x0"] [0%Z] ["Symbol('x0')"]);
    [reflexivity | reflexivity | discriminate | cbn; lia].
Defined.

Lemma postfix_to_expr_surplus_ignored_witness :
  equations_utils.postfix_to_expr (fun _ => "2.0") (fun s => Ok (Symbol s))
    ([equations_utils.TStr "x0"] ++ [equations_utils.TStr "x1"]) [0%Z]
  = equations_utils.postfix_to_expr (fun _ => "2.0") (fun s => Ok (Symbol s))
      [equations_utils.TStr "x0"] [0%Z] /\
  equations_utils.postfix_to_expr (fun _ => "2.0") (fun s => Ok (Symbol s))
    [equations_utils.TStr "x0"] ([0%Z] ++ [5%Z])
  = equations_utils.postfix_to_expr (fun _ => "2.0") (fun s => Ok (Symbol s))
      [equations_utils.TStr "x0"] [0%Z].
Proof.
  apply (postfix_to_expr_surplus_ignored (fun _ => "2.0") (fun s => Ok (Symbol s))
           [equations_utils.TStr "x0"] [0%Z]).
  reflexivity.
Defined.

Lemma reduce_negative_arity_witness :
  equations_utils.reduce (fun _ => "2.0")
    ([equations_utils.TStr "x0"] ++ [equations_utils.TStr "f"])
    ([0%Z] ++ [(-1)%Z])
  = Ok (["Symbol('x0')"] ++ ["f" +:+ "()"]).
Proof.
  apply (reduce_negative_arity (fun _ => "2.0")
           [equations_utils.TStr "x0"] [0%Z] ["Symbol('x0')"]);
    [reflexivity | reflexivity | lia].
Defined.

(** ** More on the equation wrapper *)

Section DictLoops.

Context {V : Type}.

(** A loop that stores, for each key of a list without repetition, a
    value computed from the key alone. *)
Lemma for_each_insert (f : string -> result V)
  (body : gmap string V -> string -> result (gmap string V)) :
  (forall d k, body d k = v ← f k; Ok (<[k := v]> d)) ->
  forall l d0 d,
    NoDup l ->
    for_each body d0 l = Ok d ->
    (forall k, k ∈ l -> exists v, f k = Ok v /\ d !! k = Some v) /\
    (forall k, k ∉ l -> d !! k = d0 !! k).
Proof.
  intros Hbody. induction l as [|k l IH]; intros d0 d Hnd; cbn [for_each].
  - intros [= <-]. split; [intros k Hk; inversion Hk | reflexivity].
  - rewrite Hbody. destruct (f k) as [v|e] eqn:Ef; [|discriminate].
    rewrite !bind_Ok. intros Hrun.
    apply NoDup_cons in Hnd as [Hk Hnd].
    destruct (IH _ _ Hnd Hrun) as [Hin Hout]. split.
    + intros k' Hk'. apply elem_of_cons in Hk' as [->|Hk']; [|auto].
      exists v. split; [exact Ef|]. rewrite (Hout k Hk). apply lookup_insert_eq.
    + intros k' Hk'. rewrite not_elem_of_cons in Hk'. destruct Hk' as [Hne Hk'].
      rewrite (Hout k' Hk'). apply lookup_insert_ne. congruence.
Qed.

Lemma for_each_not_ok {S A : Type} (body : S -> A -> result S) x :
  (forall st, is_ok (body st x) = false) ->
  forall l st, x ∈ l -> is_ok (for_each body st l) = false.
Proof.
  intros Hx. induction l as [|y l IH]; intros st Hin; [inversion Hin|].
  cbn [for_each]. apply elem_of_cons in Hin as [<-|Hin].
  - specialize (Hx st). destruct (body st x); [discriminate | reflexivity].
  - destruct (body st y) as [st'|e]; [|reflexivity]. rewrite bind_Ok. auto.
Qed.

End DictLoops.

Section WrapperMore.

Import equations_settings equations_utils equations_base.

Variable Derivative : expr -> string -> expr.
Variable numpy_function : string -> list ndarray -> result ndarray.
Variable rebuild : node -> list expr -> expr.

Lemma elem_of_symbol_names keep e x :
  x ∈ symbol_names keep e <->
  exists n, n ∈ atoms e /\ keep n = true /\ name n = x.
Proof.
  unfold symbol_names. rewrite elem_of_remove_dups, elem_of_map. split.
  - intros (n & -> & Hn). apply list_elem_of_filter in Hn as [Hk Hn]. eauto.
  - intros (n & Hn & Hk & <-). exists n. split; [reflexivity|].
    apply list_elem_of_filter. auto.
Qed.

(** The variables of a wrapper are its free variables together with its
    constants, and no name is both: a symbol is a constant exactly when
    its name contains the base name. *)
Theorem variables_partition (self : BaseEquation) x :
  (x ∈ variables self <-> x ∈ free_variables self \/ x ∈ constants self) /\
  (x ∈ free_variables self -> contains CONST_BASE_NAME x = false) /\
  (x ∈ constants self -> contains CONST_BASE_NAME x = true).
Proof.
  unfold variables, free_variables, constants, variables_of,
    free_variables_of, constants_of.
  rewrite !elem_of_symbol_names. split; [split|split].
  - intros (n & Hn & Hk & <-).
    destruct (contains CONST_BASE_NAME (name n)) eqn:Hc; [right|left];
      exists n; rewrite Hk, Hc; auto.
  - intros [(n & Hn & Hk & <-)|(n & Hn & Hk & <-)];
      apply andb_true_iff in Hk as [Hk _]; eauto.
  - intros (n & _ & Hk & <-). apply andb_true_iff in Hk as [_ Hk].
    now apply negb_true_iff in Hk.
  - intros (n & _ & Hk & <-). now apply andb_true_iff in Hk as [_ Hk].
Qed.

Lemma NoDup_symbol_names keep e : NoDup (symbol_names keep e).
Proof. apply NoDup_remove_dups. Qed.

(** What [numpy_to_sympy_constants] returns holds, for every constant of
    the expression and for no other name, the entry of [constants] at the
    index read off the name. *)
Theorem numpy_to_sympy_constants_binds (self : BaseEquation) cs d :
  numpy_to_sympy_constants (Some cs) self = Ok d ->
  (forall c, c ∈ constants self ->
     exists i v, int (str_replace CONST_BASE_NAME "" c) = Ok i /\
                 getitem cs i = Ok v /\ d !! c = Some v) /\
  (forall c, c ∉ constants self -> d !! c = None).
Proof.
  intros Hrun. unfold numpy_to_sympy_constants in Hrun.
  eapply (for_each_insert
            (fun c => i ← int (str_replace CONST_BASE_NAME "" c);
                      constants_getitem (Some cs) i)) in Hrun.
  - destruct Hrun as [Hin Hout]. split; [|exact Hout].
    intros c Hc. destruct (Hin c Hc) as (v & Hv & Hd).
    destruct (int (str_replace CONST_BASE_NAME "" c)) as [i|] eqn:Ei; [|discriminate].
    rewrite bind_Ok in Hv. exists i, v. auto.
  - intros m c. destruct (int _); [|reflexivity]. rewrite !bind_Ok.
    destruct (constants_getitem _ _); reflexivity.
  - apply NoDup_symbol_names.
Qed.

(** Likewise [numpy_to_sympy_array] binds every free variable, and no
    other name, to the column of [X] at the index read off its name. *)
Theorem numpy_to_sympy_array_binds (self : BaseEquation) X d :
  numpy_to_sympy_array X self = Ok d ->
  (forall x, x ∈ free_variables self ->
     exists i col, int (str_replace "x" "" x) = Ok i /\
                   column X i = Ok col /\ d !! x = Some col) /\
  (forall x, x ∉ free_variables self -> d !! x = None).
Proof.
  intros Hrun. unfold numpy_to_sympy_array in Hrun.
  eapply (for_each_insert
            (fun x => i ← int (str_replace "x" "" x); column X i)) in Hrun.
  - destruct Hrun as [Hin Hout]. split; [|exact Hout].
    intros x Hx. destruct (Hin x Hx) as (v & Hv & Hd).
    destruct (int (str_replace "x" "" x)) as [i|] eqn:Ei; [|discriminate].
    rewrite bind_Ok in Hv. exists i, v. auto.
  - intros m x. destruct (int _); [|reflexivity]. rewrite !bind_Ok.
    destruct (column _ _); reflexivity.
  - apply NoDup_symbol_names.
Qed.

End WrapperMore.

Section WrapperErrors.

Import equations_settings equations_utils equations_base.

Variable Derivative : expr -> string -> expr.
Variable numpy_function : string -> list ndarray -> result ndarray.
Variable rebuild : node -> list expr -> expr.

Lemma is_ok_bind_l {A B : Type} (m : result A) (k : A -> result B) :
  is_ok m = false -> is_ok (m ≫= k) = false.
Proof. destruct m; [discriminate | reflexivity]. Qed.

Lemma is_ok_bind_r {A B : Type} (m : result A) (k : A -> result B) :
  (forall a, is_ok (k a) = false) -> is_ok (m ≫= k) = false.
Proof. intros H. destruct m; [apply H | reflexivity]. Qed.

Lemma getitem_out_of_range {A : Type} (l : list A) i :
  (i < - Z.of_nat (length l) \/ Z.of_nat (length l) <= i)%Z ->
  getitem l i = Raise IndexError.
Proof.
  intros Hi. unfold getitem.
  destruct (Z.ltb_spec i 0);
    destruct (Z.leb_spec 0 (i + Z.of_nat (length l)));
    destruct (Z.leb_spec 0 i);
    destruct (Z.ltb_spec (i + Z.of_nat (length l)) (Z.of_nat (length l)));
    destruct (Z.ltb_spec i (Z.of_nat (length l)));
    try reflexivity; lia.
Qed.

Lemma constants_loop_not_ok (self : BaseEquation) constants_arg c :
  c ∈ constants self ->
  (forall i, int (str_replace CONST_BASE_NAME "" c) = Ok i ->
             is_ok (constants_getitem constants_arg i) = false) ->
  is_ok (numpy_to_sympy_constants constants_arg self) = false.
Proof.
  intros Hc Hbad. unfold numpy_to_sympy_constants.
  apply (for_each_not_ok _ c); [|exact Hc].
  intros st. destruct (int (str_replace CONST_BASE_NAME "" c)) as [i|] eqn:Ei;
    [|reflexivity].
  rewrite bind_Ok. apply is_ok_bind_l, Hbad. reflexivity.
Qed.

Lemma constants_not_ok_everywhere (self : BaseEquation) X constants_arg :
  is_ok (numpy_to_sympy_constants constants_arg self) = false ->
  is_ok (func numpy_function self X constants_arg) = false /\
  is_ok (derivative_wrt_constants numpy_function self X constants_arg) = false.
Proof.
  intros H. unfold func, derivative_wrt_constants.
  split; apply is_ok_bind_r; intros ?; apply is_ok_bind_l, H.
Qed.

(** A constants sequence that does not reach the index of some constant
    of the expression makes [subs], [func] and [derivative_wrt_constants]
    raise. *)
Theorem short_constants_raise (self : BaseEquation) X cs c i :
  c ∈ constants self ->
  int (str_replace CONST_BASE_NAME "" c) = Ok i ->
  (i < - Z.of_nat (length cs) \/ Z.of_nat (length cs) <= i)%Z ->
  is_ok (subs rebuild self (Some cs)) = false /\
  is_ok (func numpy_function self X (Some cs)) = false /\
  is_ok (derivative_wrt_constants numpy_function self X (Some cs)) = false.
Proof.
  intros Hc Hi Hrange.
  assert (H : is_ok (numpy_to_sympy_constants (Some cs) self) = false).
  { apply (constants_loop_not_ok _ _ c Hc). intros j Hj.
    rewrite Hi in Hj. injection Hj as <-. cbn [constants_getitem].
    rewrite getitem_out_of_range by exact Hrange. reflexivity. }
  split; [|apply constants_not_ok_everywhere, H].
  unfold subs. apply is_ok_bind_l, H.
Qed.

(** Without a constants sequence, [func] and [derivative_wrt_constants]
    raise as soon as the expression has a constant. *)
Theorem absent_constants_raise (self : BaseEquation) X :
  constants self <> [] ->
  is_ok (func numpy_function self X None) = false /\
  is_ok (derivative_wrt_constants numpy_function self X None) = false.
Proof.
  intros Hne. destruct (constants self) as [|c l] eqn:E; [contradiction|].
  apply (constants_not_ok_everywhere self X None).
  apply (constants_loop_not_ok _ _ c); [rewrite E; left | reflexivity].
Qed.

(** An input array without the column of some free variable makes
    [func] and [derivative_wrt_constants] raise. *)
Theorem missing_column_raises (self : BaseEquation) X constants_arg x i :
  x ∈ free_variables self ->
  int (str_replace "x" "" x) = Ok i ->
  (i < - Z.of_nat (n_cols X) \/ Z.of_nat (n_cols X) <= i)%Z ->
  is_ok (func numpy_function self X constants_arg) = false /\
  is_ok (derivative_wrt_constants numpy_function self X constants_arg) = false.
Proof.
  intros Hx Hi Hrange.
  assert (H : is_ok (numpy_to_sympy_array X self) = false).
  { unfold numpy_to_sympy_array. apply (for_each_not_ok _ x); [|exact Hx].
    intros st. rewrite Hi, bind_Ok. apply is_ok_bind_l. unfold column.
    destruct (Z.ltb_spec i 0);
      destruct (Z.leb_spec 0 (i + Z.of_nat (n_cols X)));
      destruct (Z.leb_spec 0 i);
      destruct (Z.ltb_spec (i + Z.of_nat (n_cols X)) (Z.of_nat (n_cols X)));
      destruct (Z.ltb_spec i (Z.of_nat (n_cols X)));
      try reflexivity; lia. }
  unfold func, derivative_wrt_constants. split; apply is_ok_bind_l, H.
Qed.

(** *** The tables built at construction *)

Lemma derivatives_lookup e wrt c :
  derivatives Derivative e wrt !! c =
  if decide (c ∈ wrt)
  then Some (lambdify (variables_of e) (Derivative e c))
  else None.
Proof.
  unfold derivatives.
  assert (H : forall (d0 : gmap string lambdified),
    fold_left (fun d v => <[v := lambdify (variables_of e) (Derivative e v)]> d)
      wrt d0 !! c =
    if decide (c ∈ wrt)
    then Some (lambdify (variables_of e) (Derivative e c))
    else d0 !! c).
  { induction wrt as [|v wrt IH]; intros d0; cbn [fold_left].
    - destruct (decide (c ∈ [])) as [Hin|_]; [inversion Hin | reflexivity].
    - rewrite IH. destruct (decide (c ∈ wrt)) as [Hin|Hout].
      + rewrite decide_True by (now right). reflexivity.
      + destruct (decide (c = v)) as [->|Hne].
        * rewrite decide_True by left. apply lookup_insert_eq.
        * rewrite decide_False by (rewrite elem_of_cons; tauto).
          apply lookup_insert_ne. congruence. }
  rewrite H. destruct (decide (c ∈ wrt)); [reflexivity | apply lookup_empty].
Qed.

(** Construction stores one compiled derivative per constant and one per
    free variable, under the name of the symbol and over all variables of
    the expression, and nothing else. *)
Theorem init_derivative_tables e c :
  _const_derivatives (__init__ Derivative e) !! c =
    (if decide (c ∈ constants (__init__ Derivative e))
     then Some (lambdify (variables_of e) (Derivative e c)) else None) /\
  _free_variable_derivatives (__init__ Derivative e) !! c =
    (if decide (c ∈ free_variables (__init__ Derivative e))
     then Some (lambdify (variables_of e) (Derivative e c)) else None).
Proof. split; apply derivatives_lookup. Qed.

Lemma for_each_append_length {A B : Type}
  (body : list B -> A -> result (list B)) :
  (forall acc x acc', body acc x = Ok acc' -> length acc' = Datatypes.S (length acc)) ->
  forall l acc acc',
    for_each body acc l = Ok acc' -> length acc' = length acc + length l.
Proof.
  intros Hbody. induction l as [|x l IH]; intros acc acc'; cbn [for_each].
  - intros [= <-]. cbn. lia.
  - destruct (body acc x) as [a1|] eqn:E; [|discriminate]. rewrite bind_Ok.
    intros Hrun. apply IH in Hrun. apply Hbody in E. cbn [length]. lia.
Qed.

(** [derivative_wrt_constants] returns one value per constant of the
    expression. *)
Theorem derivative_wrt_constants_length (self : BaseEquation) X constants_arg ds :
  derivative_wrt_constants numpy_function self X constants_arg = Ok ds ->
  length ds = length (constants self).
Proof.
  unfold derivative_wrt_constants.
  destruct (numpy_to_sympy_array X self) as [xs|]; [|discriminate].
  rewrite bind_Ok.
  destruct (numpy_to_sympy_constants constants_arg self) as [cs|]; [|discriminate].
  rewrite bind_Ok. intros Hrun.
  apply for_each_append_length in Hrun; [exact Hrun|].
  intros acc c acc'. destruct (_const_derivatives self !! c); [|discriminate].
  destruct (call_lambdified _ _ _ _); [|discriminate].
  rewrite bind_Ok. intros [= <-]. rewrite length_app. cbn. lia.
Qed.

Lemma symbol_names_weaken (keep keep' : node -> bool) e x :
  (forall n, keep n = true -> keep' n = true) ->
  x ∈ symbol_names keep e -> x ∈ symbol_names keep' e.
Proof.
  intros Hk. rewrite !elem_of_symbol_names.
  intros (n & Hn & Hkeep & Hx). exists n. auto.
Qed.

Lemma no_variables_no_symbols e :
  variables_of e = [] -> free_variables_of e = [] /\ constants_of e = [].
Proof.
  intros Hv. split.
  - destruct (free_variables_of e) as [|x l] eqn:E; [reflexivity|]. exfalso.
    apply (not_elem_of_nil x). rewrite <- Hv.
    apply (symbol_names_weaken
             (fun x => func_is_symbol x && negb (contains CONST_BASE_NAME (name x)))).
    + intros n Hn. now apply andb_true_iff in Hn as [Hn _].
    + fold (free_variables_of e). rewrite E. left.
  - destruct (constants_of e) as [|x l] eqn:E; [reflexivity|]. exfalso.
    apply (not_elem_of_nil x). rewrite <- Hv.
    apply (symbol_names_weaken
             (fun x => func_is_symbol x && contains CONST_BASE_NAME (name x))).
    + intros n Hn. now apply andb_true_iff in Hn as [Hn _].
    + fold (constants_of e). rewrite E. left.
Qed.

(** On an expression without symbols [func] looks neither at [X] nor at
    the constants (which may be absent): it is the value of the
    expression itself, whatever the two arguments are. *)
Theorem func_without_symbols e X constants_arg :
  variables (__init__ Derivative e) = [] ->
  func numpy_function (__init__ Derivative e) X constants_arg =
  evaluate numpy_function ∅ e /\
  forall X' constants_arg',
    func numpy_function (__init__ Derivative e) X' constants_arg' =
    func numpy_function (__init__ Derivative e) X constants_arg.
Proof.
  intros Hv. unfold variables in Hv. cbn [__init__ _expr] in Hv.
  destruct (no_variables_no_symbols e Hv) as [Hf Hc].
  assert (H : forall Y a,
    func numpy_function (__init__ Derivative e) Y a =
    evaluate numpy_function ∅ e).
  { intros Y a.
    unfold func, numpy_to_sympy_array, numpy_to_sympy_constants,
      free_variables, constants.
    cbn [__init__ _expr _lambdified_expr]. rewrite Hf, Hc.
    cbn [for_each]. rewrite !bind_Ok.
    unfold call_lambdified. cbn [lambdify params body]. rewrite Hv.
    reflexivity. }
  split; [apply H|]. intros X' c'. rewrite !H. reflexivity.
Qed.

End WrapperErrors.

Lemma numpy_to_sympy_constants_binds_witness :
  exists d,
    equations_base.numpy_to_sympy_constants (Some [3%float; 5%float])
      (equations_base.__init__ (fun e _ => e)
         (Add [Mul [Symbol "const0"; Symbol "x0"]; Symbol "const1"])) = Ok d /\
    (forall c,
       c ∈ equations_base.constants
             (equations_base.__init__ (fun e _ => e)
                (Add [Mul [Symbol "const0"; Symbol "x0"]; Symbol "const1"])) ->
       exists i v,
         equations_base.int
           (equations_utils.str_replace equations_settings.CONST_BASE_NAME "" c)
         = Ok i /\
         equations_base.getitem [3%float; 5%float] i = Ok v /\
         d !! c = Some v) /\
    (forall c,
       c ∉ equations_base.constants
             (equations_base.__init__ (fun e _ => e)
                (Add [Mul [Symbol "const0"; Symbol "x0"]; Symbol "const1"])) ->
       d !! c = None).
Proof.
  eexists. split; [reflexivity|].
  apply numpy_to_sympy_constants_binds. reflexivity.
Defined.

Lemma numpy_to_sympy_array_binds_witness :
  exists d,
    equations_base.numpy_to_sympy_array
      {| equations_base.n_cols := 1; equations_base.rows := [[2%float]] |}
      (equations_base.__init__ (fun e _ => e)
         (Add [Mul [Symbol "const0"; Symbol "x0"]; Symbol "const1"])) = Ok d /\
    (forall x,
       x ∈ equations_base.free_variables
             (equations_base.__init__ (fun e _ => e)
                (Add [Mul [Symbol "const0"; Symbol "x0"]; Symbol "const1"])) ->
       exists i col,
         equations_base.int (equations_utils.str_replace "x" "" x) = Ok i /\
         equations_base.column
           {| equations_base.n_cols := 1; equations_base.rows := [[2%float]] |} i
         = Ok col /\
         d !! x = Some col) /\
    (forall x,
       x ∉ equations_base.free_variables
             (equations_base.__init__ (fun e _ => e)
                (Add [Mul [Symbol "const0"; Symbol "x0"]; Symbol "const1"])) ->
       d !! x = None).
Proof.
  eexists. split; [reflexivity|].
  apply numpy_to_sympy_array_binds. reflexivity.
Defined.

Lemma short_constants_raise_witness :
  is_ok (equations_base.subs (fun n l => Basic n l)
           (equations_base.__init__ (fun e _ => e)
              (Add [Mul [Symbol "const0"; Symbol "x0"]; Symbol "const1"]))
           (Some [3%float])) = false /\
  is_ok (equations_base.func (fun _ _ => Raise TypeError)
           (equations_base.__init__ (fun e _ => e)
              (Add [Mul [Symbol "const0"; Symbol "x0"]; Symbol "const1"]))
           {| equations_base.n_cols := 1; equations_base.rows := [[2%float]] |}
           (Some [3%float])) = false /\
  is_ok (equations_base.derivative_wrt_constants (fun _ _ => Raise TypeError)
           (equations_base.__init__ (fun e _ => e)
              (Add [Mul [Symbol "const0"; Symbol "x0"]; Symbol "const1"]))
           {| equations_base.n_cols := 1; equations_base.rows := [[2%float]] |}
           (Some [3%float])) = false.
Proof.
  apply short_constants_raise with (c := "const1") (i := 1%Z).
  - vm_compute. right. left.
  - reflexivity.
  - right. cbn. lia.
Defined.

Lemma absent_constants_raise_witness :
  is_ok (equations_base.func (fun _ _ => Raise TypeError)
           (equations_base.__init__ (fun e _ => e) (Symbol "const0"))
           {| equations_base.n_cols := 1; equations_base.rows := [[2%float]] |}
           None) = false /\
  is_ok (equations_base.derivative_wrt_constants (fun _ _ => Raise TypeError)
           (equations_base.__init__ (fun e _ => e) (Symbol "const0"))
           {| equations_base.n_cols := 1; equations_base.rows := [[2%float]] |}
           None) = false.
Proof.
  apply absent_constants_raise.
  intros H. vm_compute in H. discriminate H.
Defined.

Lemma missing_column_raises_witness :
  is_ok (equations_base.func (fun _ _ => Raise TypeError)
           (equations_base.__init__ (fun e _ => e)
              (Add [Symbol "x0"; Symbol "x3"]))
           {| equations_base.n_cols := 2;
              equations_base.rows := [[2%float; 4%float]] |}
           None) = false /\
  is_ok (equations_base.derivative_wrt_constants (fun _ _ => Raise TypeError)
           (equations_base.__init__ (fun e _ => e)
              (Add [Symbol "x0"; Symbol "x3"]))
           {| equations_base.n_cols := 2;
              equations_base.rows := [[2%float; 4%float]] |}
           None) = false.
Proof.
  apply missing_column_raises with (x := "x3") (i := 3%Z).
  - vm_compute. right. left.
  - reflexivity.
  - right. cbn. lia.
Defined.

Lemma derivative_wrt_constants_length_witness :
  length [equations_base.Array [2%float]; equations_base.Scalar 1%float] =
  length (equations_base.constants
            (equations_base.__init__
               (fun e c => if String.eqb c "const0" then Symbol "x0"
                           else Float 1%float)
               (Add [Mul [Symbol "const0"; Symbol "x0"]; Symbol "const1"]))).
Proof.
  apply derivative_wrt_constants_length with
    (numpy_function := fun _ _ => Raise TypeError)
    (X := {| equations_base.n_cols := 1; equations_base.rows := [[2%float]] |})
    (constants_arg := Some [3%float; 5%float]).
  vm_compute. reflexivity.
Defined.

Lemma func_without_symbols_witness :
  equations_base.func (fun _ _ => Raise TypeError)
    (equations_base.__init__ (fun e _ => e)
       (Add [Float 2%float; Float 3%float]))
    {| equations_base.n_cols := 1; equations_base.rows := [[2%float]] |}
    None
  = equations_base.evaluate (fun _ _ => Raise TypeError) ∅
      (Add [Float 2%float; Float 3%float]) /\
  forall X' constants_arg',
    equations_base.func (fun _ _ => Raise TypeError)
      (equations_base.__init__ (fun e _ => e)
         (Add [Float 2%float; Float 3%float])) X' constants_arg'
    = equations_base.func (fun _ _ => Raise TypeError)
        (equations_base.__init__ (fun e _ => e)
           (Add [Float 2%float; Float 3%float]))
        {| equations_base.n_cols := 1; equations_base.rows := [[2%float]] |}
        None.
Proof.
  apply func_without_symbols.
  reflexivity.
Defined.

(** ** The tree of an expression *)

Section TreeFacts.

Import networkx equations_utils.

Variable str : expr -> string.
Variable expr_is_constant : expr -> result bool.

Abbreviation expr_to_tree_at :=
  (equations_utils.expr_to_tree_at str expr_is_constant).
Abbreviation expr_to_tree := (equations_utils.expr_to_tree str expr_is_constant).
Abbreviation visit_child := (equations_utils.visit_child str expr_is_constant).
Abbreviation set_label := (equations_utils.set_label str expr_is_constant).
Abbreviation tree_label := (equations_utils.tree_label str expr_is_constant).
Abbreviation chain_returns := (equations_utils.chain_returns expr_is_constant).

Lemma expr_to_tree_at_eq n l D node :
  expr_to_tree_at (Basic n l) D node =
  (D0 ← set_label (Basic n l) D node; for_each (visit_child node) (D0, node) l).
Proof. reflexivity. Qed.

Lemma expr_to_tree_at_inv n l D node R :
  expr_to_tree_at (Basic n l) D node = Ok R ->
  exists D0,
    set_label (Basic n l) D node = Ok D0 /\
    for_each (visit_child node) (D0, node) l = Ok R.
Proof.
  rewrite expr_to_tree_at_eq.
  destruct (set_label (Basic n l) D node) as [D0|]; [|discriminate].
  rewrite bind_Ok. eauto.
Qed.

Lemma loop_cons_inv parent c l D node R :
  for_each (visit_child parent) (D, node) (c :: l) = Ok R ->
  exists D2 node2,
    expr_to_tree_at c (DiGraph.add_edge parent (node + 1) D) (node + 1)
    = Ok (D2, node2) /\
    for_each (visit_child parent) (D2, node2) l = Ok R.
Proof.
  cbn [for_each equations_utils.visit_child].
  destruct (expr_to_tree_at c _ (node + 1)) as [[D2 node2]|]; [|discriminate].
  rewrite bind_Ok. eauto.
Qed.

Lemma node_count_eq n l :
  node_count (Basic n l) = Datatypes.S (length (flat_map preorder_traversal l)).
Proof. reflexivity. Qed.

Lemma node_count_pos e : 1 <= node_count e.
Proof. destruct e. rewrite node_count_eq. lia. Qed.

(** What the chain does to the graph, when it raises nothing. *)
Lemma set_label_Ok e D node D0 :
  set_label e D node = Ok D0 ->
  DiGraph.edges D0 = DiGraph.edges D /\
  (forall i,
     DiGraph.attr_expr D0 !! i =
     if decide (i = node) then
       match tree_label e with
       | Some s => Some s
       | None => DiGraph.attr_expr D !! node
       end
     else DiGraph.attr_expr D !! i) /\
  (node ∈ DiGraph.nodes D -> DiGraph.nodes D0 = DiGraph.nodes D) /\
  (is_Some (tree_label e) ->
   DiGraph.nodes D0 = add_new (DiGraph.nodes D) node) /\
  (tree_label e = None -> D0 = D).
Proof.
  assert (Hadd : forall s,
    DiGraph.edges (DiGraph.add_node node s D) = DiGraph.edges D /\
    (forall i,
       DiGraph.attr_expr (DiGraph.add_node node s D) !! i =
       if decide (i = node) then Some s else DiGraph.attr_expr D !! i) /\
    (node ∈ DiGraph.nodes D ->
     DiGraph.nodes (DiGraph.add_node node s D) = DiGraph.nodes D) /\
    (is_Some (Some s) ->
     DiGraph.nodes (DiGraph.add_node node s D) = add_new (DiGraph.nodes D) node) /\
    (Some s = None -> DiGraph.add_node node s D = D)).
  { intros s. split; [reflexivity|]. split; [|split; [|split]].
    - intros i. cbn [DiGraph.add_node DiGraph.attr_expr].
      destruct (decide (i = node)) as [->|Hne];
        [apply lookup_insert_eq | apply lookup_insert_ne; congruence].
    - intros Hin. cbn [DiGraph.add_node DiGraph.nodes].
      now apply add_new_present.
    - reflexivity.
    - discriminate. }
  assert (Hkeep :
    DiGraph.edges D = DiGraph.edges D /\
    (forall i,
       DiGraph.attr_expr D !! i =
       if decide (i = node) then DiGraph.attr_expr D !! node
       else DiGraph.attr_expr D !! i) /\
    (node ∈ DiGraph.nodes D -> DiGraph.nodes D = DiGraph.nodes D) /\
    (is_Some (@None string) ->
     DiGraph.nodes D = add_new (DiGraph.nodes D) node) /\
    (@None string = None -> D = D)).
  { split; [reflexivity|]. split; [|split; [|split]]; try reflexivity.
    - intros i. destruct (decide (i = node)) as [->|]; reflexivity.
    - intros [? H]. discriminate H. }
  unfold equations_utils.set_label, equations_utils.tree_label, is_operator.
  destruct (func_is_symbol (head e)); [intros [= <-]; apply Hadd|].
  destruct (_ || _); [intros [= <-]; apply Hadd|].
  destruct (expr_is_constant e) as [[|]|]; cbn;
    [intros [= <-]; apply Hadd | intros [= <-]; exact Hkeep | discriminate].
Qed.

Lemma set_label_is_ok e D node :
  is_ok (set_label e D node) = chain_returns e.
Proof.
  unfold equations_utils.set_label, equations_utils.chain_returns, is_operator.
  destruct (func_is_symbol (head e)); [reflexivity|].
  destruct (_ || _); [reflexivity|].
  destruct (expr_is_constant e) as [[|]|]; reflexivity.
Qed.

(** *** When the call returns *)

Lemma is_ok_at e : forall D node,
  is_ok (expr_to_tree_at e D node) = forallb chain_returns (preorder_traversal e).
Proof.
  induction e as [n l IH] using expr_rect'. intros D node.
  rewrite expr_to_tree_at_eq. cbn [preorder_traversal forallb].
  rewrite <- (set_label_is_ok (Basic n l) D node).
  destruct (set_label (Basic n l) D node) as [D0|]; [|reflexivity].
  rewrite bind_Ok. cbn [is_ok andb].
  generalize node at 1 as parent. intros parent. revert D0 node.
  induction IH as [|c l Hc _ IHl]; intros D0 node; [reflexivity|].
  cbn [for_each flat_map equations_utils.visit_child].
  rewrite forallb_app, <- (Hc (DiGraph.add_edge parent (node + 1) D0) (node + 1)).
  destruct (expr_to_tree_at c _ (node + 1)) as [[D2 node2]|]; [|reflexivity].
  rewrite bind_Ok. cbn [is_ok andb]. apply IHl.
Qed.

(** *** The last node *)

Lemma last_node_at e : forall D node D' node',
  expr_to_tree_at e D node = Ok (D', node') ->
  node' + 1 = node + node_count e.
Proof.
  induction e as [n l IH] using expr_rect'. intros D node D' node' Hrun.
  apply expr_to_tree_at_inv in Hrun as (D0 & _ & Hrun).
  rewrite node_count_eq. revert Hrun.
  generalize node at 1 as parent. intros parent. revert D0 node.
  induction IH as [|c l Hc _ IHl]; intros D0 node Hrun.
  - cbn in Hrun. injection Hrun as <- <-. cbn. lia.
  - apply loop_cons_inv in Hrun as (D2 & node2 & Hchild & Hrest).
    cbn [flat_map]. rewrite length_app. fold (node_count c).
    apply Hc in Hchild. apply IHl in Hrest. lia.
Qed.

(** *** Edges *)

Lemma add_edge_fresh u v D :
  Forall (fun p => snd p < v) (DiGraph.edges D) ->
  DiGraph.edges (DiGraph.add_edge u v D) = DiGraph.edges D ++ [(u, v)].
Proof.
  intros Hall. cbn [DiGraph.add_edge DiGraph.edges].
  destruct (decide ((u, v) ∈ DiGraph.edges D)) as [Hin|]; [|reflexivity].
  rewrite Forall_forall in Hall. apply Hall in Hin. cbn in Hin. lia.
Qed.

Lemma no_edge_from u (new : list (nat * nat)) :
  Forall (fun p => fst p <> u) new ->
  filter (fun p => fst p = u) new = [].
Proof.
  induction 1 as [|p new Hp _ IH]; [reflexivity|].
  rewrite filter_cons_False by exact Hp. exact IH.
Qed.

Lemma targets_below (new : list (nat * nat)) a k :
  map snd new = seq a k -> Forall (fun p => a <= snd p < a + k) new.
Proof.
  intros Hmap. apply Forall_forall. intros p Hp.
  assert (Hin : In (snd p) (seq a k)).
  { rewrite <- Hmap. apply in_map. now apply list_elem_of_In. }
  apply in_seq in Hin. lia.
Qed.

Lemma edges_at e : forall D node D' node',
  expr_to_tree_at e D node = Ok (D', node') ->
  Forall (fun p => snd p <= node) (DiGraph.edges D) ->
  exists new,
    DiGraph.edges D' = DiGraph.edges D ++ new /\
    map snd new = seq (node + 1) (node_count e - 1) /\
    Forall (fun p => node <= fst p /\ fst p < snd p) new /\
    map (fun u => length (filter (fun p => fst p = u) new))
        (seq node (node_count e))
    = map (fun a => length (args a)) (preorder_traversal e).
Proof.
  induction e as [n l IH] using expr_rect'. intros D node D' node' Hrun HD.
  apply expr_to_tree_at_inv in Hrun as (D0 & Hlabel & Hrun).
  apply set_label_Ok in Hlabel as (Hedges & _).
  rewrite node_count_eq. rewrite <- Hedges in HD |- *. clear Hedges D.
  assert (Hloop : forall node0 D1,
    for_each (visit_child node) (D1, node0) l = Ok (D', node') ->
    node <= node0 ->
    Forall (fun p => snd p <= node0) (DiGraph.edges D1) ->
    exists new,
      DiGraph.edges D' = DiGraph.edges D1 ++ new /\
      map snd new = seq (node0 + 1) (length (flat_map preorder_traversal l)) /\
      Forall (fun p => (fst p = node \/ node0 < fst p) /\ fst p < snd p) new /\
      length (filter (fun p => fst p = node) new) = length l /\
      map (fun u => length (filter (fun p => fst p = u) new))
          (seq (node0 + 1) (length (flat_map preorder_traversal l)))
      = map (fun a => length (args a)) (flat_map preorder_traversal l)).
  { clear HD Hrun D0.
    induction IH as [|c l Hc _ IHl]; intros node0 D1 Hrun Hle HD1.
    - cbn in Hrun. injection Hrun as <- <-.
      exists []. cbn. rewrite app_nil_r. repeat split; constructor.
    - apply loop_cons_inv in Hrun as (D2 & node2 & Hchild & Hrest).
      cbn [flat_map]. rewrite length_app. fold (node_count c).
      pose proof (node_count_pos c) as Hpos.
      pose proof (last_node_at _ _ _ _ _ Hchild) as Hlast.
      set (Dn := DiGraph.add_edge node (node0 + 1) D1) in *.
      assert (HDn : DiGraph.edges Dn = DiGraph.edges D1 ++ [(node, node0 + 1)]).
      { apply add_edge_fresh. eapply Forall_impl; [exact HD1|]. cbn. intros; lia. }
      destruct (Hc _ _ _ _ Hchild) as (newc & Ec & Tc & Sc & Oc).
      { rewrite HDn. apply Forall_app. split.
        - eapply Forall_impl; [exact HD1|]. cbn. intros; lia.
        - repeat constructor. }
      pose proof (targets_below _ _ _ Tc) as Bc.
      destruct (IHl _ _ Hrest) as (new' & E' & T' & S' & P' & O'); [lia| |].
      { rewrite Ec, HDn. rewrite !Forall_app. repeat split.
        - eapply Forall_impl; [exact HD1|]. cbn. intros; lia.
        - repeat constructor. cbn. lia.
        - eapply Forall_impl; [exact Bc|]. cbn. intros; lia. }
      exists ((node, node0 + 1) :: newc ++ new').
      split; [|split; [|split; [|split]]].
      + rewrite E', Ec, HDn. rewrite <- !app_assoc. reflexivity.
      + cbn [map snd]. rewrite map_app, Tc, T'.
        replace (node_count c + length (flat_map preorder_traversal l))
          with (Datatypes.S ((node_count c - 1) + length (flat_map preorder_traversal l)))
          by lia.
        cbn [seq]. f_equal. rewrite seq_app. f_equal; [f_equal; lia|].
        f_equal. lia.
      + constructor; [cbn; split; [left; reflexivity|lia]|].
        apply Forall_app. split.
        * eapply Forall_impl; [exact Sc|]. cbn. intros p [? ?]. split; [right|]; lia.
        * eapply Forall_impl; [exact S'|]. cbn. intros p [[?|?] ?]; split; auto.
          right. lia.
      + rewrite filter_cons_True by reflexivity.
        rewrite filter_app, no_edge_from.
        * cbn [app length]. rewrite P'. reflexivity.
        * eapply Forall_impl; [exact Sc|]. cbn. intros p [? ?]. lia.
      + rewrite seq_app, !map_app. f_equal.
        * rewrite <- Oc. apply map_ext_in. intros u Hu. apply in_seq in Hu.
          rewrite filter_cons_False by (cbn; lia).
          rewrite filter_app, length_app.
          rewrite (no_edge_from u new'); [cbn; lia|].
          eapply Forall_impl; [exact S'|]. cbn. intros p [[?|?] ?]; lia.
        * replace (node0 + 1 + node_count c) with (node2 + 1) by lia.
          rewrite <- O'. apply map_ext_in. intros u Hu. apply in_seq in Hu.
          rewrite filter_cons_False by (cbn; lia).
          rewrite filter_app, length_app.
          rewrite (no_edge_from u newc); [reflexivity|].
          rewrite Forall_forall in Sc, Bc. apply Forall_forall.
          intros p Hp. specialize (Sc p Hp). specialize (Bc p Hp). lia. }
  destruct (Hloop node D0 Hrun (le_n _) HD) as (new & E & T & S & P & O).
  exists new. split; [exact E|]. split; [|split].
  - rewrite T. f_equal. lia.
  - eapply Forall_impl; [exact S|]. cbn. intros p [[?|?] ?]; lia.
  - cbn [seq map preorder_traversal args]. f_equal; [exact P|].
    rewrite <- O. f_equal. f_equal. lia.
Qed.

(** *** Attributes *)

Lemma attrs_at e : forall D node D' node',
  expr_to_tree_at e D node = Ok (D', node') ->
  (forall i, node <= i -> DiGraph.attr_expr D !! i = None) ->
  (forall i, i < node -> DiGraph.attr_expr D' !! i = DiGraph.attr_expr D !! i) /\
  (forall i, node + node_count e <= i -> DiGraph.attr_expr D' !! i = None) /\
  map (fun i => DiGraph.attr_expr D' !! i) (seq node (node_count e))
  = map tree_label (preorder_traversal e).
Proof.
  induction e as [n l IH] using expr_rect'. intros D node D' node' Hrun HD.
  apply expr_to_tree_at_inv in Hrun as (D0 & Hlabel & Hrun).
  apply set_label_Ok in Hlabel as (_ & Hattr & _).
  rewrite node_count_eq.
  assert (Hloop : forall node0 D1,
    for_each (visit_child node) (D1, node0) l = Ok (D', node') ->
    (forall i, node0 < i -> DiGraph.attr_expr D1 !! i = None) ->
    (forall i, i <= node0 ->
       DiGraph.attr_expr D' !! i = DiGraph.attr_expr D1 !! i) /\
    (forall i, node0 + length (flat_map preorder_traversal l) < i ->
       DiGraph.attr_expr D' !! i = None) /\
    map (fun i => DiGraph.attr_expr D' !! i)
        (seq (node0 + 1) (length (flat_map preorder_traversal l)))
    = map tree_label (flat_map preorder_traversal l)).
  { clear HD Hrun Hattr D0.
    induction IH as [|c l Hc _ IHl]; intros node0 D1 Hrun HD1.
    - cbn in Hrun. injection Hrun as <- <-.
      cbn. split; [reflexivity|]. split; [|reflexivity].
      intros i Hi. apply HD1. lia.
    - apply loop_cons_inv in Hrun as (D2 & node2 & Hchild & Hrest).
      cbn [flat_map]. rewrite length_app. fold (node_count c).
      pose proof (node_count_pos c) as Hpos.
      pose proof (last_node_at _ _ _ _ _ Hchild) as Hlast.
      destruct (Hc _ _ _ _ Hchild) as (Lc & Uc & Mc).
      { intros i Hi. cbn [DiGraph.add_edge DiGraph.attr_expr]. apply HD1. lia. }
      cbn [DiGraph.add_edge DiGraph.attr_expr] in Lc.
      destruct (IHl _ _ Hrest) as (L' & U' & M').
      { intros i Hi. apply Uc. lia. }
      split; [|split].
      + intros i Hi. rewrite L' by lia. rewrite Lc by lia. reflexivity.
      + intros i Hi. apply U'. lia.
      + rewrite seq_app, !map_app. f_equal.
        * rewrite <- Mc. apply map_ext_in. intros u Hu. apply in_seq in Hu.
          apply L'. lia.
        * replace (node0 + 1 + node_count c) with (node2 + 1) by lia.
          exact M'. }
  destruct (Hloop node D0 Hrun) as (L & U & M).
  { intros i Hi. rewrite Hattr. rewrite decide_False by lia. apply HD. lia. }
  split; [|split].
  - intros i Hi. rewrite L by lia. rewrite Hattr.
    rewrite decide_False by lia. reflexivity.
  - intros i Hi. apply U. lia.
  - cbn [seq map preorder_traversal]. f_equal.
    + rewrite L by lia. rewrite Hattr.
      rewrite decide_True by reflexivity.
      destruct (tree_label (Basic n l)); [reflexivity|]. apply HD. lia.
    + rewrite <- M. f_equal. f_equal. lia.
Qed.

(** *** Nodes *)

Lemma elem_of_seq_0 n i : i ∈ seq 0 n <-> i < n.
Proof. rewrite list_elem_of_In, in_seq. lia. Qed.

Lemma nodes_loop parent l :
  Forall (fun c => forall D node D' node',
            expr_to_tree_at c D node = Ok (D', node') ->
            DiGraph.nodes D = seq 0 (node + 1) ->
            DiGraph.nodes D' = seq 0 (node + node_count c)) l ->
  forall node D D' node',
    for_each (visit_child parent) (D, node) l = Ok (D', node') ->
    parent <= node ->
    DiGraph.nodes D = seq 0 (node + 1) ->
    DiGraph.nodes D' = seq 0 (node + 1 + length (flat_map preorder_traversal l)).
Proof.
  induction 1 as [|c l Hc _ IHl]; intros node D D' node' Hrun Hle HD.
  - cbn in Hrun. injection Hrun as <- <-. cbn. rewrite HD. f_equal. lia.
  - apply loop_cons_inv in Hrun as (D2 & node2 & Hchild & Hrest).
    cbn [flat_map]. rewrite length_app. fold (node_count c).
    pose proof (node_count_pos c) as Hpos.
    pose proof (last_node_at _ _ _ _ _ Hchild) as Hlast.
    apply Hc in Hchild.
    + rewrite (IHl _ _ _ _ Hrest); [f_equal; lia | lia |].
      rewrite Hchild. f_equal. lia.
    + cbn [DiGraph.add_edge DiGraph.nodes]. rewrite HD.
      rewrite (add_new_present (seq 0 (node + 1)) parent)
        by (apply elem_of_seq_0; lia).
      rewrite add_new_absent by (rewrite elem_of_seq_0; lia).
      rewrite (seq_app (node + 1) 1 0). reflexivity.
Qed.

Lemma nodes_at e : forall D node D' node',
  expr_to_tree_at e D node = Ok (D', node') ->
  DiGraph.nodes D = seq 0 (node + 1) ->
  DiGraph.nodes D' = seq 0 (node + node_count e).
Proof.
  induction e as [n l IH] using expr_rect'. intros D node D' node' Hrun HD.
  apply expr_to_tree_at_inv in Hrun as (D0 & Hlabel & Hrun).
  apply set_label_Ok in Hlabel as (_ & _ & Hnodes & _).
  rewrite node_count_eq.
  rewrite (nodes_loop node l IH _ _ _ _ Hrun); [f_equal; lia | lia |].
  rewrite Hnodes; [exact HD|]. rewrite HD. apply elem_of_seq_0. lia.
Qed.

(** *** The tree built from nothing *)

(** [expr_to_tree] returns exactly when the chain raises at no node of
    the expression: a node that is neither a symbol nor an operator is
    asked [is_constant()], and an exception of that call ends the whole
    conversion. *)
Theorem expr_to_tree_returns_iff e :
  is_ok (expr_to_tree e) = forallb chain_returns (preorder_traversal e).
Proof.
  unfold equations_utils.expr_to_tree. apply is_ok_at.
Qed.

(** When [expr_to_tree] returns, the nodes of the tree are numbered in
    the order of a preorder traversal: the number returned is that of the
    last node, the edges were added in the order of their targets
    [1, 2, ...], one edge into every node but the root, and each edge
    leads from a smaller number to a larger one. *)
Theorem expr_to_tree_edges e D last :
  expr_to_tree e = Ok (D, last) ->
  last = node_count e - 1 /\
  map snd (DiGraph.edges D) = seq 1 (node_count e - 1) /\
  Forall (fun p => fst p < snd p) (DiGraph.edges D).
Proof.
  unfold equations_utils.expr_to_tree. intros Hrun.
  pose proof (last_node_at _ _ _ _ _ Hrun) as Hlast.
  destruct (edges_at _ _ _ _ _ Hrun) as (new & E & T & S & _);
    [constructor|].
  cbn [DiGraph.empty DiGraph.edges app] in E.
  split; [lia|]. rewrite E. split; [exact T|].
  eapply Forall_impl; [exact S|]. cbn. intros p [_ H]. exact H.
Qed.

(** When [expr_to_tree] returns, the out-degree of the node numbered [k]
    is the number of arguments of the [k]-th node of the preorder
    traversal. *)
Theorem expr_to_tree_out_degree e D last :
  expr_to_tree e = Ok (D, last) ->
  map (DiGraph.out_degree D) (seq 0 (node_count e))
  = map (fun a => length (args a)) (preorder_traversal e).
Proof.
  unfold equations_utils.expr_to_tree, DiGraph.out_degree. intros Hrun.
  destruct (edges_at _ _ _ _ _ Hrun) as (new & E & _ & _ & O);
    [constructor|].
  cbn [DiGraph.empty DiGraph.edges app] in E. rewrite E. exact O.
Qed.

(** When [expr_to_tree] returns, the attribute [expr] of the node
    numbered [k] is the label that the chain gives the [k]-th node of the
    preorder traversal; a node that no branch of the chain covers has no
    attribute, and neither has any number past the last node. *)
Theorem expr_to_tree_labels e D last :
  expr_to_tree e = Ok (D, last) ->
  map (fun k => DiGraph.attr_expr D !! k) (seq 0 (node_count e))
  = map tree_label (preorder_traversal e) /\
  forall k, node_count e <= k -> DiGraph.attr_expr D !! k = None.
Proof.
  unfold equations_utils.expr_to_tree. intros Hrun.
  destruct (attrs_at _ _ _ _ _ Hrun) as (_ & U & M).
  { intros i _. apply lookup_empty. }
  split; [exact M|]. intros k Hk. apply U. lia.
Qed.

(** When [expr_to_tree] returns for an expression whose root gets a
    label or has arguments, the nodes of the tree are
    [0, 1, ..., node_count - 1] in this order. *)
Theorem expr_to_tree_nodes e D last :
  expr_to_tree e = Ok (D, last) ->
  is_Some (tree_label e) \/ args e <> [] ->
  DiGraph.nodes D = seq 0 (node_count e).
Proof.
  assert (Hall : forall l : list expr,
    Forall (fun c => forall D node D' node',
              expr_to_tree_at c D node = Ok (D', node') ->
              DiGraph.nodes D = seq 0 (node + 1) ->
              DiGraph.nodes D' = seq 0 (node + node_count c)) l).
  { intros l. apply Forall_forall. intros c _. apply nodes_at. }
  destruct e as [n l]. unfold equations_utils.expr_to_tree.
  intros Hrun Hroot. cbn [args] in Hroot.
  apply expr_to_tree_at_inv in Hrun as (D0 & Hlabel & Hrun).
  apply set_label_Ok in Hlabel as (_ & _ & _ & Hsome & Hnone).
  rewrite node_count_eq.
  destruct (tree_label (Basic n l)) as [s|] eqn:Hl.
  - rewrite (nodes_loop 0 l (Hall l) _ _ _ _ Hrun); [reflexivity | lia |].
    rewrite Hsome by eauto. reflexivity.
  - rewrite (Hnone eq_refl) in Hrun.
    destruct Hroot as [[? H]|Hargs]; [discriminate H|].
    destruct l as [|c l]; [contradiction|].
    apply loop_cons_inv in Hrun as (D2 & node2 & Hchild & Hrest).
    cbn [flat_map]. rewrite length_app. fold (node_count c).
    pose proof (node_count_pos c) as Hpos.
    pose proof (last_node_at _ _ _ _ _ Hchild) as Hlast.
    apply nodes_at in Hchild; [|reflexivity].
    rewrite (nodes_loop 0 l (Hall l) _ _ _ _ Hrest); [f_equal; lia | lia |].
    rewrite Hchild. f_equal. lia.
Qed.

End TreeFacts.

Lemma expr_to_tree_edges_witness :
  exists D last,
    equations_utils.expr_to_tree (fun _ => "2.0")
      (fun e => Ok (is_constant (head e)))
      (Add [Mul [Symbol "const0"; Symbol "x0"]; Float 2%float])
    = Ok (D, last) /\
    last = equations_utils.node_count
             (Add [Mul [Symbol "const0"; Symbol "x0"]; Float 2%float]) - 1 /\
    map snd (networkx.DiGraph.edges D)
    = seq 1 (equations_utils.node_count
               (Add [Mul [Symbol "const0"; Symbol "x0"]; Float 2%float]) - 1) /\
    Forall (fun p => fst p < snd p) (networkx.DiGraph.edges D).
Proof.
  eexists. eexists. split; [reflexivity|].
  apply (expr_to_tree_edges (fun _ => "2.0") (fun e => Ok (is_constant (head e)))
           (Add [Mul [Symbol "const0"; Symbol "x0"]; Float 2%float])).
  reflexivity.
Defined.

Lemma expr_to_tree_out_degree_witness :
  exists D last,
    equations_utils.expr_to_tree (fun _ => "2.0")
      (fun e => Ok (is_constant (head e)))
      (Add [Mul [Symbol "const0"; Symbol "x0"]; Float 2%float])
    = Ok (D, last) /\
    map (networkx.DiGraph.out_degree D)
        (seq 0 (equations_utils.node_count
                  (Add [Mul [Symbol "const0"; Symbol "x0"]; Float 2%float])))
    = map (fun a => length (args a))
          (preorder_traversal
             (Add [Mul [Symbol "const0"; Symbol "x0"]; Float 2%float])).
Proof.
  eexists. eexists. split; [reflexivity|].
  apply (expr_to_tree_out_degree (fun _ => "2.0")
           (fun e => Ok (is_constant (head e)))
           (Add [Mul [Symbol "const0"; Symbol "x0"]; Float 2%float]) _ 4).
  reflexivity.
Defined.

Lemma expr_to_tree_labels_witness :
  exists D last,
    equations_utils.expr_to_tree (fun _ => "2.0")
      (fun e => Ok (is_constant (head e)))
      (Add [Mul [Symbol "const0"; Symbol "x0"]; Float 2%float])
    = Ok (D, last) /\
    map (fun k => networkx.DiGraph.attr_expr D !! k)
        (seq 0 (equations_utils.node_count
                  (Add [Mul [Symbol "const0"; Symbol "x0"]; Float 2%float])))
    = map (equations_utils.tree_label (fun _ => "2.0")
             (fun e => Ok (is_constant (head e))))
          (preorder_traversal
             (Add [Mul [Symbol "const0"; Symbol "x0"]; Float 2%float])) /\
    forall k,
      equations_utils.node_count
        (Add [Mul [Symbol "const0"; Symbol "x0"]; Float 2%float]) <= k ->
      networkx.DiGraph.attr_expr D !! k = None.
Proof.
  eexists. eexists. split; [reflexivity|].
  apply (expr_to_tree_labels (fun _ => "2.0")
           (fun e => Ok (is_constant (head e)))
           (Add [Mul [Symbol "const0"; Symbol "x0"]; Float 2%float]) _ 4).
  reflexivity.
Defined.

Lemma expr_to_tree_nodes_witness :
  exists D last,
    equations_utils.expr_to_tree (fun _ => "2.0")
      (fun e => Ok (is_constant (head e)))
      (Add [Mul [Symbol "const0"; Symbol "x0"]; Float 2%float])
    = Ok (D, last) /\
    networkx.DiGraph.nodes D
    = seq 0 (equations_utils.node_count
               (Add [Mul [Symbol "const0"; Symbol "x0"]; Float 2%float])).
Proof.
  eexists. eexists. split; [reflexivity|].
  apply (expr_to_tree_nodes (fun _ => "2.0")
           (fun e => Ok (is_constant (head e)))
           (Add [Mul [Symbol "const0"; Symbol "x0"]; Float 2%float]) _ 4).
  - reflexivity.
  - left. eexists. reflexivity.
Defined.

(** ** Names of constants and variables *)

Section NameFacts.

Import equations_settings equations_utils equations_base.

Lemma uint_digits u :
  Forall (fun c => is_Some (Ascii.is_nat c) /\ is_space c = false)
    (String.list_ascii_of_string (NilEmpty.string_of_uint u)).
Proof.
  induction u; cbn [NilEmpty.string_of_uint String.list_ascii_of_string];
    constructor; try exact IHu; split; try reflexivity; eexists; reflexivity.
Qed.

Lemma to_uint_not_Nil n : Nat.to_uint n <> Decimal.Nil.
Proof.
  assert (H : Nat.to_uint n = Decimal.unorm (Nat.to_uint n)).
  { rewrite <- Unsigned.to_of, Unsigned.of_to. reflexivity. }
  rewrite H. unfold Decimal.unorm.
  destruct (Decimal.nzhead (Nat.to_uint n)); discriminate.
Qed.

Lemma digits_uint u : forall acc after_digit,
  u <> Decimal.Nil \/ after_digit = true ->
  digits (Z.of_nat acc) after_digit
    (String.list_ascii_of_string (NilEmpty.string_of_uint u))
  = Some (Z.of_nat (Nat.of_uint_acc u acc)).
Proof.
  induction u; intros acc after_digit H;
    cbn [NilEmpty.string_of_uint String.list_ascii_of_string Nat.of_uint_acc];
    [destruct H as [H| ->]; [contradiction | reflexivity]|..];
    cbn [digits];
    match goal with
    | |- context [Ascii.is_nat ?c] =>
        let r := eval vm_compute in (Ascii.is_nat c) in
        change (Ascii.is_nat c) with r
    end;
    cbv iota beta;
    rewrite <- (IHu _ true) by (right; reflexivity);
    f_equal; rewrite Nat.tail_mul_spec; lia.
Qed.

Lemma lstrip_clean l :
  Forall (fun c => is_space c = false) l -> lstrip l = l.
Proof.
  destruct 1 as [|c l Hc _]; [reflexivity|]. cbn [lstrip]. rewrite Hc.
  reflexivity.
Qed.

Lemma strip_clean l :
  Forall (fun c => is_space c = false) l -> strip l = l.
Proof.
  intros H. unfold strip. rewrite (lstrip_clean l H).
  rewrite lstrip_clean; [apply rev_involutive|].
  apply Forall_forall. intros c Hc. rewrite Forall_forall in H. apply H.
  apply list_elem_of_In. apply list_elem_of_In in Hc.
  now apply in_rev.
Qed.

Lemma int_str_nat i : int (str_nat i) = Ok (Z.of_nat i).
Proof.
  unfold int, str_nat.
  rewrite strip_clean
    by (eapply Forall_impl; [apply uint_digits | cbn; tauto]).
  pose proof (to_uint_not_Nil i) as Hnil.
  pose proof (Unsigned.of_to i) as Hback. unfold Nat.of_uint in Hback.
  pose proof (digits_uint (Nat.to_uint i) 0 false (or_introl Hnil)) as Hd.
  rewrite Hback in Hd. change (Z.of_nat 0) with 0%Z in Hd.
  destruct (Nat.to_uint i); [contradiction|..];
    cbn [NilEmpty.string_of_uint String.list_ascii_of_string] in Hd |- *;
    cbv iota beta; rewrite Hd; reflexivity.
Qed.

Lemma sub_literal_absent {S : Type} pat (repl : S -> string * S) st s :
  contains pat s = false -> sub_literal pat repl 0 st s = s.
Proof.
  induction s as [|c s IH]; [reflexivity|]. cbn [contains].
  intros H. apply orb_false_iff in H as [Hpre Hrest].
  rewrite sub_literal_no_match by exact Hpre. rewrite IH by exact Hrest.
  reflexivity.
Qed.

Lemma contains_digits a p u :
  Ascii.is_nat a = None ->
  contains (String a p) (NilEmpty.string_of_uint u) = false.
Proof.
  intros Ha.
  assert (H : forall s,
    Forall (fun c => is_Some (Ascii.is_nat c)) (String.list_ascii_of_string s) ->
    contains (String a p) s = false).
  { induction s as [|c s IH]; [reflexivity|].
    cbn [String.list_ascii_of_string contains String.prefix].
    intros Hall. inversion Hall as [|? ? Hc Hs]; subst.
    destruct (ascii_dec a c) as [->|_].
    - rewrite Ha in Hc. destruct Hc; discriminate.
    - cbn [orb]. apply IH, Hs. }
  apply H. eapply Forall_impl; [apply uint_digits | cbn; tauto].
Qed.

Lemma replace_base_name a p i :
  Ascii.is_nat a = None ->
  str_replace (String a p) "" (String a p +:+ str_nat i) = str_nat i.
Proof.
  intros Ha. unfold str_replace.
  rewrite sub_literal_match by discriminate. cbn [fst snd].
  rewrite append_nil. apply sub_literal_absent, contains_digits, Ha.
Qed.

(** The name [const{i}] that the enumeration gives a constant counts as a
    constant and is read back as the index [i]; the name [x{i}] of a
    variable counts as a free variable and is read back as the column
    [i]. *)
Theorem numbered_names_read_back i :
  contains CONST_BASE_NAME (CONST_BASE_NAME +:+ str_nat i) = true /\
  int (str_replace CONST_BASE_NAME "" (CONST_BASE_NAME +:+ str_nat i))
  = Ok (Z.of_nat i) /\
  contains CONST_BASE_NAME ("x" +:+ str_nat i) = false /\
  int (str_replace "x" "" ("x" +:+ str_nat i)) = Ok (Z.of_nat i).
Proof.
  split; [|split; [|split]].
  - unfold CONST_BASE_NAME. destruct (str_nat i); reflexivity.
  - unfold CONST_BASE_NAME. rewrite replace_base_name by reflexivity.
    apply int_str_nat.
  - unfold CONST_BASE_NAME.
    change ("x" +:+ str_nat i) with (String "x" (str_nat i)).
    cbn [contains String.prefix orb].
    destruct (ascii_dec "c" "x"); [discriminate|]. cbn [orb].
    apply contains_digits. reflexivity.
  - rewrite replace_base_name by reflexivity. apply int_str_nat.
Qed.

End NameFacts.

Section NumberedConstants.

Import equations_settings equations_utils equations_base.

Lemma getitem_nat {A : Type} (l : list A) i v :
  l !! i = Some v -> getitem l (Z.of_nat i) = Ok v.
Proof.
  intros Hv. pose proof (lookup_lt_Some _ _ _ Hv) as Hlt. unfold getitem.
  destruct (Z.ltb_spec (Z.of_nat i) 0); [lia|].
  destruct (Z.leb_spec 0 (Z.of_nat i)); [|lia].
  destruct (Z.ltb_spec (Z.of_nat i) (Z.of_nat (length l))); [|lia].
  cbn [andb]. rewrite Nat2Z.id, Hv. reflexivity.
Qed.

Lemma for_each_insert_total {V : Type} (f : string -> result V)
  (body : gmap string V -> string -> result (gmap string V)) :
  (forall d k, body d k = v ← f k; Ok (<[k := v]> d)) ->
  forall l d0,
    (forall k, k ∈ l -> is_ok (f k) = true) ->
    exists d, for_each body d0 l = Ok d.
Proof.
  intros Hbody. induction l as [|k l IH]; intros d0 Hok; cbn [for_each].
  - eexists. reflexivity.
  - rewrite Hbody. assert (Hk : is_ok (f k) = true) by (apply Hok; left).
    destruct (f k) as [v|]; [|discriminate]. rewrite !bind_Ok.
    apply IH. intros k' Hk'. apply Hok. now right.
Qed.

(** When every constant of the expression is named [const{i}] with [i]
    below the length of the constants sequence, [numpy_to_sympy_constants]
    returns, and the dict it returns binds [const{i}] to entry [i] of the
    sequence. *)
Theorem numbered_constants_bound (self : BaseEquation) cs :
  (forall c, c ∈ constants self ->
     exists i, c = CONST_BASE_NAME +:+ str_nat i /\ i < length cs) ->
  exists d,
    numpy_to_sympy_constants (Some cs) self = Ok d /\
    forall i, CONST_BASE_NAME +:+ str_nat i ∈ constants self ->
      d !! (CONST_BASE_NAME +:+ str_nat i) = cs !! i.
Proof.
  intros Hnames.
  assert (Hread : forall i,
    int (str_replace CONST_BASE_NAME "" (CONST_BASE_NAME +:+ str_nat i))
    = Ok (Z.of_nat i)).
  { intros i. unfold CONST_BASE_NAME.
    rewrite replace_base_name by reflexivity. apply int_str_nat. }
  set (f := fun c => i ← int (str_replace CONST_BASE_NAME "" c);
                     constants_getitem (Some cs) i).
  assert (Hbody : forall (d : gmap string float) k,
    (i ← int (str_replace CONST_BASE_NAME "" k);
     c ← constants_getitem (Some cs) i;
     Ok (<[k := c]> d)) = (v ← f k; Ok (<[k := v]> d))).
  { intros d k. unfold f. destruct (int _); [|reflexivity]. rewrite !bind_Ok.
    destruct (constants_getitem _ _); reflexivity. }
  destruct (for_each_insert_total f _ Hbody (constants self) ∅) as [d Hd].
  { intros k Hk. destruct (Hnames k Hk) as (i & -> & Hi). unfold f.
    rewrite Hread, bind_Ok. cbn [constants_getitem].
    destruct (lookup_lt_is_Some_2 cs i Hi) as [v Hv].
    rewrite (getitem_nat _ _ _ Hv). reflexivity. }
  exists d. split; [exact Hd|]. intros i Hi.
  destruct (for_each_insert f _ Hbody _ _ _ (NoDup_symbol_names _ _) Hd)
    as [Hin _].
  destruct (Hin _ Hi) as (v & Hv & ->). unfold f in Hv.
  rewrite Hread, bind_Ok in Hv. cbn [constants_getitem] in Hv.
  destruct (Hnames _ Hi) as (j & _ & _).
  destruct (cs !! i) as [w|] eqn:Hw.
  - rewrite (getitem_nat _ _ _ Hw) in Hv. congruence.
  - apply lookup_ge_None in Hw. rewrite getitem_out_of_range in Hv by lia.
    discriminate.
Qed.

End NumberedConstants.

Lemma numbered_constants_bound_witness :
  exists d,
    equations_base.numpy_to_sympy_constants (Some [3%float; 5%float])
      (equations_base.__init__ (fun e _ => e)
         (Add [Mul [Symbol "const0"; Symbol "x0"]; Symbol "const1"])) = Ok d /\
    forall i,
      equations_settings.CONST_BASE_NAME +:+ equations_utils.str_nat i
      ∈ equations_base.constants
          (equations_base.__init__ (fun e _ => e)
             (Add [Mul [Symbol "const0"; Symbol "x0"]; Symbol "const1"])) ->
      d !! (equations_settings.CONST_BASE_NAME +:+ equations_utils.str_nat i)
      = [3%float; 5%float] !! i.
Proof.
  apply numbered_constants_bound. intros c Hc.
  vm_compute in Hc. apply elem_of_cons in Hc as [->|Hc].
  - exists 0. split; [reflexivity | cbn; lia].
  - apply list_elem_of_singleton in Hc as ->.
    exists 1. split; [reflexivity | cbn; lia].
Defined.

(** An equation is a [Basic] without the method [is_constant]: the chain
    raises at its root and no graph is returned. *)
Example expr_to_tree_equation_raises :
  equations_utils.expr_to_tree (fun _ => "")
    (fun e => if String.eqb (type_name (head e)) "Equality"
              then Raise AttributeError
              else Ok (is_constant (head e)))
    (operator false false false false "Equality"
       [Symbol "x0"; Float 1%float])
  = Raise AttributeError.
Proof. reflexivity. Qed.
